(** * GPS Route Video Generator: track parsing and the video job client

    A shallow embedding of [parseGpx] and [parseKml] (src/App.tsx) and of
    [generateRouteVideo] (services/geminiService.ts, kept in the repository
    at the end of replit.md), with the parts of the
    JavaScript runtime they call: strings as sequences of UTF-16 code units,
    numbers as binary64 values, [trim], [split], [includes], [parseFloat],
    [Number], [isNaN], and a backtracking matcher for the regular
    expressions the parsers use. *)

From Stdlib Require Import String Ascii NArith ZArith QArith Qpower Qabs Bool Arith Lia Lqa List.
From Equations Require Import Equations.
From Equations.Prop Require Logic.
From ITree Require Import ITree Eq.Shallow.
Import ListNotations.
Close Scope Q_scope.


(* ===================================================================== *)
(** ** JavaScript strings *)
(* ===================================================================== *)

Module JS.

(** A string is a sequence of UTF-16 code units. *)
Definition char := N.
Definition str := list char.

(** String literals of the source, written in ASCII. *)
Definition lit (s : string) : str := map N_of_ascii (list_ascii_of_string s).

(** The double quote, code unit 0x22. *)
Definition dquote : char := 34%N.

Definition char_eqb (a b : char) : bool := N.eqb a b.

Fixpoint str_eqb (a b : str) : bool :=
  match a, b with
  | [], [] => true
  | x :: a', y :: b' => char_eqb x y && str_eqb a' b'
  | _, _ => false
  end.

(** WhiteSpace and LineTerminator code units: what [\s] matches and what
    [trim] strips. *)
Definition isWhiteSpace (c : char) : bool :=
  ((9 <=? c) && (c <=? 13) || (c =? 32) || (c =? 160) || (c =? 5760)
   || (8192 <=? c) && (c <=? 8202) || (c =? 8232) || (c =? 8233)
   || (c =? 8239) || (c =? 8287) || (c =? 12288) || (c =? 65279))%N.

Fixpoint dropWhile (p : char -> bool) (s : str) : str :=
  match s with
  | [] => []
  | c :: s' => if p c then dropWhile p s' else s
  end.

Definition trimStart (s : str) : str := dropWhile isWhiteSpace s.
Definition trimEnd (s : str) : str := rev (dropWhile isWhiteSpace (rev s)).

(** [String.prototype.trim]. *)
Definition trim (s : str) : str := trimEnd (trimStart s).

(** [stripPrefix p s] is what follows [p] when [s] starts with [p]. *)
Fixpoint stripPrefix (p s : str) : option str :=
  match p with
  | [] => Some s
  | x :: p' =>
      match s with
      | [] => None
      | y :: s' => if char_eqb x y then stripPrefix p' s' else None
      end
  end.

Definition startsWith (p s : str) : bool :=
  match stripPrefix p s with Some _ => true | None => false end.

(** [String.prototype.includes]: [sub] occurs somewhere in [s]. *)
Fixpoint includes (s sub : str) : bool :=
  startsWith sub s ||
  match s with
  | [] => false
  | _ :: s' => includes s' sub
  end.

(** [String.prototype.split] with a separator string of one code unit.
    The result always has at least one piece. *)
Fixpoint splitChar (sep : char) (s : str) : list str :=
  match s with
  | [] => [[]]
  | c :: s' =>
      if char_eqb c sep then [] :: splitChar sep s'
      else match splitChar sep s' with
           | piece :: rest => (c :: piece) :: rest
           | [] => [[c]]
           end
  end.

(* --------------------------------------------------------------------- *)
(** *** Numbers *)

(** A Number value: NaN, an infinity, or a finite binary64 number. A finite
    number is kept as its sign, by which the two zeros differ, and the
    exact value of its magnitude, a rational in lowest terms. *)
Inductive Num : Type :=
| NaN
| Infinity (negative : bool)
| Finite (negative : bool) (magnitude : Q).

Definition isNaN (v : Num) : bool :=
  match v with NaN => true | _ => false end.

Definition isDigit (c : char) : bool := ((48 <=? c) && (c <=? 57))%N.

Definition digitVal (c : char) : N := (c - 48)%N.

(** One more digit after digits of value [acc]. *)
Definition digitStep (acc : N) (c : char) : N := (10 * acc + digitVal c)%N.

(** The value of a run of decimal digits, most significant first. *)
Definition digitsVal (ds : str) : N := fold_left digitStep ds 0%N.

(** The longest prefix of [s] made of characters satisfying [p], and the
    rest. *)
Fixpoint span (p : char -> bool) (s : str) : str * str :=
  match s with
  | [] => ([], [])
  | c :: s' =>
      if p c then let (a, b) := span p s' in (c :: a, b) else ([], s)
  end.

(** An optional sign: [true] for a minus. *)
Definition readSign (s : str) : bool * str :=
  match s with
  | c :: s' =>
      if (c =? 45)%N then (true, s')
      else if (c =? 43)%N then (false, s')
      else (false, s)
  | [] => (false, s)
  end.

(** [2 ^ z] for an integer [z]. *)
Definition pow2 (z : Z) : Q := Qpower (2 # 1) z.

(** [floor (log2 (n / d))] for positive [n] and [d]. *)
Definition floorLog2 (n d : Z) : Z :=
  let k := (Z.log2 n - Z.log2 d)%Z in
  if (d * 2 ^ Z.max 0 k <=? n * 2 ^ Z.max 0 (- k))%Z then k else (k - 1)%Z.

(** The integer nearest to [n / d], the even one of the two when [n / d]
    lies half way; [d] is positive. *)
Definition roundHalfEven (n d : Z) : Z :=
  let q := (n / d)%Z in
  match (2 * (n mod d) ?= d)%Z with
  | Lt => q
  | Gt => (q + 1)%Z
  | Eq => if Z.even q then q else (q + 1)%Z
  end.

(** The Number value for a real number of magnitude [x >= 0]: the binary64
    number nearest to it, ties to the even significand. A binary64 number
    is a multiple [m * 2 ^ u] with [m < 2 ^ 53] and [-1074 <= u <= 971];
    [u] is the exponent of the last place in the binade [x] lies in, and
    [m] the integer nearest to [x / 2 ^ u].
    What rounds to [2 ^ 1024] or more is an infinity, what rounds to
    nothing is a zero, and both keep the sign. *)
Definition binary64 (negative : bool) (x : Q) : Num :=
  match Qnum (Qred x) with
  | Zpos n =>
      let d := Zpos (Qden (Qred x)) in
      let u := Z.max (floorLog2 (Zpos n) d - 52) (-1074) in
      let m := roundHalfEven (Zpos n * 2 ^ Z.max 0 (- u)) (d * 2 ^ Z.max 0 u) in
      let v := (inject_Z m * pow2 u)%Q in
      if Qle_bool (pow2 1024) v then Infinity negative
      else Finite negative (Qred v)
  | _ => Finite negative 0
  end.

(** The mathematical value [mantissa * 10 ^ exponent] of a decimal
    literal, exactly. *)
Definition decimalValue (mantissa : N) (exponent : Z) : Q :=
  Qred (inject_Z (Z.of_N mantissa) * Qpower (10 # 1) exponent).

(** ExponentPart: [e] or [E], an optional sign and at least one digit.
    Returns the exponent and what follows; when no well-formed exponent
    part starts [s], the exponent is 0 and nothing is consumed. *)
Definition readExponent (s : str) : Z * str :=
  match s with
  | c :: s1 =>
      if ((c =? 101) || (c =? 69))%N then
        let (neg, s2) := readSign s1 in
        let (ds, s3) := span isDigit s2 in
        match ds with
        | [] => (0%Z, s)
        | _ => ((if neg then - Z.of_N (digitsVal ds) else Z.of_N (digitsVal ds))%Z, s3)
        end
      else (0%Z, s)
  | [] => (0%Z, s)
  end.

(** The longest prefix of [s] that is a StrDecimalLiteral, with its value
    and what follows it; [None] when no prefix is one. The value is the
    mathematical value of the literal rounded to binary64, as the engines
    compute it. *)
Definition strDecimalPrefix (s : str) : option (Num * str) :=
  let (neg, s1) := readSign s in
  match stripPrefix (lit "Infinity") s1 with
  | Some rest => Some (Infinity neg, rest)
  | None =>
      let (ip, s2) := span isDigit s1 in
      let (fp, s3) :=
        match s2 with
        | c :: t =>
            if (c =? 46)%N then
              let (fp, s3) := span isDigit t in
              match ip, fp with
              | [], [] => ([], s2)
              | _, _ => (fp, s3)
              end
            else ([], s2)
        | [] => ([], s2)
        end in
      match ip ++ fp with
      | [] => None
      | ds =>
          let (e, s4) := readExponent s3 in
          Some (binary64 neg (decimalValue (digitsVal ds) (e - Z.of_nat (length fp))), s4)
      end
  end.

(** The global [parseFloat]: leading white space is skipped, the longest
    decimal literal is read, and whatever follows it is ignored. *)
Definition parseFloat (s : str) : Num :=
  match strDecimalPrefix (trimStart s) with
  | Some (v, _) => v
  | None => NaN
  end.

Definition radixDigit (radix : N) (c : char) : option N :=
  let v :=
    if isDigit c then Some (c - 48)%N
    else if ((97 <=? c) && (c <=? 102))%N then Some (c - 87)%N
    else if ((65 <=? c) && (c <=? 70))%N then Some (c - 55)%N
    else None in
  match v with
  | Some d => if (d <? radix)%N then Some d else None
  | None => None
  end.

Fixpoint radixVal (radix : N) (acc : N) (s : str) : option N :=
  match s with
  | [] => Some acc
  | c :: s' =>
      match radixDigit radix c with
      | Some d => radixVal radix (radix * acc + d)%N s'
      | None => None
      end
  end.

(** NonDecimalIntegerLiteral: [0x], [0o] or [0b] and at least one digit of
    that radix. *)
Definition nonDecimalLiteral (s : str) : Num :=
  match s with
  | z :: r :: ((_ :: _) as ds) =>
      if (z =? 48)%N then
        let radix :=
          if ((r =? 120) || (r =? 88))%N then Some 16%N
          else if ((r =? 111) || (r =? 79))%N then Some 8%N
          else if ((r =? 98) || (r =? 66))%N then Some 2%N
          else None in
        match radix with
        | Some b =>
            match radixVal b 0%N ds with
            | Some v => binary64 false (decimalValue v 0)
            | None => NaN
            end
        | None => NaN
        end
      else NaN
  | _ => NaN
  end.

(** [Number(s)] for a string: white space is trimmed on both sides, the
    empty string is 0, and the whole of what remains must be a numeric
    literal. *)
Definition Number (s : str) : Num :=
  match trim s with
  | [] => Finite false 0
  | t =>
      match strDecimalPrefix t with
      | Some (v, []) => v
      | _ => nonDecimalLiteral t
      end
  end.

End JS.

(* ===================================================================== *)
(** ** Regular expressions *)
(* ===================================================================== *)

Module RegExp.
Import JS.

(** The character classes of the source's patterns. *)
Inductive CharClass : Type :=
| WhiteSpaceClass            (* \s *)
| NotChar (c : char).        (* [^c] *)

Definition classMatches (k : CharClass) (c : char) : bool :=
  match k with
  | WhiteSpaceClass => isWhiteSpace c
  | NotChar x => negb (char_eqb c x)
  end.

(** The pattern constructs the source uses. Groups are not nested in its
    patterns, so a capture is recorded when its group closes. *)
Inductive Regex : Type :=
| Lit (s : str)              (* literal characters *)
| Plus (k : CharClass)       (* k+, greedy *)
| Group (r : Regex)          (* ( r ) *)
| Seq (r1 r2 : Regex).       (* r1 r2 *)

(** A matcher state: the input not yet consumed and the captures so far. *)
Record State : Type := { rest : str; captures : list str }.

Definition Continuation := State -> option State.

(** Greedy [k+] on [s]: one character of the class, then as many more as
    possible; the continuation is tried after the longest run first and
    after each shorter run on failure. *)
Fixpoint plusLoop (k : CharClass) (s : str) (c : str -> option State) : option State :=
  match s with
  | [] => None
  | a :: s' =>
      if classMatches k a then
        match plusLoop k s' c with
        | Some z => Some z
        | None => c s'
        end
      else None
  end.

(** The backtracking matcher, in continuation-passing style. *)
Fixpoint matcher (r : Regex) (x : State) (c : Continuation) : option State :=
  match r with
  | Lit s =>
      match stripPrefix s (rest x) with
      | Some s' => c {| rest := s'; captures := captures x |}
      | None => None
      end
  | Plus k =>
      plusLoop k (rest x) (fun s' => c {| rest := s'; captures := captures x |})
  | Group r1 =>
      matcher r1 x (fun y =>
        c {| rest := rest y;
             captures := captures y ++
               [firstn (length (rest x) - length (rest y)) (rest x)] |})
  | Seq r1 r2 => matcher r1 x (fun y => matcher r2 y c)
  end.

(** A match: where it starts and ends in the searched string, and the text
    of its groups ([m[1]], [m[2]], ...). *)
Record MatchResult : Type :=
  { index : nat; endIndex : nat; groups : list str }.

(** One attempt at the start of [s], which is the part of the searched
    string from position [i] on. *)
Definition matchAt (r : Regex) (i : nat) (s : str) : option MatchResult :=
  match matcher r {| rest := s; captures := [] |} Some with
  | Some y =>
      Some {| index := i;
              endIndex := i + (length s - length (rest y));
              groups := captures y |}
  | None => None
  end.

(** The leftmost match at or after position [i]. *)
Fixpoint execFrom (r : Regex) (i : nat) (s : str) : option MatchResult :=
  match matchAt r i s with
  | Some m => Some m
  | None =>
      match s with
      | [] => None
      | _ :: s' => execFrom r (S i) s'
      end
  end.

(** [RegExp.prototype.exec] of a pattern without the [g] flag. *)
Definition exec (r : Regex) (s : str) : option MatchResult := execFrom r 0 s.

(** [m[k]] for [k >= 1]; [None] is [undefined]. *)
Definition group (m : MatchResult) (k : nat) : option str :=
  nth_error (groups m) (k - 1).

Lemma matchAt_bounds r i s m :
  matchAt r i s = Some m -> i = index m /\ index m <= endIndex m.
Proof.
  unfold matchAt. destruct (matcher r _ Some); intros H; inversion H; simpl; lia.
Qed.

Lemma execFrom_bounds r s : forall i m,
  execFrom r i s = Some m -> i <= index m /\ index m <= endIndex m.
Proof.
  induction s as [|a s IH]; intros i m; simpl.
  - destruct (matchAt r i []) eqn:E; [|discriminate].
    intros H; inversion H; subst. apply matchAt_bounds in E. lia.
  - destruct (matchAt r i (a :: s)) eqn:E.
    + intros H; inversion H; subst. apply matchAt_bounds in E. lia.
    + intros H. apply IH in H. lia.
Qed.

(** Where the next search of a [g] pattern starts: at the end of the match,
    one further when the match is empty. *)
Definition nextIndex (m : MatchResult) : nat :=
  if endIndex m =? index m then S (endIndex m) else endIndex m.

(** [String.prototype.matchAll] with a [g] pattern, drained: every match,
    each search starting where the previous match ended. [s] is the part
    of the string from position [i] on. A search that would start past
    the end of the string fails, and ends the iteration. *)
Equations? matchAllFrom (r : Regex) (i : nat) (s : str) : list MatchResult
  by wf (length s) lt :=
  matchAllFrom r i s with Logic.inspect (execFrom r i s) := {
    | exist _ None _ := [];
    | exist _ (Some m) _ with Logic.inspect (nextIndex m - i <=? length s) := {
        | exist _ true _ :=
            m :: matchAllFrom r (nextIndex m) (skipn (nextIndex m - i) s);
        | exist _ false _ := [m] } }.
Proof.
  apply execFrom_bounds in e. apply Nat.leb_le in e0.
  assert (1 <= nextIndex m - i).
  { unfold nextIndex. destruct (Nat.eqb_spec (endIndex m) (index m)); lia. }
  rewrite length_skipn. lia.
Qed.

Definition matchAll (r : Regex) (s : str) : list MatchResult := matchAllFrom r 0 s.

(** One step of [split] looks for the separator at the start of [s] only. *)
Definition separatorAt (r : Regex) (s : str) : option MatchResult := matchAt r 0 s.

(** The loop of [String.prototype.split] with a pattern as separator.
    [piece] is the text since the last separator, [s] what is left to
    scan. A separator match that is empty and leaves the piece empty is
    passed over. *)
Equations? splitLoop (r : Regex) (piece : str) (s : str) : list str
  by wf (length s + length s + (match piece with [] => 0 | _ => 1 end)) lt :=
  splitLoop r piece [] := [piece];
  splitLoop r piece (a :: s') with separatorAt r (a :: s') := {
    | None := splitLoop r (piece ++ [a]) s';
    | Some m with endIndex m, piece := {
        | 0, [] := splitLoop r [a] s';
        | 0, _ :: _ := piece :: groups m ++ splitLoop r [] (a :: s');
        | S e, _ := piece :: groups m ++ splitLoop r [] (skipn e s') } }.
Proof.
  all: try rewrite length_skipn; try (destruct piece; simpl; lia); simpl; lia.
Qed.

(** [s.split(r)]. *)
Definition split (r : Regex) (s : str) : list str :=
  match s with
  | [] => match separatorAt r [] with Some _ => [] | None => [[]] end
  | _ => splitLoop r [] s
  end.

(** The next character of [s], if any, is not of the class. *)
Definition stopsAt (k : CharClass) (s : str) : Prop :=
  match s with
  | [] => True
  | a :: _ => classMatches k a = false
  end.

End RegExp.

(* ===================================================================== *)
(** ** src/App.tsx: the track parsers *)
(* ===================================================================== *)

Module App.
Import JS RegExp.

(** [Coordinate] of types.ts, as [parseGpx] and [parseKml] build it. *)
Record Coordinate : Type := { lat : Num; lon : Num }.

(** How a call ends: with a value, or with [throw new Error(message)]. *)
Inductive Completion (A : Type) : Type :=
| Return (value : A)
| Throw (message : str).
Arguments Return {A} value.
Arguments Throw {A} message.

(** A string argument that may be [undefined], as a built-in converts it. *)
Definition toStringArg (v : option str) : str :=
  match v with
  | Some s => s
  | None => lit "undefined"
  end.

(** [/<trkpt\s+lat="([^"]+)"\s+lon="([^"]+)"/g] *)
Definition trkptPattern : Regex :=
  Seq (Lit (lit "<trkpt"))
 (Seq (Plus WhiteSpaceClass)
 (Seq (Lit (lit "lat=" ++ [dquote]))
 (Seq (Group (Plus (NotChar dquote)))
 (Seq (Lit [dquote])
 (Seq (Plus WhiteSpaceClass)
 (Seq (Lit (lit "lon=" ++ [dquote]))
 (Seq (Group (Plus (NotChar dquote)))
      (Lit [dquote])))))))).

(** [{ lat: parseFloat(match[1]), lon: parseFloat(match[2]) }] *)
Definition trackPointOf (m : MatchResult) : Coordinate :=
  {| lat := parseFloat (toStringArg (group m 1));
     lon := parseFloat (toStringArg (group m 2)) |}.

(** The body of the [for] loop of [parseGpx]: one [push] per match. *)
Definition pushTrackPoint (coords : list Coordinate) (m : MatchResult) : list Coordinate :=
  coords ++ [trackPointOf m].

Definition gpxErrorMessage : str := lit "No track points found in GPX file.".

(** [coords] when the loop of [parseGpx] is over. *)
Definition gpxCoords (gpxString : str) : list Coordinate :=
  let trackPoints := matchAll trkptPattern gpxString in
  fold_left pushTrackPoint trackPoints [].

Definition parseGpx (gpxString : str) : Completion (list Coordinate) :=
  let coords := gpxCoords gpxString in
  if length coords =? 0 then Throw gpxErrorMessage else Return coords.

(** The less-than sign and the comma. *)
Definition lessThan : char := 60%N.
Definition comma : char := 44%N.

(** [/<coordinates>([^<]+)<\/coordinates>/s] *)
Definition coordinatesPattern : Regex :=
  Seq (Lit (lit "<coordinates>"))
 (Seq (Group (Plus (NotChar lessThan)))
      (Lit (lit "</coordinates>"))).

(** The callback of [coordPairs.forEach]. [lon] and [lat] are the first
    two elements of the array of numbers; a missing one is [undefined],
    for which [isNaN] is true. *)
Definition pushPair (coords : list Coordinate) (pair : str) : list Coordinate :=
  let numbers := map Number (splitChar comma pair) in
  match nth_error numbers 0, nth_error numbers 1 with
  | Some lon, Some lat =>
      if negb (isNaN lon) && negb (isNaN lat)
      then coords ++ [ {| lat := lat; lon := lon |} ]
      else coords
  | _, _ => coords
  end.

Definition kmlErrorMessage : str := lit "No coordinates found in KML file.".

(** A non-empty string is truthy. *)
Definition truthyStr (v : option str) : bool :=
  match v with
  | Some (_ :: _) => true
  | _ => false
  end.

(** [coordPairs] for a matched block: the tokens of its text. *)
Definition coordPairsOf (block : str) : list str :=
  split (Plus WhiteSpaceClass) (trim block).

(** [coords] when the [if] of [parseKml] is over. *)
Definition kmlCoords (kmlString : str) : list Coordinate :=
  let coordinatesTag := exec coordinatesPattern kmlString in
  match coordinatesTag with
  | Some m =>
      if truthyStr (group m 1) then
        fold_left pushPair (coordPairsOf (toStringArg (group m 1))) []
      else []
  | None => []
  end.

Definition parseKml (kmlString : str) : Completion (list Coordinate) :=
  let coords := kmlCoords kmlString in
  if length coords =? 0 then Throw kmlErrorMessage else Return coords.

End App.

(* ===================================================================== *)
(** ** services/geminiService.ts (in replit.md): the video job client *)
(* ===================================================================== *)

Module GeminiService.
Import JS.
Import ITreeNotations.
Local Open Scope itree_scope.

(** What a rejected promise or a [throw] carries: an [Error] with its
    message, or any other value. *)
Inductive Thrown : Type :=
| ErrorObject (message : str)
| OtherValue (description : str).

(** The operation the SDK hands back; every field may be absent. *)
Record Video : Type := { uri : option str }.
Record GeneratedVideo : Type := { video : option Video }.
Record GenerateVideosResponse : Type :=
  { generatedVideos : option (list GeneratedVideo) }.
Record Operation : Type :=
  { name : str;
    done : option bool;
    response : option GenerateVideosResponse }.

(** [operation.done] as a condition: [undefined] is falsy. *)
Definition isDone (operation : Operation) : bool :=
  match done operation with
  | Some b => b
  | None => false
  end.

(** [operation.response?.generatedVideos?.[0]?.video?.uri] *)
Definition downloadLinkOf (operation : Operation) : option str :=
  match response operation with
  | Some r =>
      match generatedVideos r with
      | Some vs =>
          match nth_error vs 0 with
          | Some v =>
              match video v with
              | Some f => uri f
              | None => None
              end
          | None => None
          end
      | None => None
      end
  | None => None
  end.

(** The argument of [ai.models.generateVideos]. *)
Record GenerateVideosRequest : Type :=
  { model : str;
    prompt : str;
    imageBytes : str;
    mimeType : str;
    numberOfVideos : N }.

Definition request (base64MapImage : str) : GenerateVideosRequest :=
  {| model := lit "veo-2.0-generate-001";
     prompt := lit "Animate a bright, glowing dot that smoothly follows the highlighted path on the provided map image. The dot should trace the entire route from start to finish. Make the animation clear, visually appealing, and cinematic.";
     imageBytes := base64MapImage;
     mimeType := lit "image/png";
     numberOfVideos := 1 |}.

(** What the function asks of its environment. An awaited call answers
    with the value the promise resolves to, or with what it rejects
    with. *)
Variant veoE : Type -> Type :=
| GenerateVideos (req : GenerateVideosRequest) : veoE (Thrown + Operation)
| Sleep (ms : N) : veoE unit
| GetVideosOperation (operation : Operation) : veoE (Thrown + Operation)
| ConsoleError (label : str) (error : Thrown) : veoE unit.

Definition noLinkMessage : str :=
  lit "Video generation completed, but no download link was found.".
Definition invalidKeyMessage : str :=
  lit "The provided API Key is invalid. Please check your configuration.".
Definition genericMessage : str :=
  lit "Failed to generate video. The AI model may be busy or an error occurred.".

(** One turn of [while (!operation.done)]: [inl] goes round again with the
    new operation, [inr] leaves the loop, normally or with what the
    re-query rejected with. *)
Definition pollStep (operation : Operation)
  : itree veoE (Operation + (Thrown + Operation)) :=
  if isDone operation then Ret (inr (inr operation))
  else
    ITree.trigger (Sleep 10000) ;;
    r <- ITree.trigger (GetVideosOperation operation) ;;
    match r with
    | inl error => Ret (inr (inl error))
    | inr operation' => Ret (inl operation')
    end.

Definition pollLoop (operation : Operation) : itree veoE (Thrown + Operation) :=
  ITree.iter pollStep operation.

(** The statements after the loop. *)
Definition extractLink (operation : Operation) : Thrown + str :=
  match downloadLinkOf operation with
  | Some (c :: link) => inr (c :: link)
  | _ => inl (ErrorObject noLinkMessage)
  end.

(** The rest of the [try] block once the loop is left: a rejected status
    query is thrown on, a finished operation gives its link or the throw
    of [extractLink]. *)
Definition afterPolling (r : Thrown + Operation) : itree veoE (Thrown + str) :=
  match r with
  | inl error => Ret (inl error)
  | inr operation => Ret (extractLink operation)
  end.

(** The [try] block: [inl] is what it throws. *)
Definition tryBlock (base64MapImage : str) : itree veoE (Thrown + str) :=
  r <- ITree.trigger (GenerateVideos (request base64MapImage)) ;;
  match r with
  | inl error => Ret (inl error)
  | inr operation =>
      r <- pollLoop operation ;;
      afterPolling r
  end.

(** [error instanceof Error && error.message.includes('API key not valid')] *)
Definition isInvalidKeyError (error : Thrown) : bool :=
  match error with
  | ErrorObject message => includes message (lit "API key not valid")
  | OtherValue _ => false
  end.

(** The [catch] block: it always throws. *)
Definition catchBlock (error : Thrown) : itree veoE (Thrown + str) :=
  ITree.trigger (ConsoleError (lit "Error generating video with Gemini:") error) ;;
  if isInvalidKeyError error
  then Ret (inl (ErrorObject invalidKeyMessage))
  else Ret (inl (ErrorObject genericMessage)).

(** What follows the [try] block: a thrown value goes to [catch], a
    returned link is the result. *)
Definition settle (r : Thrown + str) : itree veoE (Thrown + str) :=
  match r with
  | inl error => catchBlock error
  | inr downloadLink => Ret (inr downloadLink)
  end.

(** [inl] is the error the returned promise rejects with, [inr] the
    download link it resolves to. *)
Definition generateRouteVideo (base64MapImage : str) : itree veoE (Thrown + str) :=
  r <- tryBlock base64MapImage ;;
  settle r.

(** Everything after the loop, [catch] included. *)
Definition afterLoop (r : Thrown + Operation) : itree veoE (Thrown + str) :=
  r' <- afterPolling r ;;
  settle r'.

(* --------------------------------------------------------------------- *)
(** *** Running against a service *)

(** The external service, as the client sees it: the answer to the
    submission, and the answer to each status query; [getVideosOperation
    n] answers the query made after [n] earlier ones. *)
Record Service : Type :=
  { generateVideos : GenerateVideosRequest -> Thrown + Operation;
    getVideosOperation : nat -> Operation -> Thrown + Operation }.

(** What an observer of a run sees. *)
Inductive Event : Type :=
| Submitted (req : GenerateVideosRequest)
| Slept (ms : N)
| Queried (operation : Operation)
| Logged (label : str) (error : Thrown).

Record RunState : Type := { queries : nat; trace : list Event }.

Definition initial : RunState := {| queries := 0; trace := [] |}.

Definition record (ev : Event) (st : RunState) : RunState :=
  {| queries := queries st; trace := trace st ++ [ev] |}.

Definition handle (svc : Service) {X : Type} (e : veoE X) (st : RunState)
  : X * RunState :=
  match e in veoE X return X * RunState with
  | GenerateVideos req => (generateVideos svc req, record (Submitted req) st)
  | Sleep ms => (tt, record (Slept ms) st)
  | GetVideosOperation operation =>
      (getVideosOperation svc (queries st) operation,
       {| queries := S (queries st); trace := trace st ++ [Queried operation] |})
  | ConsoleError label error => (tt, record (Logged label error) st)
  end.

(** [run n svc t st] takes at most [n] steps of [t]: the result, if [t]
    has finished within them, and the state reached. *)
Fixpoint run {R : Type} (n : nat) (svc : Service) (t : itree veoE R) (st : RunState)
  : option R * RunState :=
  match n with
  | 0 => (None, st)
  | S n' =>
      match observe t with
      | RetF r => (Some r, st)
      | TauF t' => run n' svc t' st
      | VisF e k => let (x, st') := handle svc e st in run n' svc (k x) st'
      end
  end.

Definition isSlept (ev : Event) : bool :=
  match ev with Slept _ => true | _ => false end.
Definition isQueried (ev : Event) : bool :=
  match ev with Queried _ => true | _ => false end.

(** The job never reports completion: every status query is answered with
    an operation that is not done. *)
Definition neverDone (svc : Service) : Prop :=
  forall n operation, exists operation',
    getVideosOperation svc n operation = inr operation' /\ isDone operation' = false.

(** The waits and the status queries of a run so far. *)
Definition waits (st : RunState) : nat := length (filter isSlept (trace st)).
Definition requeries (st : RunState) : nat := length (filter isQueried (trace st)).

End GeminiService.

(* ===================================================================== *)
(** ** The shape of the track files the properties speak of *)
(* ===================================================================== *)

Module Documents.
Import JS RegExp App.

Definition isEmpty (s : str) : bool :=
  match s with [] => true | _ :: _ => false end.

Definition allWhite (w : str) : bool := forallb isWhiteSpace w.

Definition noneWhite (t : str) : bool :=
  forallb (fun c => negb (isWhiteSpace c)) t.

Definition lacks (c : char) (t : str) : bool :=
  forallb (fun x => negb (char_eqb x c)) t.

(** The value of [t] when the whole of [t] is a decimal literal
    ([45.0], [-7.5], [1e3], ...). *)
Definition literalValue (t : str) : option Num :=
  match strDecimalPrefix t with
  | Some (v, []) => Some v
  | _ => None
  end.

Definition isNumeric (t : str) : bool :=
  match literalValue t with Some _ => true | None => false end.

(** The characters a decimal literal is made of. *)
Definition numChar (c : char) : bool :=
  isDigit c ||
  existsb (char_eqb c) (lit "+-.eEInfinity").

(** *** GPX *)

(** A track-point marker [<trkpt lat="..." lon="...">] up to the quote
    that closes [lon]: the white space after the name, the text of [lat],
    the white space between the attributes, the text of [lon]. *)
Record Marker : Type :=
  { afterName : str; latText : str; betweenAttributes : str; lonText : str }.

Definition markerText (m : Marker) : str :=
  lit "<trkpt" ++ afterName m ++
  lit "lat=" ++ [dquote] ++ latText m ++ [dquote] ++ betweenAttributes m ++
  lit "lon=" ++ [dquote] ++ lonText m ++ [dquote].

Definition isSeparator (w : str) : bool := negb (isEmpty w) && allWhite w.

(** An attribute value: not empty, and without the quote that ends it. *)
Definition isAttributeText (t : str) : bool := negb (isEmpty t) && lacks dquote t.

(** The marker is written as the pattern expects it. *)
Definition matchesPattern (m : Marker) : bool :=
  isSeparator (afterName m) && isSeparator (betweenAttributes m) &&
  isAttributeText (latText m) && isAttributeText (lonText m).

(** A well-formed marker with numeric [lat] and [lon]. *)
Definition wellFormed (m : Marker) : bool :=
  isSeparator (afterName m) && isSeparator (betweenAttributes m) &&
  isNumeric (latText m) && isNumeric (lonText m).

(** The coordinate a marker's attributes denote. *)
Definition coordinateOf (m : Marker) : option Coordinate :=
  match literalValue (latText m), literalValue (lonText m) with
  | Some la, Some lo => Some {| lat := la; lon := lo |}
  | _, _ => None
  end.

(** Text between markers: no [<trkpt] in it. *)
Definition noMarker (g : str) : bool := negb (includes g (lit "<trkpt")).

(** A GPX text: [g], then each marker followed by its own stretch of
    other text. *)
Fixpoint gpxText (g : str) (ms : list (Marker * str)) : str :=
  match ms with
  | [] => g
  | (m, g') :: ms' => g ++ markerText m ++ gpxText g' ms'
  end.

(** The texts a marker's attributes hold, as the pattern captures them. *)
Definition attributeTexts (mg : Marker * str) : list str :=
  [latText (fst mg); lonText (fst mg)].

Definition shaped (mg : Marker * str) : bool :=
  matchesPattern (fst mg) && noMarker (snd mg).

(** The coordinate read off a marker's two attribute texts. *)
Definition readMarker (mg : Marker * str) : Coordinate :=
  {| lat := parseFloat (latText (fst mg)); lon := parseFloat (lonText (fst mg)) |}.

(** *** KML *)

(** A token [lon,lat] or [lon,lat,alt...]: [altitude] is [None] for the
    first form and the text after the second comma for the other. *)
Record Token : Type :=
  { lonComponent : str; latComponent : str; altitude : option str }.

Definition tokenText (k : Token) : str :=
  lonComponent k ++ [comma] ++ latComponent k ++
  match altitude k with
  | Some alt => [comma] ++ alt
  | None => []
  end.

(** A valid token: numeric longitude and latitude; an altitude part, if
    any, without white space and without [<]. *)
Definition validToken (k : Token) : bool :=
  isNumeric (lonComponent k) && isNumeric (latComponent k) &&
  match altitude k with
  | Some alt => noneWhite alt && lacks lessThan alt
  | None => true
  end.

(** A word of a block: text that is not empty and has no white space. *)
Definition isWord (t : str) : bool := negb (isEmpty t) && noneWhite t.

(** The text of a block: white space [w], then each word followed by its
    own white space. *)
Fixpoint wordsText (w : str) (ws : list (str * str)) : str :=
  match ws with
  | [] => w
  | (t, w') :: ws' => w ++ t ++ wordsText w' ws'
  end.

(** The white space after a word is not empty, unless the word is the
    last. *)
Fixpoint spaced {A : Type} (ws : list (A * str)) : bool :=
  match ws with
  | [] => true
  | (_, w) :: ws' =>
      match ws' with
      | [] => allWhite w
      | _ :: _ => isSeparator w && spaced ws'
      end
  end.

(** The words [t], [ws] with the white space between them: [w] follows
    [t]; what follows the last word is left out. *)
Fixpoint wordsOnly (t : str) (w : str) (ws : list (str * str)) : str :=
  match ws with
  | [] => t
  | (t', w') :: ws' => t ++ w ++ wordsOnly t' w' ws'
  end.

Definition openTag : str := lit "<coordinates>".
Definition closeTag : str := lit "</coordinates>".

(** A coordinates block with [body] as its text. *)
Definition blockText (body : str) : str := openTag ++ body ++ closeTag.

(** Text before the block: no [<coordinates>] in it. *)
Definition noBlock (g : str) : bool := negb (includes g openTag).

(** [s] holds a block that the pattern matches: a text that is not empty
    and has no [<] between the two tags. *)
Definition holdsBlock (s : str) : Prop :=
  exists before body after,
    s = before ++ blockText body ++ after /\
    body <> [] /\ lacks lessThan body = true.

(** How [coords] becomes the result in both parsers. *)
Definition orThrow (message : str) (coords : list Coordinate)
  : Completion (list Coordinate) :=
  if length coords =? 0 then Throw message else Return coords.

(** The [k]-th comma-separated component of a token, as a number; [None]
    when the token has no such component. *)
Definition component (pair : str) (k : nat) : option Num :=
  nth_error (map Number (splitChar comma pair)) k.

(** The component is there and is a number. *)
Definition parses (v : option Num) : bool :=
  match v with
  | Some n => negb (isNaN n)
  | None => false
  end.

(** What a token of a block contributes, in the words of the
    specification: one coordinate when its longitude and its latitude
    both parse as numbers, nothing otherwise. *)
Definition contribution (pair : str) : list Coordinate :=
  if parses (component pair 0) && parses (component pair 1) then
    match component pair 0, component pair 1 with
    | Some lo, Some la => [ {| lat := la; lon := lo |} ]
    | _, _ => []
    end
  else [].

(** The tokens that [parseKml] goes through: those of the block the
    pattern finds first, none when it finds no block. *)
Definition blockTokens (kmlString : str) : list str :=
  match exec coordinatesPattern kmlString with
  | Some m =>
      if truthyStr (group m 1) then coordPairsOf (toStringArg (group m 1)) else []
  | None => []
  end.

End Documents.

(* ===================================================================== *)
(** ** Sample inputs *)
(* ===================================================================== *)

Module Samples.
Import JS RegExp App GeminiService Documents.

(** [<trkpt lat="la" lon="lo"] with single spaces. *)
Definition trkpt (la lo : string) : Marker :=
  {| afterName := lit " "; latText := lit la;
     betweenAttributes := lit " "; lonText := lit lo |}.

Definition pending : Operation :=
  {| name := lit "operations/route-1"; done := Some false; response := None |}.

Definition finished : Operation :=
  {| name := lit "operations/route-1"; done := Some true;
     response :=
       Some {| generatedVideos :=
                 Some [ {| video := Some {| uri := Some (lit "https://video.example/route-1?alt=media") |} |} ] |} |}.

(** Done, and no video in the response. *)
Definition finishedWithoutLink : Operation :=
  {| name := lit "operations/route-1"; done := Some true;
     response := Some {| generatedVideos := None |} |}.

(** Pending when submitted and at the first status query, done at the
    second. *)
Definition doneAtSecondQuery : Service :=
  {| generateVideos := fun _ => inr pending;
     getVideosOperation := fun n _ =>
       match n with
       | 0 => inr pending
       | _ => inr finished
       end |}.

(** Never done. *)
Definition stuck : Service :=
  {| generateVideos := fun _ => inr pending;
     getVideosOperation := fun _ _ => inr pending |}.

(** The submission is rejected for its credential. *)
Definition refusesKey : Service :=
  {| generateVideos := fun _ =>
       inl (ErrorObject (lit "API key not valid. Please pass a valid API key."));
     getVideosOperation := fun _ operation => inr operation |}.

(** The submission does not reach the service. *)
Definition unreachable : Service :=
  {| generateVideos := fun _ => inl (ErrorObject (lit "fetch failed"));
     getVideosOperation := fun _ operation => inr operation |}.

(** The job is done at once and has no video. *)
Definition completesWithoutLink : Service :=
  {| generateVideos := fun _ => inr finishedWithoutLink;
     getVideosOperation := fun _ operation => inr operation |}.

Definition mapImage : str := lit "iVBORw0KGgoAAAANSUhEUgAA".

End Samples.

(* ===================================================================== *)
(** ** Track files written in other ways *)
(* ===================================================================== *)

Module Variants.
Import JS RegExp App Documents.

(** A track-point marker whose [lon] attribute stands before [lat]:
    [<trkpt lon="..." lat="..."]. *)
Definition lonFirstText (m : Marker) : str :=
  lit "<trkpt" ++ afterName m ++
  lit "lon=" ++ [dquote] ++ lonText m ++ [dquote] ++ betweenAttributes m ++
  lit "lat=" ++ [dquote] ++ latText m ++ [dquote].

(** A stretch of a GPX text between two markers with [lat] first: other
    text [g], then markers with [lon] first, each followed by other
    text. *)
Fixpoint lonFirstStretch (g : str) (ms : list (Marker * str)) : str :=
  match ms with
  | [] => g
  | (m, g') :: ms' => g ++ lonFirstText m ++ lonFirstStretch g' ms'
  end.

Definition Stretch : Type := str * list (Marker * str).

Definition stretchText (s : Stretch) : str := lonFirstStretch (fst s) (snd s).

(** The other text of the stretch has no [<trkpt], and its markers are
    well formed but for the order of their attributes. *)
Definition isStretch (s : Stretch) : bool :=
  noMarker (fst s) &&
  forallb (fun mg => wellFormed (fst mg) && noMarker (snd mg)) (snd s).

(** A GPX text with markers of both kinds: a stretch, then each marker
    with [lat] first followed by its own stretch. *)
Fixpoint mixedGpxText (s : Stretch) (ms : list (Marker * Stretch)) : str :=
  match ms with
  | [] => stretchText s
  | (m, s') :: ms' => stretchText s ++ markerText m ++ mixedGpxText s' ms'
  end.

(** Text that ends a literal standing before it: it is empty or starts
    with a character that no literal contains. *)
Definition cutsLiteral (rest : str) : bool :=
  match rest with
  | [] => true
  | x :: _ => negb (numChar x)
  end.

(** The letters that make [0x], [0o] and [0b] literals. *)
Definition isRadixLetter (c : char) : bool :=
  existsb (char_eqb c) (lit "xXoObB").

End Variants.

(* ===================================================================== *)
(** ** More of the built-ins *)
(* ===================================================================== *)

Module Builtins.
Import JS.

(** [String.prototype.endsWith] *)
Definition endsWith (s suffix : str) : bool := startsWith (rev suffix) (rev s).

Definition isAscii (c : char) : bool := (c <? 128)%N.

(** What [toLowerCase] makes of an ASCII code unit. *)
Definition asciiLower (c : char) : char :=
  if ((65 <=? c) && (c <=? 90))%N then (c + 32)%N else c.

(** [String.prototype.toLowerCase] is taken as given; this is what is
    known of it on ASCII text, where it works code unit by code unit. *)
Definition lowersAscii (toLowerCase : str -> str) : Prop :=
  forall s, forallb isAscii s = true -> toLowerCase s = map asciiLower s.

(** [Array.prototype.indexOf] on an array of strings: the first index at
    which the value is, [-1] when it is nowhere. A value that is
    [undefined] is in no array of strings. *)
Fixpoint indexOfFrom (i : Z) (xs : list str) (x : str) : Z :=
  match xs with
  | [] => (-1)%Z
  | y :: ys => if str_eqb y x then i else indexOfFrom (i + 1)%Z ys x
  end.

Definition indexOf (xs : list str) (x : option str) : Z :=
  match x with
  | Some s => indexOfFrom 0%Z xs s
  | None => (-1)%Z
  end.

(** [a % b] on integers; [None] is NaN. *)
Definition remainder (a b : Z) : option Z :=
  if (b =? 0)%Z then None else Some (Z.rem a b).

(** [xs[i]]; [None] is [undefined], also for an index that is NaN. *)
Definition element {A : Type} (xs : list A) (i : option Z) : option A :=
  match i with
  | Some z => if (z <? 0)%Z then None else nth_error xs (Z.to_nat z)
  | None => None
  end.

(** The text of a run of decimal digits. *)
Fixpoint digitsOf (d : Decimal.uint) : str :=
  match d with
  | Decimal.Nil => []
  | Decimal.D0 d' => 48%N :: digitsOf d'
  | Decimal.D1 d' => 49%N :: digitsOf d'
  | Decimal.D2 d' => 50%N :: digitsOf d'
  | Decimal.D3 d' => 51%N :: digitsOf d'
  | Decimal.D4 d' => 52%N :: digitsOf d'
  | Decimal.D5 d' => 53%N :: digitsOf d'
  | Decimal.D6 d' => 54%N :: digitsOf d'
  | Decimal.D7 d' => 55%N :: digitsOf d'
  | Decimal.D8 d' => 56%N :: digitsOf d'
  | Decimal.D9 d' => 57%N :: digitsOf d'
  end.

(** A non-negative integer in a template literal. *)
Definition decimal (n : N) : str := digitsOf (N.to_uint n).

End Builtins.

(* ===================================================================== *)
(** ** Decimal numerals as they are written *)
(* ===================================================================== *)

Module Numerals.
Import JS Builtins App Documents Variants.

(** A numeral is written with or without a sign. *)
Inductive Sign : Type := NoSign | PlusSign | MinusSign.

(** An exponent part: [e] or [E], a sign or none, digits. *)
Record ExponentPart : Type :=
  { capital : bool; exponentSign : Sign; exponentDigits : Decimal.uint }.

(** A decimal numeral: a sign or none, the digits before the point, the
    digits after the point when there is a point, an exponent part or
    none. Digits are the decimal digits of the Standard Library. *)
Record Numeral : Type :=
  { sign : Sign;
    whole : Decimal.uint;
    fraction : option Decimal.uint;
    exponentPart : option ExponentPart }.

Definition signText (s : Sign) : str :=
  match s with
  | NoSign => []
  | PlusSign => [43%N]
  | MinusSign => [45%N]
  end.

Definition fractionText (f : option Decimal.uint) : str :=
  match f with
  | Some d => 46%N :: digitsOf d
  | None => []
  end.

Definition exponentText (e : option ExponentPart) : str :=
  match e with
  | Some p =>
      (if capital p then 69%N else 101%N) ::
      signText (exponentSign p) ++ digitsOf (exponentDigits p)
  | None => []
  end.

(** The numeral as text: [45.0], [-7.5], [.5], [5.], [1e3], [+2.5E-3]. *)
Definition numeralText (n : Numeral) : str :=
  signText (sign n) ++ digitsOf (whole n) ++
  fractionText (fraction n) ++ exponentText (exponentPart n).

Definition hasDigits (d : Decimal.uint) : bool :=
  match d with
  | Decimal.Nil => false
  | _ => true
  end.

(** There is a digit before or after the point, and an exponent part has
    a digit. *)
Definition isNumeral (n : Numeral) : bool :=
  (hasDigits (whole n) ||
   match fraction n with Some f => hasDigits f | None => false end) &&
  match exponentPart n with
  | Some p => hasDigits (exponentDigits p)
  | None => true
  end.

Definition isMinus (s : Sign) : bool :=
  match s with
  | MinusSign => true
  | _ => false
  end.

(** The number a run of digits stands for, by the Standard Library. *)
Definition digitsValue (d : Decimal.uint) : Z := Z.of_N (N.of_uint d).

Definition exponentValue (e : option ExponentPart) : Z :=
  match e with
  | Some p =>
      if isMinus (exponentSign p) then (- digitsValue (exponentDigits p))%Z
      else digitsValue (exponentDigits p)
  | None => 0%Z
  end.

(** The magnitude a numeral denotes: the digits before the point, plus
    the [k] digits after it over [10 ^ k], times ten to the exponent. *)
Definition magnitudeOf (n : Numeral) : Q :=
  ((inject_Z (digitsValue (whole n)) +
    match fraction n with
    | Some f => inject_Z (digitsValue f) / Qpower (10 # 1) (Z.of_nat (Decimal.nb_digits f))
    | None => 0
    end) *
   Qpower (10 # 1) (exponentValue (exponentPart n)))%Q.

(** The Number a numeral denotes: the binary64 number nearest to its
    magnitude, with its sign. *)
Definition numeralValue (n : Numeral) : Num :=
  binary64 (isMinus (sign n)) (magnitudeOf n).

(** A text that starts as a numeral does: with a digit or the point. *)
Definition startsNumeral (t : str) : bool :=
  match t with
  | c :: _ => isDigit c || (c =? 46)%N
  | [] => false
  end.

(** The text [a] is white space, the numeral [n], and a rest that cuts
    the numeral. *)
Definition startsWithNumeral (a : str) (n : Numeral) : Prop :=
  exists w rest,
    a = w ++ numeralText n ++ rest /\ allWhite w = true /\ isNumeral n = true /\
    cutsLiteral rest = true.

(** *** Track points and tokens written with numerals *)

(** A track-point marker [<trkpt lat="A" lon="B"] with numerals for [A]
    and [B]: the white space after the name, [A], the white space
    between the attributes, [B]. *)
Record NumericMarker : Type :=
  { nameGap : str; latNumeral : Numeral; attributeGap : str; lonNumeral : Numeral }.

Definition markerOf (p : NumericMarker) : Marker :=
  {| afterName := nameGap p; latText := numeralText (latNumeral p);
     betweenAttributes := attributeGap p; lonText := numeralText (lonNumeral p) |}.

Definition isNumericMarker (p : NumericMarker) : bool :=
  isSeparator (nameGap p) && isSeparator (attributeGap p) &&
  isNumeral (latNumeral p) && isNumeral (lonNumeral p).

(** The coordinate the marker denotes. *)
Definition markerPoint (p : NumericMarker) : Coordinate :=
  {| lat := numeralValue (latNumeral p); lon := numeralValue (lonNumeral p) |}.

(** A GPX text: [g], then each marker followed by its own stretch of
    other text. *)
Definition numericGpxText (g : str) (ps : list (NumericMarker * str)) : str :=
  gpxText g (map (fun pg => (markerOf (fst pg), snd pg)) ps).

(** A token [lon,lat] or [lon,lat,alt...] with numerals for [lon] and
    [lat]; the altitude part is any text. *)
Record NumericToken : Type :=
  { lonPart : Numeral; latPart : Numeral; altitudePart : option str }.

Definition tokenOf (k : NumericToken) : Token :=
  {| lonComponent := numeralText (lonPart k);
     latComponent := numeralText (latPart k);
     altitude := altitudePart k |}.

(** A valid token: numerals for longitude and latitude; an altitude
    part, if any, without white space and without [<]. *)
Definition isNumericToken (k : NumericToken) : bool :=
  isNumeral (lonPart k) && isNumeral (latPart k) &&
  match altitudePart k with
  | Some alt => noneWhite alt && lacks lessThan alt
  | None => true
  end.

(** The coordinate the token denotes: its second number as latitude, its
    first as longitude. *)
Definition tokenPoint (k : NumericToken) : Coordinate :=
  {| lat := numeralValue (latPart k); lon := numeralValue (lonPart k) |}.

(** What stands between the white space of a block: a valid token, or
    other text. *)
Inductive Item : Type :=
| ValidToken (k : NumericToken)
| OtherText (t : str).

Definition itemText (i : Item) : str :=
  match i with
  | ValidToken k => tokenText (tokenOf k)
  | OtherText t => t
  end.

(** Other text that [parseKml] takes for one token and that is no
    coordinate: it is not empty, has no white space and no [<], and its
    first or its second component is missing or is not read as a number
    by [Number]. *)
Definition isDroppedText (t : str) : bool :=
  negb (isEmpty t) && noneWhite t && lacks lessThan t &&
  negb (parses (component t 0) && parses (component t 1)).

Definition isItem (i : Item) : bool :=
  match i with
  | ValidToken k => isNumericToken k
  | OtherText t => isDroppedText t
  end.

(** The valid tokens among the items, in order. *)
Definition validTokensOf (items : list (Item * str)) : list NumericToken :=
  flat_map (fun iw => match fst iw with ValidToken k => [k] | OtherText _ => [] end) items.

(** The text of a block: white space [w], then each item followed by its
    own white space. *)
Definition itemsText (w : str) (items : list (Item * str)) : str :=
  wordsText w (map (fun iw => (itemText (fst iw), snd iw)) items).

End Numerals.

(* ===================================================================== *)
(** ** The examples of the specification *)
(* ===================================================================== *)

Module TrackSamples.
Import JS App Documents Numerals.
Import Decimal.

(** A numeral [a.b] without sign and exponent. *)
Definition plain (a b : uint) : Numeral :=
  {| sign := NoSign; whole := a; fraction := Some b; exponentPart := None |}.

(** A numeral without sign, point and exponent. *)
Definition integer (a : uint) : Numeral :=
  {| sign := NoSign; whole := a; fraction := None; exponentPart := None |}.

(** [<trkpt lat="la" lon="lo"] with single spaces. *)
Definition numericTrkpt (la lo : Numeral) : NumericMarker :=
  {| nameGap := lit " "; latNumeral := la; attributeGap := lit " "; lonNumeral := lo |}.

(** The GPX example of the specification:
    [<trkpt lat="45.0" lon="7.5"/><trkpt lat="45.1" lon="7.6"/>]. *)
Definition gpxExample : list (NumericMarker * str) :=
  [ (numericTrkpt (plain (D4 (D5 Nil)) (D0 Nil)) (plain (D7 Nil) (D5 Nil)), lit "/>");
    (numericTrkpt (plain (D4 (D5 Nil)) (D1 Nil)) (plain (D7 Nil) (D6 Nil)), lit "/>") ].

(** The tokens of the KML example of the specification:
    [7.5,45.0,0 7.6,45.1,0]. *)
Definition kmlExample : list (Item * str) :=
  [ (ValidToken {| lonPart := plain (D7 Nil) (D5 Nil);
                   latPart := plain (D4 (D5 Nil)) (D0 Nil);
                   altitudePart := Some (lit "0") |}, lit " ");
    (ValidToken {| lonPart := plain (D7 Nil) (D6 Nil);
                   latPart := plain (D4 (D5 Nil)) (D1 Nil);
                   altitudePart := Some (lit "0") |}, []) ].

(** The example with other text among its tokens:
    [7.5,45.0 x,1 8 7.6,45.1,30]. *)
Definition kmlMixedExample : list (Item * str) :=
  [ (ValidToken {| lonPart := plain (D7 Nil) (D5 Nil);
                   latPart := plain (D4 (D5 Nil)) (D0 Nil);
                   altitudePart := None |}, lit " ");
    (OtherText (lit "x,1"), lit " ");
    (OtherText (lit "8"), lit " ");
    (ValidToken {| lonPart := plain (D7 Nil) (D6 Nil);
                   latPart := plain (D4 (D5 Nil)) (D1 Nil);
                   altitudePart := Some (lit "30") |}, []) ].

(** Numerals at the edges of binary64: [1e400], [9007199254740993] and
    [-1e-400]. *)
Definition huge : Numeral :=
  {| sign := NoSign; whole := D1 Nil; fraction := None;
     exponentPart := Some {| capital := false; exponentSign := NoSign;
                             exponentDigits := D4 (D0 (D0 Nil)) |} |}.

Definition oddInteger : Numeral :=
  integer (D9 (D0 (D0 (D7 (D1 (D9 (D9 (D2 (D5 (D4 (D7 (D4 (D0 (D9 (D9 (D3 Nil)))))))))))))))).

Definition tinyNegative : Numeral :=
  {| sign := MinusSign; whole := D1 Nil; fraction := None;
     exponentPart := Some {| capital := false; exponentSign := MinusSign;
                             exponentDigits := D4 (D0 (D0 Nil)) |} |}.

End TrackSamples.

(* ===================================================================== *)
(** ** Running a program against its environment *)
(* ===================================================================== *)

Module Execution.

(** A handler answers an event and says what the world is afterwards. *)
Definition Handler (E : Type -> Type) (W : Type) : Type :=
  forall X : Type, E X -> W -> X * W.

(** [exec h n t w] takes at most [n] steps of [t]: the result, if [t] has
    finished within them, and the world reached. *)
Fixpoint exec {E : Type -> Type} {W R : Type} (h : Handler E W) (n : nat)
    (t : itree E R) (w : W) : option R * W :=
  match n with
  | 0 => (None, w)
  | S n' =>
      match observe t with
      | RetF r => (Some r, w)
      | TauF t' => exec h n' t' w
      | VisF e k => let (x, w') := h _ e w in exec h n' (k x) w'
      end
  end.

(** [t] run from [w] ends with [r] in [w']. *)
Definition finishes {E : Type -> Type} {W R : Type} (h : Handler E W)
    (t : itree E R) (w : W) (r : R) (w' : W) : Prop :=
  exists n, exec h n t w = (Some r, w').

End Execution.

(* ===================================================================== *)
(** ** services/geminiService.ts (in replit.md): the download *)
(* ===================================================================== *)

Module Download.
Import JS Builtins GeminiService.
Import ITreeNotations.
Local Open Scope itree_scope.

(** The body of a response, once read. *)
Inductive Blob : Type := BlobOf (bytes : list N).

(** Of a [Response], what the function looks at. *)
Record Response : Type := { ok : bool; status : N }.

Variant fetchE : Type -> Type :=
| Fetch (url : str) : fetchE (Thrown + Response)
| ReadBlob (response : Response) : fetchE (Thrown + Blob)
| LogError (label : str) (error : Thrown) : fetchE unit.

Definition statusMessage (response : Response) : str :=
  lit "Failed to download video file. Status: " ++ decimal (status response).

Definition downloadMessage : str :=
  lit "Could not download the generated video file.".

(** The [try] block: [inl] is what it throws. *)
Definition downloadTry (apiKey videoUri : str) : itree fetchE (Thrown + Blob) :=
  r <- ITree.trigger (Fetch (videoUri ++ lit "&key=" ++ apiKey)) ;;
  match r with
  | inl error => Ret (inl error)
  | inr response =>
      if negb (ok response)
      then Ret (inl (ErrorObject (statusMessage response)))
      else ITree.trigger (ReadBlob response)
  end.

(** The [catch] block: it always throws. *)
Definition downloadCatch (error : Thrown) : itree fetchE (Thrown + Blob) :=
  ITree.trigger (LogError (lit "Error fetching video blob:") error) ;;
  Ret (inl (ErrorObject downloadMessage)).

(** [apiKey] is [process.env.API_KEY]. *)
Definition fetchVideoBlob (apiKey videoUri : str) : itree fetchE (Thrown + Blob) :=
  r <- downloadTry apiKey videoUri ;;
  match r with
  | inl error => downloadCatch error
  | inr blob => Ret (inr blob)
  end.

(** The network, as the function sees it. *)
Record Network : Type :=
  { respond : str -> Thrown + Response;
    blobOf : Response -> Thrown + Blob }.

Inductive NetEvent : Type :=
| Requested (url : str)
| BodyRead (response : Response)
| ErrorLogged (label : str) (error : Thrown).

Definition answer (net : Network) : Execution.Handler fetchE (list NetEvent) :=
  fun X e log =>
    match e in fetchE X return X * list NetEvent with
    | Fetch url => (respond net url, log ++ [Requested url])
    | ReadBlob response => (blobOf net response, log ++ [BodyRead response])
    | LogError label error => (tt, log ++ [ErrorLogged label error])
    end.

End Download.

(* ===================================================================== *)
(** ** The video job: what a service answers and what a run leaves *)
(* ===================================================================== *)

Module Polling.
Import JS GeminiService.

(** The video service of [GeminiService.run], as a handler. *)
Definition serve (svc : Service) : Execution.Handler veoE RunState :=
  fun X e st => handle svc e st.

(** The answers of a service to a job that is pending [length operations]
    times: [operation] is what the client holds, the [q]-th status query
    is the next one, [operations] are the answers to come; all but the
    last are not done, the last is. *)
Fixpoint answersWith (svc : Service) (q : nat) (operation : Operation)
    (operations : list Operation) : Prop :=
  match operations with
  | [] => isDone operation = true
  | operation' :: rest =>
      isDone operation = false /\
      getVideosOperation svc q operation = inr operation' /\
      answersWith svc (S q) operation' rest
  end.

(** The client, which held [operation] before its [q]-th status query,
    has been answered with [operations], none of them to an operation
    that was done, and now holds [current]. *)
Fixpoint reaches (svc : Service) (q : nat) (operation : Operation)
    (operations : list Operation) (current : Operation) : Prop :=
  match operations with
  | [] => current = operation
  | operation' :: rest =>
      isDone operation = false /\
      getVideosOperation svc q operation = inr operation' /\
      reaches svc (S q) operation' rest current
  end.

(** The same, with a last status query that is rejected with [error]. *)
Fixpoint answersUntilRejected (svc : Service) (q : nat) (operation : Operation)
    (operations : list Operation) (error : Thrown) : Prop :=
  match operations with
  | [] =>
      isDone operation = false /\
      getVideosOperation svc q operation = inl error
  | operation' :: rest =>
      isDone operation = false /\
      getVideosOperation svc q operation = inr operation' /\
      answersUntilRejected svc (S q) operation' rest error
  end.

(** The operations the client queries about: all it has held but the
    last. *)
Definition queried (operation : Operation) (operations : list Operation)
  : list Operation :=
  removelast (operation :: operations).

Definition turn (operation : Operation) : list Event :=
  [Slept 10000; Queried operation].

(** What a trace of the video job looks like: the submission, then a wait
    and a status query for each operation of [operations], then at most
    one line in the log. *)
Definition jobTrace (img : str) (operations : list Operation) (log : list Event)
  : list Event :=
  Submitted (request img) :: flat_map turn operations ++ log.

(** The label of the line [catch] writes to the log. *)
Definition logLabel : str := lit "Error generating video with Gemini:".

(** What the function makes of what its [try] block throws. *)
Definition rejection (cause : Thrown) : Thrown :=
  ErrorObject (if isInvalidKeyError cause then invalidKeyMessage else genericMessage).

End Polling.

(* ===================================================================== *)
(** ** components/RouteMap.tsx: what is drawn *)
(* ===================================================================== *)

Module RouteMap.
Import JS App Documents Numerals.

(** [[c.lon, c.lat]] *)
Definition position (c : Coordinate) : list Num := [lon c; lat c].

(** [{ type: "LineString", coordinates: ... }] *)
Record LineString : Type := { coordinates : list (list Num) }.

Definition geoJsonRoute (routeData : list Coordinate) : LineString :=
  {| coordinates := map position routeData |}.

(** What the effect hands to the drawing library: the line the projection
    is fitted to and that is drawn, and the positions of the two
    circles. *)
Record Drawing : Type :=
  { fitted : LineString;
    mapFill : str;
    mapStroke : str;
    startCircle : list Num;
    endCircle : list Num }.

(** The effect; [None] when it returns at its first line. [routeData] is
    [None] for [null], [container] says whether [containerRef.current] is
    set. *)
Definition draw (routeData : option (list Coordinate)) (theme : str)
    (container : bool) : option Drawing :=
  match routeData with
  | None => None
  | Some route =>
      if (length route =? 0) || negb container then None
      else
        let isDark := str_eqb theme (lit "dark") in
        match nth_error route 0, nth_error route (length route - 1) with
        | Some startPoint, Some endPoint =>
            Some {| fitted := geoJsonRoute route;
                    mapFill := if isDark then lit "#2D3748" else lit "#E5E7EB";
                    mapStroke := if isDark then lit "#1A202C" else lit "#FFFFFF";
                    startCircle := position startPoint;
                    endCircle := position endPoint |}
        | _, _ => None
        end
  end.

(** The position a KML token writes: the numbers of its first two
    numerals, in the order in which they stand. *)
Definition tokenPosition (k : NumericToken) : list Num :=
  [numeralValue (lonPart k); numeralValue (latPart k)].

(** The position of a GPX marker: the number of its [lon] attribute, then
    that of its [lat] attribute, which stands first in the marker. *)
Definition markerPosition (p : NumericMarker) : list Num :=
  [numeralValue (lonNumeral p); numeralValue (latNumeral p)].

(** [pngUrl.split(',')[1]] *)
Definition base64Data (pngUrl : str) : option str :=
  nth_error (splitChar comma pngUrl) 1.

End RouteMap.

(* ===================================================================== *)
(** ** src/App.tsx: the state of the page and its handlers *)
(* ===================================================================== *)

Module Page.
Import JS Builtins App GeminiService Download Polling.
Import ITreeNotations.
Local Open Scope itree_scope.

(** The state variables of the component. [progressMessage] may come to
    hold [undefined], for which [None] stands. *)
Record AppState : Type :=
  { routeData : option (list Coordinate);
    fileName : str;
    isLoading : bool;
    progressMessage : option str;
    videoUrl : option str;
    error : option str;
    theme : str }.

Definition setRouteData (v : option (list Coordinate)) (st : AppState) : AppState :=
  {| routeData := v; fileName := fileName st; isLoading := isLoading st;
     progressMessage := progressMessage st; videoUrl := videoUrl st;
     error := error st; theme := theme st |}.

Definition setFileName (v : str) (st : AppState) : AppState :=
  {| routeData := routeData st; fileName := v; isLoading := isLoading st;
     progressMessage := progressMessage st; videoUrl := videoUrl st;
     error := error st; theme := theme st |}.

Definition setIsLoading (v : bool) (st : AppState) : AppState :=
  {| routeData := routeData st; fileName := fileName st; isLoading := v;
     progressMessage := progressMessage st; videoUrl := videoUrl st;
     error := error st; theme := theme st |}.

Definition setProgressMessage (v : option str) (st : AppState) : AppState :=
  {| routeData := routeData st; fileName := fileName st; isLoading := isLoading st;
     progressMessage := v; videoUrl := videoUrl st;
     error := error st; theme := theme st |}.

Definition setVideoUrl (v : option str) (st : AppState) : AppState :=
  {| routeData := routeData st; fileName := fileName st; isLoading := isLoading st;
     progressMessage := progressMessage st; videoUrl := v;
     error := error st; theme := theme st |}.

Definition setError (v : option str) (st : AppState) : AppState :=
  {| routeData := routeData st; fileName := fileName st; isLoading := isLoading st;
     progressMessage := progressMessage st; videoUrl := videoUrl st;
     error := v; theme := theme st |}.

Definition setTheme (v : str) (st : AppState) : AppState :=
  {| routeData := routeData st; fileName := fileName st; isLoading := isLoading st;
     progressMessage := progressMessage st; videoUrl := videoUrl st;
     error := error st; theme := v |}.

(* --------------------------------------------------------------------- *)
(** *** The theme *)

(** [getItem] of a storage area; [None] is [null]. *)
Definition Storage : Type := str -> option str.

Definition setItem (key value : str) (storage : Storage) : Storage :=
  fun k => if str_eqb k key then Some value else storage k.

(** [window]: [window.localStorage], which may be missing, and whether the
    media query [(prefers-color-scheme: dark)] matches. *)
Record Window : Type :=
  { localStorage : option Storage;
    prefersDark : bool }.

(** The initial value of [theme]; [window] is [None] where there is no
    such global. The stored value is taken as it is. *)
Definition initialTheme (window : option Window) : str :=
  match window with
  | Some w =>
      match localStorage w with
      | Some getItem =>
          let storedTheme := getItem (lit "theme") in
          if truthyStr storedTheme then toStringArg storedTheme
          else if prefersDark w then lit "dark"
          else lit "light"
      | None => lit "light"
      end
  | None => lit "light"
  end.

(** The updater of [toggleTheme]. *)
Definition toggleTheme (prevTheme : str) : str :=
  if str_eqb prevTheme (lit "light") then lit "dark" else lit "light".

(** What the effect on [theme] touches: the [dark] class of the root
    element and the storage area. *)
Record Document : Type :=
  { darkClass : bool;
    stored : Storage }.

Definition themeEffect (theme : str) (doc : Document) : Document :=
  {| darkClass := if str_eqb theme (lit "dark") then true else false;
     stored := setItem (lit "theme") theme (stored doc) |}.

(* --------------------------------------------------------------------- *)
(** *** What is on the page *)

(** An array is truthy, also an empty one. *)
Definition truthyRoute (v : option (list Coordinate)) : bool :=
  match v with Some _ => true | None => false end.

(** The conditions of the blocks of the returned element. *)
Definition showsUpload (st : AppState) : bool :=
  negb (truthyRoute (routeData st)) && negb (isLoading st).
Definition showsError (st : AppState) : bool := truthyStr (error st).
Definition showsRoute (st : AppState) : bool := truthyRoute (routeData st).
Definition showsActions (st : AppState) : bool :=
  showsRoute st && (negb (isLoading st) && negb (truthyStr (videoUrl st))).
Definition showsSpinner (st : AppState) : bool := isLoading st.
Definition showsVideo (st : AppState) : bool := truthyStr (videoUrl st).

Record File : Type := { name : str }.

(** The file input: its value and its list of selected files. The value
    of a file input can only be set to the empty string, and setting it
    empties the list of selected files. *)
Record FileInput : Type :=
  { value : str;
    files : list File }.

Definition emptyInput : FileInput := {| value := []; files := [] |}.

(** The state together with the file input: [fileInput] is the element
    [fileInputRef.current], [None] when the reference is [null]. The
    input is the only element with [handleFileChange] as its [onChange],
    so it is also the [event.target] of that handler. *)
Record View : Type :=
  { state : AppState;
    fileInput : option FileInput }.

(** Rendering: the file input is an element of the upload block, so the
    reference is set while that block is on the page and [null] while it
    is not; an input that comes onto the page is empty. *)
Definition render (v : View) : View :=
  {| state := state v;
     fileInput :=
       if showsUpload (state v) then
         match fileInput v with
         | Some input => Some input
         | None => Some emptyInput
         end
       else None |}.

(** [fileInputRef.current?.click()], the handler of "Select File" and of
    "Upload another file": whether the file dialog opens. *)
Definition clickFileInput (v : View) : bool :=
  match fileInput v with
  | Some _ => true
  | None => false
  end.

(** The value a file input shows for its selected files. *)
Definition fakePath : str := lit "C:" ++ 92%N :: lit "fakepath" ++ [92%N].

(** The user picks files in the dialog: the input on the page holds
    them, and then fires its change event. *)
Definition selectFiles (chosen : list File) (v : View) : View :=
  {| state := state v;
     fileInput :=
       match fileInput v with
       | Some _ =>
           Some {| value := match chosen with
                            | f :: _ => fakePath ++ name f
                            | [] => []
                            end;
                   files := chosen |}
       | None => None
       end |}.

(** [`route_video_${fileName.split('.')[0]}.mp4`] *)
Definition fullStop : char := 46%N.

Definition downloadName (fileName : str) : str :=
  lit "route_video_" ++ toStringArg (nth_error (splitChar fullStop fileName) 0)
    ++ lit ".mp4".

(* --------------------------------------------------------------------- *)
(** *** Choosing a file *)

(** [resetState]; its last statement, [fileInputRef.current.value = ''],
    leaves the input without selected files. *)
Definition resetState (v : View) : View :=
  {| state :=
       setError None
         (setVideoUrl None
            (setProgressMessage (Some [])
               (setIsLoading false
                  (setFileName [] (setRouteData None (state v))))));
     fileInput :=
       match fileInput v with
       | Some _ => Some emptyInput
       | None => None
       end |}.

Definition unsupportedMessage : str :=
  lit "Unsupported file type. Please upload a .gpx or .kml file.".
Definition readErrorMessage : str := lit "Error reading file.".

(** [event.target.files?.[0]], read on the page as it is by then. *)
Definition firstFile (v : View) : option File :=
  match fileInput v with
  | Some input => nth_error (files input) 0
  | None => None
  end.

(** [handleFileChange] up to [reader.readAsText(file)]: the page it
    leaves, and the file the reader is started on, if any. [resetState]
    runs before the file list of the input is read. *)
Definition handleFileChange (v : View) : View * option File :=
  let v' := resetState v in
  match firstFile v' with
  | None => (v', None)
  | Some f =>
      ({| state := setError None (setFileName (name f) (state v'));
          fileInput := fileInput v' |},
       Some f)
  end.

Section Reader.

Variable toLowerCase : str -> str.

(** The [try] block of [reader.onload], up to the call of
    [setRouteData]. *)
Definition readTrack (file : File) (content : str) : Completion (list Coordinate) :=
  if endsWith (toLowerCase (name file)) (lit ".gpx") then parseGpx content
  else if endsWith (toLowerCase (name file)) (lit ".kml") then parseKml content
  else Throw unsupportedMessage.

(** [reader.onload]; what the [try] block throws is an [Error], whose
    message [catch] shows. *)
Definition onload (file : File) (content : str) (st : AppState) : AppState :=
  match readTrack file content with
  | Return coords => setRouteData (Some coords) st
  | Throw message => setRouteData None (setError (Some message) st)
  end.

(** [reader.onerror] *)
Definition onerror (st : AppState) : AppState :=
  setRouteData None (setError (Some readErrorMessage) st).

End Reader.

(* --------------------------------------------------------------------- *)
(** *** Generating the video *)

Definition notReadyMessage : str := lit "Map component is not ready.".
Definition snapshotMessage : str := lit "Generating map snapshot for AI...".
Definition noImageMessage : str := lit "Could not generate map image.".
Definition finalizingMessage : str := lit "Finalizing video file...".
Definition unknownMessage : str :=
  lit "An unknown error occurred during video generation.".

(** [err instanceof Error ? err.message : "An unknown error ..."] *)
Definition shownMessage (err : Thrown) : str :=
  match err with
  | ErrorObject message => message
  | OtherValue _ => unknownMessage
  end.

(** What [handleGenerateVideo] asks of its environment: the reference to
    the map, the state setters, the snapshot of the map, the timers, the
    two calls into the service module, and the object URL. *)
Variant appE : Type -> Type :=
| MapRefCurrent : appE bool
| SetIsLoading (v : bool) : appE unit
| SetProgressMessage (v : option str) : appE unit
| SetVideoUrl (v : option str) : appE unit
| SetError (v : option str) : appE unit
| GetMapAsBase64Image : appE (Thrown + option str)
| SetInterval (ms : N) : appE N
| ClearInterval (id : N) : appE unit
| Veo {X : Type} (e : veoE X) : appE X
| Net {X : Type} (e : fetchE X) : appE X
| CreateObjectURL (blob : Blob) : appE str.

Section Constants.

(** [VEO_LOADING_MESSAGES] of the constants module and
    [process.env.API_KEY]. *)
Variable VEO_LOADING_MESSAGES : list str.
Variable API_KEY : str.

(** The updater that [onProgress] hands to [setProgressMessage]. *)
Definition onProgress (prev : option str) : option str :=
  let currentIndex := indexOf VEO_LOADING_MESSAGES prev in
  let nextIndex :=
    remainder (currentIndex + 1)%Z (Z.of_nat (length VEO_LOADING_MESSAGES)) in
  element VEO_LOADING_MESSAGES nextIndex.

(** The [try] block from the end of [await generateRouteVideo(...)] on;
    [r] is how that call has ended. With the value of [messageInterval]
    goes what the block throws, if it throws. *)
Definition finishTry (messageInterval : N) (r : Thrown + str)
  : itree appE (option N * (Thrown + unit)) :=
  match r with
  | inl err => Ret (Some messageInterval, inl err)
  | inr videoUri =>
      ITree.trigger (SetProgressMessage (Some finalizingMessage)) ;;
      r <- translate (@Net) (fetchVideoBlob API_KEY videoUri) ;;
      match r with
      | inl err => Ret (Some messageInterval, inl err)
      | inr videoBlob =>
          url <- ITree.trigger (CreateObjectURL videoBlob) ;;
          ITree.trigger (SetVideoUrl (Some url)) ;;
          Ret (Some messageInterval, inr tt)
      end
  end.

(** The [try] block: the value of [messageInterval] when it is left, and
    what it throws, if it throws. *)
Definition generateTry : itree appE (option N * (Thrown + unit)) :=
  ITree.trigger (SetProgressMessage (Some snapshotMessage)) ;;
  r <- ITree.trigger GetMapAsBase64Image ;;
  match r with
  | inl err => Ret (None, inl err)
  | inr mapImageBase64 =>
      if negb (truthyStr mapImageBase64)
      then Ret (None, inl (ErrorObject noImageMessage))
      else
        ITree.trigger
          (SetProgressMessage (element VEO_LOADING_MESSAGES (Some 0%Z))) ;;
        messageInterval <- ITree.trigger (SetInterval 4000) ;;
        r <- translate (@Veo) (generateRouteVideo (toStringArg mapImageBase64)) ;;
        finishTry messageInterval r
  end.

(** [catch] and [finally]. A timer identifier is truthy when it is not
    zero. *)
Definition generateEnd (left : option N * (Thrown + unit)) : itree appE unit :=
  match snd left with
  | inl err => ITree.trigger (SetError (Some (shownMessage err)))
  | inr _ => Ret tt
  end ;;
  ITree.trigger (SetIsLoading false) ;;
  match fst left with
  | Some messageInterval =>
      if (messageInterval =? 0)%N then Ret tt
      else ITree.trigger (ClearInterval messageInterval)
  | None => Ret tt
  end ;;
  ITree.trigger (SetProgressMessage (Some [])).

Definition handleGenerateVideo : itree appE unit :=
  ready <- ITree.trigger MapRefCurrent ;;
  if negb ready then ITree.trigger (SetError (Some notReadyMessage))
  else
    ITree.trigger (SetIsLoading true) ;;
    ITree.trigger (SetVideoUrl None) ;;
    ITree.trigger (SetError None) ;;
    left <- generateTry ;;
    generateEnd left.

(** The browser, as the handler sees it: whether the map is mounted, how
    the snapshot ends, the video service, the network, the identifier
    [setInterval] returns, the URL made for a blob, and how many times
    the interval fires while the handler is suspended at its [n]-th
    [await]. *)
Record Browser : Type :=
  { mapMounted : bool;
    snapshot : Thrown + option str;
    service : Service;
    network : Network;
    timerId : N;
    objectUrl : Blob -> str;
    firings : nat -> nat }.

(** The state of the page, the intervals that are set, the number of
    [await]s passed, and what the service and the network have seen. *)
Record World : Type :=
  { ui : AppState;
    intervals : list N;
    awaits : nat;
    job : RunState;
    transfers : list NetEvent }.

Definition withUi (f : AppState -> AppState) (w : World) : World :=
  {| ui := f (ui w); intervals := intervals w; awaits := awaits w;
     job := job w; transfers := transfers w |}.

(** The handler is suspended at an [await]: while an interval is set,
    [onProgress] runs as many times as the interval fires. *)
Definition suspend (b : Browser) (w : World) : World :=
  {| ui :=
       match intervals w with
       | [] => ui w
       | _ :: _ =>
           setProgressMessage
             (Nat.iter (firings b (awaits w)) onProgress (progressMessage (ui w)))
             (ui w)
       end;
     intervals := intervals w;
     awaits := S (awaits w);
     job := job w;
     transfers := transfers w |}.

(** The events at which the service module awaits. *)
Definition awaited {X : Type} (e : veoE X) : bool :=
  match e with
  | ConsoleError _ _ => false
  | _ => true
  end.

Definition awaitedNet {X : Type} (e : fetchE X) : bool :=
  match e with
  | LogError _ _ => false
  | _ => true
  end.

Definition browse (b : Browser) : Execution.Handler appE World :=
  fun X e w =>
    match e in appE X return X * World with
    | MapRefCurrent => (mapMounted b, w)
    | SetIsLoading v => (tt, withUi (setIsLoading v) w)
    | SetProgressMessage v => (tt, withUi (setProgressMessage v) w)
    | SetVideoUrl v => (tt, withUi (setVideoUrl v) w)
    | SetError v => (tt, withUi (setError v) w)
    | GetMapAsBase64Image => (snapshot b, suspend b w)
    | SetInterval _ =>
        (timerId b,
         {| ui := ui w; intervals := timerId b :: intervals w; awaits := awaits w;
            job := job w; transfers := transfers w |})
    | ClearInterval id =>
        (tt,
         {| ui := ui w;
            intervals := filter (fun i => negb (i =? id)%N) (intervals w);
            awaits := awaits w; job := job w; transfers := transfers w |})
    | Veo e' =>
        let (x, job') := handle (service b) e' (job w) in
        let w' := {| ui := ui w; intervals := intervals w; awaits := awaits w;
                     job := job'; transfers := transfers w |} in
        (x, if awaited e' then suspend b w' else w')
    | Net e' =>
        let (x, transfers') := answer (network b) _ e' (transfers w) in
        let w' := {| ui := ui w; intervals := intervals w; awaits := awaits w;
                     job := job w; transfers := transfers' |} in
        (x, if awaitedNet e' then suspend b w' else w')
    | CreateObjectURL blob => (objectUrl b blob, w)
    end.

(** Everything of the state but the progress message. *)
Definition frame (st : AppState)
  : option (list Coordinate) * str * bool * option str * option str * str :=
  (routeData st, fileName st, isLoading st, videoUrl st, error st, theme st).

(** The page when "Generate Video" is pressed: no interval is set,
    nothing has been asked of the service or the network. *)
Definition pressed (st : AppState) : World :=
  {| ui := st; intervals := []; awaits := 0; job := initial; transfers := [] |}.

End Constants.

End Page.

(* ===================================================================== *)
(** ** More sample inputs *)
(* ===================================================================== *)

Module MoreSamples.
Import JS Builtins App GeminiService Download Polling Page Samples.

Definition loadingMessages : list str :=
  [ lit "Warming up the AI director...";
    lit "Scouting the route...";
    lit "Rendering the journey..." ].

Definition apiKey : str := lit "AIzaSyExample".

Definition videoBytes : Blob := BlobOf [0; 0; 0; 24; 102; 116; 121; 112]%N.

(** Every request is answered with 200 and the video. *)
Definition online : Network :=
  {| respond := fun _ => inr {| ok := true; status := 200 |};
     blobOf := fun _ => inr videoBytes |}.

(** Every request is answered with 403. *)
Definition forbidden : Network :=
  {| respond := fun _ => inr {| ok := false; status := 403 |};
     blobOf := fun _ => inr videoBytes |}.

(** Done when submitted. *)
Definition doneAtOnce : Service :=
  {| generateVideos := fun _ => inr finished;
     getVideosOperation := fun _ operation => inr operation |}.

(** Pending when submitted; the first status query is rejected. *)
Definition failsAtFirstQuery : Service :=
  {| generateVideos := fun _ => inr pending;
     getVideosOperation := fun _ _ => inl (ErrorObject (lit "fetch failed")) |}.

Definition start : AppState :=
  {| routeData := Some [ {| lat := Finite false 45; lon := Finite false (15 # 2) |} ];
     fileName := lit "route.gpx";
     isLoading := false;
     progressMessage := Some [];
     videoUrl := None;
     error := None;
     theme := lit "light" |}.

(** A browser in which everything works; the interval fires twice during
    every [await]. *)
Definition working : Browser :=
  {| mapMounted := true;
     snapshot := inr (Some mapImage);
     service := doneAtSecondQuery;
     network := online;
     timerId := 7;
     objectUrl := fun _ => lit "blob:https://app.example/5f2c";
     firings := fun _ => 2 |}.

(** The same with a job that is never done. *)
Definition waiting : Browser :=
  {| mapMounted := true;
     snapshot := inr (Some mapImage);
     service := stuck;
     network := online;
     timerId := 7;
     objectUrl := fun _ => lit "blob:https://app.example/5f2c";
     firings := fun _ => 2 |}.

(** The same with a canvas without area: its data URL is [data:,]. *)
Definition blank : Browser :=
  {| mapMounted := true;
     snapshot := inr (RouteMap.base64Data (lit "data:,"));
     service := doneAtSecondQuery;
     network := online;
     timerId := 7;
     objectUrl := fun _ => lit "blob:https://app.example/5f2c";
     firings := fun _ => 2 |}.

(** [<gpx><trkpt lon="7.5" lat="45.0"/>], a marker with [lon] first, and
    then [<trkpt lat="45.1" lon="7.6"/></gpx>]. *)
Definition lonFirstStart : Variants.Stretch :=
  (lit "<gpx>", [ (trkpt "45.0" "7.5", lit "/>") ]).

Definition latFirstRest : list (Documents.Marker * Variants.Stretch) :=
  [ (trkpt "45.1" "7.6", (lit "/></gpx>", [])) ].

(** [<trkpt lat="45.0N" lon=" 7.5 W"] *)
Definition northWest : Documents.Marker :=
  {| Documents.afterName := lit " "; Documents.latText := lit "45.0N";
     Documents.betweenAttributes := lit " "; Documents.lonText := lit " 7.5 W" |}.

End MoreSamples.


(* ===================================================================== *)
(** ** Strings and lists *)
(* ===================================================================== *)

Section StringFacts.
Import JS.

Lemma char_eqb_eq a b : char_eqb a b = true <-> a = b.
Proof. unfold char_eqb. apply N.eqb_eq. Qed.

Lemma char_eqb_refl a : char_eqb a a = true.
Proof. apply char_eqb_eq. reflexivity. Qed.

Lemma char_eqb_neq a b : char_eqb a b = false <-> a <> b.
Proof. unfold char_eqb. apply N.eqb_neq. Qed.

Lemma stripPrefix_app p s : stripPrefix p (p ++ s) = Some s.
Proof.
  induction p as [|x p IH]; simpl; [reflexivity|].
  rewrite char_eqb_refl. exact IH.
Qed.

Lemma stripPrefix_Some p : forall s r, stripPrefix p s = Some r -> s = p ++ r.
Proof.
  induction p as [|x p IH]; simpl; intros s r H.
  - congruence.
  - destruct s as [|y s]; [discriminate|].
    destruct (char_eqb x y) eqn:E; [|discriminate].
    apply char_eqb_eq in E. subst y. f_equal. apply IH. exact H.
Qed.

(** A pattern that starts with [<] and has no other [<] cannot start in a
    stretch of text where it does not occur and end in what follows, when
    what follows starts with [<] or is empty. *)
Lemma stripPrefix_no_straddle p : forall g t,
  ~ In 60%N p ->
  stripPrefix p g = None ->
  t = [] \/ (exists t', t = 60%N :: t') ->
  stripPrefix p (g ++ t) = None.
Proof.
  induction p as [|x p IH]; intros g t Hp Hg Ht; simpl in *.
  - discriminate.
  - destruct g as [|y g]; simpl.
    + destruct Ht as [->|[t' ->]]; [reflexivity|].
      destruct (char_eqb x 60%N) eqn:E; [|reflexivity].
      apply char_eqb_eq in E. tauto.
    + destruct (char_eqb x y); [|reflexivity].
      apply IH; tauto.
Qed.

Lemma includes_false_head s sub :
  includes s sub = false -> startsWith sub s = false.
Proof. destruct s; simpl; intros H; apply orb_false_iff in H; tauto. Qed.

Lemma includes_false_tail a s sub :
  includes (a :: s) sub = false -> includes s sub = false.
Proof. simpl. intros H. apply orb_false_iff in H. tauto. Qed.

Lemma startsWith_false p s : startsWith p s = false <-> stripPrefix p s = None.
Proof. unfold startsWith. destruct (stripPrefix p s); split; congruence. Qed.

Lemma firstn_consumed {A} (a t : list A) :
  firstn (length (a ++ t) - length t) (a ++ t) = a.
Proof.
  rewrite length_app. replace (length a + length t - length t) with (length a) by lia.
  rewrite firstn_app, Nat.sub_diag, firstn_all. simpl. apply app_nil_r.
Qed.

Lemma skipn_exact {A} (a t : list A) n : n = length a -> skipn n (a ++ t) = t.
Proof.
  intros ->. rewrite skipn_app, Nat.sub_diag, skipn_all. reflexivity.
Qed.

Lemma dropWhile_app_all p w s :
  forallb p w = true -> dropWhile p (w ++ s) = dropWhile p s.
Proof.
  induction w as [|c w IH]; simpl; intros H; [reflexivity|].
  apply andb_true_iff in H. destruct H as [Hc Hw]. rewrite Hc. auto.
Qed.

Lemma dropWhile_stop p c s : p c = false -> dropWhile p (c :: s) = c :: s.
Proof. simpl. intros ->. reflexivity. Qed.

Lemma fold_left_push {A B} (f : A -> B) l : forall acc,
  fold_left (fun acc x => acc ++ [f x]) l acc = acc ++ map f l.
Proof.
  induction l as [|x l IH]; intros acc; simpl.
  - symmetry. apply app_nil_r.
  - rewrite IH, <- app_assoc. reflexivity.
Qed.

End StringFacts.

(* ===================================================================== *)
(** ** Rounding to binary64 *)
(* ===================================================================== *)

Section RoundingFacts.
Import JS.

Lemma roundHalfEven_spec n d :
  (0 < d)%Z ->
  let m := roundHalfEven n d in
  (2 * Z.abs (n - m * d) <= d)%Z /\
  ((2 * Z.abs (n - m * d) = d)%Z -> Z.even m = true) /\
  ((0 <= n)%Z -> (0 <= m)%Z).
Proof.
  intros Hd m. subst m. unfold roundHalfEven.
  pose proof (Z.div_mod n d ltac:(lia)) as E.
  pose proof (Z.mod_pos_bound n d Hd) as B.
  pose proof (Z.div_pos n d) as P.
  destruct (Z.compare_spec (2 * (n mod d)) d) as [C|C|C].
  - destruct (Z.even (n / d)) eqn:Ev.
    + repeat split; [lia | intros _; exact Ev | intros H; apply P; lia].
    + repeat split; [lia | | intros H; specialize (P H Hd); lia].
      intros _. rewrite Z.even_add, Ev. reflexivity.
  - repeat split; [lia | lia | intros H; apply P; lia].
  - repeat split; [lia | lia | intros H; specialize (P H Hd); lia].
Qed.

Lemma pow2_pos z : (0 < pow2 z)%Q.
Proof. apply Qpower_0_lt. reflexivity. Qed.

Lemma pow2_add a b : (pow2 (a + b) == pow2 a * pow2 b)%Q.
Proof. apply Qpower_plus. discriminate. Qed.

Lemma pow2_nat z : (0 <= z)%Z -> (inject_Z (2 ^ z) == pow2 z)%Q.
Proof. intros H. unfold pow2. rewrite Zpower_Qpower by exact H. reflexivity. Qed.

Lemma pow2_split z :
  (inject_Z (2 ^ Z.max 0 z) == pow2 z * inject_Z (2 ^ Z.max 0 (- z)))%Q.
Proof.
  destruct (Z.le_gt_cases 0 z) as [H|H].
  - rewrite Z.max_r by exact H. rewrite (Z.max_l 0 (- z)) by lia.
    rewrite pow2_nat by exact H. change (inject_Z (2 ^ 0)) with 1%Q. ring.
  - rewrite Z.max_l by lia. rewrite (Z.max_r 0 (- z)) by lia.
    rewrite (pow2_nat (- z)) by lia. rewrite <- pow2_add.
    replace (z + - z)%Z with 0%Z by lia. reflexivity.
Qed.

Lemma scale_pos z : (0 < inject_Z (2 ^ Z.max 0 z))%Q.
Proof.
  rewrite pow2_nat by lia. apply pow2_pos.
Qed.

(** The comparison of [floorLog2], read in the rationals. *)
Lemma scaled_le n d k :
  (d * 2 ^ Z.max 0 k <= n * 2 ^ Z.max 0 (- k))%Z <->
  (inject_Z d * pow2 k <= inject_Z n)%Q.
Proof.
  rewrite Zle_Qle, !inject_Z_mult, pow2_split.
  pose proof (scale_pos (- k)) as P.
  split; intros H; nra.
Qed.

Lemma log2_bounds n :
  (0 < n)%Z -> (pow2 (Z.log2 n) <= inject_Z n /\ inject_Z n < pow2 (Z.log2 n + 1))%Q.
Proof.
  intros H. destruct (Z.log2_spec n H) as [L U].
  pose proof (Z.log2_nonneg n) as N.
  rewrite <- !pow2_nat by lia. rewrite <- Zle_Qle, <- Zlt_Qlt.
  split; [exact L|]. rewrite <- Z.add_1_r in U. exact U.
Qed.

Lemma floorLog2_spec n d :
  (0 < n)%Z -> (0 < d)%Z ->
  (inject_Z d * pow2 (floorLog2 n d) <= inject_Z n /\
   inject_Z n < inject_Z d * pow2 (floorLog2 n d + 1))%Q.
Proof.
  intros Hn Hd. unfold floorLog2.
  destruct (log2_bounds n Hn) as [Ln Un]. destruct (log2_bounds d Hd) as [Ld Ud].
  set (a := Z.log2 n) in *. set (b := Z.log2 d) in *.
  pose proof (pow2_add (a - b) b) as E1. replace (a - b + b)%Z with a in E1 by lia.
  pose proof (pow2_add (a - b) 1) as E2.
  pose proof (pow2_add (a - b - 1) 1) as E3. replace (a - b - 1 + 1)%Z with (a - b)%Z in E3 by lia.
  pose proof (pow2_add a 1) as E4. pose proof (pow2_add b 1) as E5.
  change (pow2 1) with 2%Q in *.
  pose proof (pow2_pos (a - b)) as P1. pose proof (pow2_pos (a - b - 1)) as P2.
  pose proof (pow2_pos b) as P3.
  destruct (d * 2 ^ Z.max 0 (a - b) <=? n * 2 ^ Z.max 0 (- (a - b)))%Z eqn:T.
  - apply Z.leb_le in T. apply scaled_le in T. split; [exact T|].
    rewrite E2. nra.
  - apply Z.leb_gt in T.
    assert (T' : (inject_Z n < inject_Z d * pow2 (a - b))%Q).
    { apply Qnot_le_lt. intros C. apply scaled_le in C. lia. }
    replace (a - b - 1 + 1)%Z with (a - b)%Z by lia. split; [|exact T'].
    nra.
Qed.


Lemma abs_scaled n d m u :
  (0 < d)%Z ->
  (inject_Z (Z.abs (n * 2 ^ Z.max 0 (- u) - m * (d * 2 ^ Z.max 0 u))) ==
   inject_Z (2 ^ Z.max 0 (- u)) * inject_Z d *
   Qabs (inject_Z n / inject_Z d - inject_Z m * pow2 u))%Q.
Proof.
  intros Hd.
  assert (Hd' : (0 < inject_Z d)%Q) by (rewrite Zlt_Qlt in Hd; exact Hd).
  pose proof (scale_pos (- u)) as P.
  rewrite <- (Qabs_pos (inject_Z (2 ^ Z.max 0 (- u)))) by (apply Qlt_le_weak; exact P).
  rewrite <- (Qabs_pos (inject_Z d)) at 1 by (apply Qlt_le_weak; exact Hd').
  rewrite <- !Qabs_Qmult. unfold inject_Z at 1. rewrite Zabs_Qabs.
  apply Qabs_wd.
  match goal with |- (Qmake ?z 1 == _)%Q => change (Qmake z 1) with (inject_Z z) end.
  unfold Z.sub. rewrite inject_Z_plus, inject_Z_opp, !inject_Z_mult, (pow2_split u).
  generalize (inject_Z (2 ^ Z.max 0 (- u))) (pow2 u) (inject_Z n) (inject_Z m).
  intros B pu qn qm. field.
  intros C. rewrite C in Hd'. apply (Qlt_irrefl 0). exact Hd'.
Qed.

(** What [binary64] computes: for [x > 0] in the binade of [2 ^ e], the
    multiple [m * 2 ^ u] of the unit in the last place that is nearest to
    [x], the one with even [m] of the two when [x] lies half way; an
    infinity when that is [2 ^ 1024] or more. *)
Lemma binary64_spec negative x :
  (0 < x)%Q ->
  exists e m : Z,
    let u := Z.max (e - 52) (-1074) in
    (pow2 e <= x /\ x < pow2 (e + 1))%Q /\
    (0 <= m)%Z /\
    (Qabs (x - inject_Z m * pow2 u) <= pow2 (u - 1))%Q /\
    ((Qabs (x - inject_Z m * pow2 u) == pow2 (u - 1))%Q -> Z.even m = true) /\
    binary64 negative x =
      if Qle_bool (pow2 1024) (inject_Z m * pow2 u) then Infinity negative
      else Finite negative (Qred (inject_Z m * pow2 u)).
Proof.
  intros Hx. unfold binary64.
  pose proof (Qred_correct x) as Ex.
  destruct (Qred x) as [qn qd] eqn:Eq. cbn [Qnum Qden].
  assert (Hq : (0 < qn # qd)%Q) by (rewrite Ex; exact Hx).
  destruct qn as [|n|n]; try (exfalso; revert Hq; unfold Qlt; cbn; lia).
  set (d := Zpos qd). set (e := floorLog2 (Zpos n) d).
  set (u := Z.max (e - 52) (-1074)).
  set (m := roundHalfEven (Zpos n * 2 ^ Z.max 0 (- u)) (d * 2 ^ Z.max 0 u)).
  exists e, m. cbn zeta. fold u.
  assert (Hd : (0 < d)%Z) by (unfold d; lia).
  assert (Hd' : (0 < inject_Z d)%Q) by (rewrite Zlt_Qlt in Hd; exact Hd).
  assert (Exq : (x == inject_Z (Zpos n) / inject_Z d)%Q).
  { rewrite <- Ex. unfold d. apply Qmake_Qdiv. }
  assert (ExM : (x * inject_Z d == inject_Z (Zpos n))%Q).
  { rewrite Exq. field. intros C. rewrite C in Hd'. apply (Qlt_irrefl 0). exact Hd'. }
  destruct (floorLog2_spec (Zpos n) d ltac:(lia) Hd) as [Le Ue]. fold e in Le, Ue.
  pose proof (pow2_pos e) as Pe. pose proof (pow2_pos (e + 1)) as Pe1.
  assert (HD : (0 < d * 2 ^ Z.max 0 u)%Z).
  { apply Z.mul_pos_pos; [exact Hd|]. apply Z.pow_pos_nonneg; lia. }
  destruct (roundHalfEven_spec (Zpos n * 2 ^ Z.max 0 (- u)) (d * 2 ^ Z.max 0 u) HD)
    as (Hnear & Heven & Hnn). fold m in Hnear, Heven, Hnn.
  pose proof (abs_scaled (Zpos n) d m u Hd) as Habs.
  pose proof (scale_pos (- u)) as PB.
  pose proof (pow2_pos u) as Pu.
  pose proof (pow2_add (u - 1) 1) as Eu. replace (u - 1 + 1)%Z with u in Eu by lia.
  change (pow2 1) with 2%Q in Eu.
  assert (Hsame : (Qabs (x - inject_Z m * pow2 u) ==
                   Qabs (inject_Z (Zpos n) / inject_Z d - inject_Z m * pow2 u))%Q).
  { apply Qabs_wd. rewrite Exq. reflexivity. }
  set (A := Qabs (inject_Z (Zpos n) / inject_Z d - inject_Z m * pow2 u)) in *.
  assert (HA : (0 <= A)%Q) by apply Qabs_nonneg.
  assert (HDq : (inject_Z (d * 2 ^ Z.max 0 u) ==
                 inject_Z (2 ^ Z.max 0 (- u)) * inject_Z d * pow2 u)%Q).
  { rewrite inject_Z_mult, pow2_split. ring. }
  split; [|split; [|split; [|split]]].
  - split; nra.
  - apply Hnn. apply Z.mul_nonneg_nonneg; [lia|]. apply Z.pow_nonneg. lia.
  - rewrite Hsame. rewrite Zle_Qle, inject_Z_mult, Habs, HDq in Hnear.
    change (inject_Z 2) with 2%Q in Hnear.
    assert (P : (0 < inject_Z (2 ^ Z.max 0 (- u)) * inject_Z d)%Q) by nra.
    nra.
  - intros Htie. apply Heven. rewrite Hsame in Htie.
    apply inject_Z_injective. rewrite inject_Z_mult, Habs, HDq.
    change (inject_Z 2) with 2%Q. fold A. rewrite Htie, Eu. ring.
  - reflexivity.
Qed.


Lemma pow2_ge_1 k : (0 <= k)%Z -> (1 <= pow2 k)%Q.
Proof.
  intros H. rewrite <- pow2_nat by exact H.
  change 1%Q with (inject_Z 1). rewrite <- Zle_Qle.
  pose proof (Z.pow_pos_nonneg 2 k ltac:(lia) H). lia.
Qed.

Lemma pow2_le a b : (a <= b)%Z -> (pow2 a <= pow2 b)%Q.
Proof.
  intros H. pose proof (pow2_add a (b - a)) as E. replace (a + (b - a))%Z with b in E by lia.
  pose proof (pow2_ge_1 (b - a) ltac:(lia)). pose proof (pow2_pos a). nra.
Qed.

(** A finite result is a binary64 number: below [2 ^ 1024], and a
    multiple of a unit in the last place from [2 ^ -1074] to [2 ^ 971]
    by a significand of 53 bits, or by [2 ^ 53], which is a significand
    of 53 bits one place higher. *)
Lemma binary64_finite negative x v :
  (0 < x)%Q -> binary64 negative x = Finite negative v ->
  exists m u : Z,
    (v == inject_Z m * pow2 u)%Q /\ (0 <= m <= 2 ^ 53)%Z /\ (-1074 <= u <= 971)%Z /\
    (v < pow2 1024)%Q.
Proof.
  intros Hx Hv.
  destruct (binary64_spec negative x Hx) as (e & m & Hspec). cbn zeta in Hspec.
  destruct Hspec as ((Le & Ue) & Hm & Hnear & _ & Hb).
  set (u := Z.max (e - 52) (-1074)) in *.
  rewrite Hv in Hb.
  destruct (Qle_bool (pow2 1024) (inject_Z m * pow2 u)) eqn:Hover; [discriminate|].
  apply (f_equal (fun r => match r with Finite _ q => q | _ => v end)) in Hb.
  exists m, u. split; [rewrite Hb; apply Qred_correct|].
  pose proof (pow2_pos u) as Pu.
  pose proof (pow2_add (u - 1) 1) as Eu. replace (u - 1 + 1)%Z with u in Eu by lia.
  change (pow2 1) with 2%Q in Eu.
  apply Qabs_Qle_condition in Hnear. destruct Hnear as [N1 N2].
  assert (Hnot : ~ (pow2 1024 <= inject_Z m * pow2 u)%Q).
  { intros C. apply Qle_bool_iff in C. congruence. }
  split; [split; [exact Hm|]|split; [split; [lia|]|]].
  - (* m <= 2 ^ 53 *)
    assert (Hlt : (inject_Z m < pow2 53 + 1)%Q).
    { pose proof (pow2_le (e + 1) (u + 53) ltac:(lia)) as L.
      pose proof (pow2_add u 53) as E53.
      pose proof (pow2_pos 53) as P53.
      assert (H1 : (inject_Z m * pow2 u < (pow2 53 + 1) * pow2 u)%Q) by nra.
      apply Qnot_le_lt. intros C. nra. }
    rewrite <- (pow2_nat 53) in Hlt by lia.
    change 1%Q with (inject_Z 1) in Hlt. rewrite <- inject_Z_plus, <- Zlt_Qlt in Hlt. lia.
  - (* u <= 971 *)
    destruct (Z.le_gt_cases u 971) as [H|H]; [exact H|]. exfalso. apply Hnot.
    assert (Eu' : u = (e - 52)%Z) by lia.
    pose proof (pow2_add u 52) as E52. replace (u + 52)%Z with e in E52 by lia.
    pose proof (pow2_le 1024 e ltac:(lia)) as L.
    assert (Hm52 : (2 ^ 52 <= m)%Z).
    { assert (Hlt : (pow2 52 - 1 < inject_Z m)%Q).
      { pose proof (pow2_pos 52). apply Qnot_le_lt. intros C. nra. }
      rewrite <- (pow2_nat 52) in Hlt by lia.
      change 1%Q with (inject_Z 1) in Hlt.
      unfold Qminus in Hlt. rewrite <- inject_Z_opp, <- inject_Z_plus, <- Zlt_Qlt in Hlt. lia. }
    rewrite Zle_Qle, (pow2_nat 52) in Hm52 by lia. nra.
  - rewrite Hb, Qred_correct. apply Qnot_le_lt. exact Hnot.
Qed.

(** Known values: [0.1]; the ties at [2 ^ 53 + 1] and [2 ^ 53 + 3]; the
    largest number and the overflow threshold, half a unit above it; the
    least number, and the tie below it that goes to zero. *)
Example binary64_known_values :
  binary64 false (1 # 10) = Finite false (3602879701896397 # 36028797018963968) /\
  binary64 false (inject_Z (2 ^ 53 + 1)) = Finite false (inject_Z (2 ^ 53)) /\
  binary64 false (inject_Z (2 ^ 53 + 3)) = Finite false (inject_Z (2 ^ 53 + 4)) /\
  binary64 false (inject_Z (2 ^ 1024 - 2 ^ 970 - 1)) =
    Finite false (inject_Z (2 ^ 1024 - 2 ^ 971)) /\
  binary64 false (inject_Z (2 ^ 1024 - 2 ^ 970)) = Infinity false /\
  binary64 false (pow2 (-1074)) = Finite false (Qred (pow2 (-1074))) /\
  binary64 false (pow2 (-1075)) = Finite false 0 /\
  binary64 true (3 * pow2 (-1075)) = Finite true (Qred (2 * pow2 (-1074))).
Proof. repeat split; vm_compute; reflexivity. Qed.

End RoundingFacts.

(* ===================================================================== *)
(** ** Reading numbers *)
(* ===================================================================== *)

Section NumberFacts.
Import JS Documents.

Lemma forallb_weaken (p q : char -> bool) s :
  (forall c, p c = true -> q c = true) -> forallb p s = true -> forallb q s = true.
Proof.
  intros H. induction s as [|c s IH]; simpl; [reflexivity|].
  intros Hs. apply andb_true_iff in Hs. destruct Hs as [Hc Hs].
  rewrite (H c Hc), (IH Hs). reflexivity.
Qed.

Lemma span_spec p s :
  s = fst (span p s) ++ snd (span p s) /\ forallb p (fst (span p s)) = true.
Proof.
  induction s as [|c s [IH1 IH2]]; simpl; [split; reflexivity|].
  destruct (p c) eqn:E; [|split; reflexivity].
  destruct (span p s) as [a b]; simpl in *.
  split; [f_equal; exact IH1 | rewrite E; exact IH2].
Qed.

Lemma readSign_spec s :
  exists p, s = p ++ snd (readSign s) /\ forallb numChar p = true.
Proof.
  destruct s as [|c s]; simpl; [exists []; split; reflexivity|].
  destruct (N.eqb_spec c 45) as [->|_]; [exists [45%N]; split; reflexivity|].
  destruct (N.eqb_spec c 43) as [->|_]; [exists [43%N]; split; reflexivity|].
  exists []. split; reflexivity.
Qed.

Lemma digits_numChar s : forallb isDigit s = true -> forallb numChar s = true.
Proof.
  apply forallb_weaken. intros c H. unfold numChar. rewrite H. reflexivity.
Qed.

Lemma readExponent_spec s :
  exists p, s = p ++ snd (readExponent s) /\ forallb numChar p = true.
Proof.
  destruct s as [|c s1]; simpl; [exists []; split; reflexivity|].
  destruct ((c =? 101) || (c =? 69))%N eqn:Ec; [|exists []; split; reflexivity].
  destruct (readSign_spec s1) as [ps [Hs1 Hps]].
  destruct (readSign s1) as [neg s2]; simpl in *.
  destruct (span_spec isDigit s2) as [Hs2 Hds].
  destruct (span isDigit s2) as [ds s3]; simpl in *.
  destruct ds as [|d ds]; simpl; [exists []; split; reflexivity|].
  exists (c :: ps ++ d :: ds). split.
  - simpl. f_equal. rewrite Hs1, Hs2, <- app_assoc. reflexivity.
  - simpl. rewrite forallb_app, Hps, (digits_numChar _ Hds), andb_true_r.
    unfold numChar. apply orb_true_iff in Ec.
    destruct Ec as [E|E]; apply N.eqb_eq in E; subst c; reflexivity.
Qed.

(** Rounding gives a number. *)
Lemma binary64_number negative x : isNaN (binary64 negative x) = false.
Proof.
  unfold binary64. destruct (Qnum (Qred x)); try reflexivity.
  match goal with |- context [if ?b then _ else _] => destruct b end; reflexivity.
Qed.

(** What [strDecimalPrefix] reads is not empty and made of the characters
    of a literal, what is left is the rest of the string, and the value is
    a number. *)
Lemma strDecimalPrefix_spec s v r :
  strDecimalPrefix s = Some (v, r) ->
  exists p, s = p ++ r /\ p <> [] /\ forallb numChar p = true /\ isNaN v = false.
Proof.
  unfold strDecimalPrefix.
  destruct (readSign_spec s) as [ps [Hs Hps]].
  destruct (readSign s) as [neg s1]; cbn [fst snd] in *.
  destruct (stripPrefix (lit "Infinity") s1) as [rest|] eqn:Einf.
  - intros H. injection H as <- <-. apply stripPrefix_Some in Einf.
    exists (ps ++ lit "Infinity"). rewrite <- app_assoc, <- Einf.
    repeat split; auto.
    + destruct ps; discriminate.
    + rewrite forallb_app, Hps. reflexivity.
  - destruct (span_spec isDigit s1) as [Hs1 Hip].
    destruct (span isDigit s1) as [ip s2]; cbn [fst snd] in *.
    (* the fraction part *)
    assert (Hfrac : forall fp s3,
      match s2 with
      | [] => ([], s2)
      | c :: t =>
          if (c =? 46)%N then
            let (fp, s3) := span isDigit t in
            match ip, fp with
            | [], [] => ([], s2)
            | _, _ => (fp, s3)
            end
          else ([], s2)
      end = (fp, s3) ->
      exists q, s2 = q ++ s3 /\ forallb numChar q = true /\
                (q = [] -> fp = [])).
    { intros fp s3. destruct s2 as [|c t].
      - intros H. injection H as <- <-. exists []. repeat split.
      - destruct (N.eqb_spec c 46) as [->|_].
        + destruct (span_spec isDigit t) as [Ht Hfp].
          destruct (span isDigit t) as [fp' s3']; cbn [fst snd] in *.
          destruct ip as [|i0 ip]; [destruct fp' as [|f0 fp']|];
            intros H; injection H as <- <-.
          * exists []. repeat split.
          * exists (46%N :: f0 :: fp'). rewrite Ht. apply digits_numChar in Hfp.
            repeat split; [|discriminate].
            change (forallb numChar (f0 :: fp') = true). exact Hfp.
          * exists (46%N :: fp'). rewrite Ht. apply digits_numChar in Hfp.
            repeat split; [|discriminate].
            change (forallb numChar fp' = true). exact Hfp.
        + intros H. injection H as <- <-. exists []. repeat split. }
    destruct (match s2 with
              | [] => ([], s2)
              | c :: t => _
              end) as [fp s3] eqn:Efrac.
    destruct (Hfrac fp s3 eq_refl) as [q [Hs2 [Hq Hfp]]].
    destruct (ip ++ fp) as [|d ds] eqn:Eds; [discriminate|].
    destruct (readExponent_spec s3) as [pe [Hs3 Hpe]].
    destruct (readExponent s3) as [e s4]; cbn [fst snd] in *.
    intros H. injection H as <- <-.
    exists (ps ++ ip ++ q ++ pe). repeat split.
    + rewrite Hs, Hs1, Hs2, Hs3 at 1. rewrite <- !app_assoc. reflexivity.
    + intros Hnil. apply app_eq_nil in Hnil. destruct Hnil as [_ Hnil].
      apply app_eq_nil in Hnil. destruct Hnil as [Hip0 Hnil].
      apply app_eq_nil in Hnil. destruct Hnil as [Hq0 _].
      rewrite Hip0, (Hfp Hq0) in Eds. discriminate.
    + rewrite !forallb_app, Hps, (digits_numChar _ Hip), Hq, Hpe. reflexivity.
    + apply binary64_number.
Qed.

Ltac decide_char_tests :=
  repeat match goal with
         | |- context [(?a <=? ?b)%N] => destruct (N.leb_spec a b); try lia
         | |- context [(?a =? ?b)%N] => destruct (N.eqb_spec a b); try lia
         end;
  try reflexivity.

Lemma numChar_cases c :
  numChar c = true -> (48 <= c <= 57)%N \/ In c (lit "+-.eEInfinity").
Proof.
  unfold numChar, isDigit. intros H. apply orb_true_iff in H. destruct H as [H|H].
  - left. apply andb_true_iff in H. destruct H as [H1 H2].
    apply N.leb_le in H1, H2. lia.
  - right. apply existsb_exists in H. destruct H as [x [Hx E]].
    apply char_eqb_eq in E. subst x. exact Hx.
Qed.

Lemma numChar_not_white c : numChar c = true -> isWhiteSpace c = false.
Proof.
  intros H. apply numChar_cases in H. destruct H as [H|H].
  - unfold isWhiteSpace. decide_char_tests.
  - cbn in H. repeat (destruct H as [<-|H]; [reflexivity|]). contradiction.
Qed.

Lemma numChar_not c x :
  numChar x = false -> numChar c = true -> char_eqb c x = false.
Proof.
  intros Hx Hc. apply char_eqb_neq. intros ->. congruence.
Qed.

Lemma forallb_head (p : char -> bool) c s : forallb p (c :: s) = true -> p c = true.
Proof. simpl. intros H. apply andb_true_iff in H. tauto. Qed.

Lemma numChars_noneWhite t : forallb numChar t = true -> noneWhite t = true.
Proof.
  apply forallb_weaken. intros c H. rewrite (numChar_not_white _ H). reflexivity.
Qed.

Lemma numChars_lack x t :
  numChar x = false -> forallb numChar t = true -> lacks x t = true.
Proof.
  intros Hx. apply forallb_weaken. intros c H. rewrite (numChar_not _ _ Hx H). reflexivity.
Qed.

Lemma trimStart_stop c s : isWhiteSpace c = false -> trimStart (c :: s) = c :: s.
Proof. apply dropWhile_stop. Qed.

(** A string that neither starts nor ends with white space is its own
    [trim]. *)
Lemma trim_stable c s d :
  isWhiteSpace c = false -> isWhiteSpace d = false ->
  trim (c :: s ++ [d]) = c :: s ++ [d].
Proof.
  intros Hc Hd. unfold trim. rewrite (trimStart_stop _ _ Hc).
  unfold trimEnd. change (c :: s ++ [d]) with ((c :: s) ++ [d]).
  rewrite rev_app_distr. cbn [rev app]. rewrite (dropWhile_stop _ _ _ Hd).
  change (d :: rev s ++ [c]) with ([d] ++ rev (c :: s)).
  rewrite rev_app_distr, rev_involutive. reflexivity.
Qed.

Lemma trim_single c : isWhiteSpace c = false -> trim [c] = [c].
Proof. intros Hc. unfold trim, trimEnd, trimStart. simpl. rewrite Hc. simpl. rewrite Hc. reflexivity. Qed.

Lemma noneWhite_trim t : t <> [] -> noneWhite t = true -> trim t = t.
Proof.
  intros Hne Hw. destruct t as [|c s]; [congruence|].
  pose proof (forallb_head _ _ _ Hw) as Hc. apply negb_true_iff in Hc.
  destruct s as [|x s0].
  - apply trim_single. exact Hc.
  - destruct (@exists_last _ (x :: s0)) as [s' [d E]]; [discriminate|].
    rewrite E. apply trim_stable; [exact Hc|].
    unfold noneWhite in Hw. rewrite E in Hw.
    change (c :: s' ++ [d]) with ((c :: s') ++ [d]) in Hw.
    rewrite forallb_app in Hw. apply andb_true_iff in Hw. destruct Hw as [_ Hd].
    apply forallb_head in Hd. apply negb_true_iff in Hd. exact Hd.
Qed.

(** A string that is a literal as a whole: what is known of it. *)
Lemma literalValue_spec t v :
  literalValue t = Some v ->
  t <> [] /\ forallb numChar t = true /\ isNaN v = false /\
  strDecimalPrefix t = Some (v, []).
Proof.
  unfold literalValue. destruct (strDecimalPrefix t) as [[v' r]|] eqn:E; [|discriminate].
  destruct r; [|discriminate]. intros H. injection H as <-.
  destruct (strDecimalPrefix_spec _ _ _ E) as [p [Ht [Hne [Hp Hv]]]].
  rewrite app_nil_r in Ht. subst p. auto.
Qed.

Lemma literal_parseFloat t v : literalValue t = Some v -> parseFloat t = v.
Proof.
  intros H. destruct (literalValue_spec _ _ H) as [Hne [Hp [_ E]]].
  unfold parseFloat. destruct t as [|c s]; [congruence|].
  rewrite trimStart_stop, E; [reflexivity|].
  apply numChar_not_white. exact (forallb_head _ _ _ Hp).
Qed.

Lemma literal_Number t v : literalValue t = Some v -> Number t = v.
Proof.
  intros H. destruct (literalValue_spec _ _ H) as [Hne [Hp [_ E]]].
  unfold Number. rewrite (noneWhite_trim _ Hne (numChars_noneWhite _ Hp)).
  destruct t; [congruence|]. rewrite E. reflexivity.
Qed.

Lemma isNumeric_literal t : isNumeric t = true -> exists v, literalValue t = Some v.
Proof. unfold isNumeric. destruct (literalValue t) as [v|]; [eauto|discriminate]. Qed.

Lemma isNumeric_attribute t : isNumeric t = true -> isAttributeText t = true.
Proof.
  intros H. destruct (isNumeric_literal _ H) as [v Hv].
  destruct (literalValue_spec _ _ Hv) as [Hne [Hp _]].
  unfold isAttributeText. rewrite (numChars_lack dquote _ eq_refl Hp).
  destruct t; [congruence|reflexivity].
Qed.

End NumberFacts.

(* ===================================================================== *)
(** ** Numerals and what the reader makes of them *)
(* ===================================================================== *)

Section NumeralFacts.
Import JS Builtins Documents Numerals.

Lemma digitsOf_digits d : forallb isDigit (digitsOf d) = true.
Proof. induction d; cbn [digitsOf forallb]; try rewrite IHd; reflexivity. Qed.

Lemma digitsOf_length d : length (digitsOf d) = Decimal.nb_digits d.
Proof. induction d; cbn [digitsOf length Decimal.nb_digits]; congruence. Qed.

Lemma digitsOf_nil d : hasDigits d = true -> digitsOf d <> [].
Proof. destruct d; cbn; intros H; try discriminate. Qed.


Lemma fold_digits_acc d : forall acc : positive,
  fold_left digitStep (digitsOf d) (Npos acc) = Npos (Pos.of_uint_acc d acc).
Proof.
  induction d; intros acc; cbn [digitsOf fold_left Pos.of_uint_acc]; try reflexivity;
    match goal with
    | |- fold_left _ _ ?x = Npos (Pos.of_uint_acc _ ?y) =>
        replace x with (Npos y); [apply IHd|]
    end; unfold digitStep, digitVal.
  all: try (vm_compute (_ - 48)%N).
  all: lia.
Qed.

Lemma digitsVal_digitsOf d : digitsVal (digitsOf d) = N.of_uint d.
Proof.
  unfold digitsVal.
  induction d; cbn [digitsOf fold_left N.of_uint Pos.of_uint]; try reflexivity;
    try (rewrite <- (fold_digits_acc d); reflexivity).
  exact IHd.
Qed.

Lemma span_run (p : char -> bool) a b :
  forallb p a = true ->
  match b with [] => True | c :: _ => p c = false end ->
  span p (a ++ b) = (a, b).
Proof.
  intros Ha Hb. induction a as [|x a IH]; cbn [app span].
  - destruct b as [|c b]; [reflexivity|]. cbn [span]. rewrite Hb. reflexivity.
  - cbn [forallb] in Ha. apply andb_true_iff in Ha. destruct Ha as [Hx Ha].
    rewrite Hx, (IH Ha). reflexivity.
Qed.

Lemma fold_digits_shift b : forall acc,
  fold_left digitStep b acc =
  (acc * 10 ^ N.of_nat (length b) + fold_left digitStep b 0)%N.
Proof.
  induction b as [|c b IH]; intros acc; cbn [fold_left length].
  - change (N.of_nat 0) with 0%N. rewrite N.pow_0_r. lia.
  - rewrite (IH (digitStep acc c)), (IH (digitStep 0 c)).
    rewrite Nat2N.inj_succ, N.pow_succ_r'. unfold digitStep. lia.
Qed.

Lemma digitsVal_app a b :
  digitsVal (a ++ b) = (digitsVal a * 10 ^ N.of_nat (length b) + digitsVal b)%N.
Proof.
  unfold digitsVal.
  rewrite fold_left_app. apply fold_digits_shift.
Qed.

(** Rounding depends on the number only, not on the fraction that
    stands for it. *)
Lemma binary64_compat negative x y : (x == y)%Q -> binary64 negative x = binary64 negative y.
Proof. intros H. unfold binary64. rewrite (Qred_complete _ _ H). reflexivity. Qed.

Lemma readSign_signText sg t :
  startsNumeral t = true -> readSign (signText sg ++ t) = (isMinus sg, t).
Proof.
  intros Ht. destruct sg; cbn [signText app]; [|reflexivity|reflexivity].
  destruct t as [|c t]; [discriminate|]. cbn [startsNumeral] in Ht.
  unfold readSign, isMinus.
  destruct (N.eqb_spec c 45) as [->|_]; [discriminate|].
  destruct (N.eqb_spec c 43) as [->|_]; [discriminate|]. reflexivity.
Qed.

Lemma no_Infinity t :
  startsNumeral t = true -> stripPrefix (lit "Infinity") t = None.
Proof.
  destruct t as [|c t]; [discriminate|]. cbn [startsNumeral]. intros Ht.
  cbn [lit list_ascii_of_string map stripPrefix]. unfold char_eqb.
  destruct (N.eqb_spec (N_of_ascii "I") c) as [<-|_]; [discriminate|reflexivity].
Qed.

Lemma digitsOf_starts d t : hasDigits d = true -> startsNumeral (digitsOf d ++ t) = true.
Proof. destruct d; cbn; intros H; try discriminate; reflexivity. Qed.

(** What follows the digits before the point is no digit. *)
Lemma tail_stops f e :
  match fractionText f ++ exponentText e with
  | [] => True
  | c :: _ => isDigit c = false
  end.
Proof.
  destruct f as [d|]; cbn [fractionText app]; [reflexivity|].
  destruct e as [p|]; cbn [exponentText]; [|exact I].
  destruct (capital p); reflexivity.
Qed.

Lemma exponent_stops e :
  match exponentText e with
  | [] => True
  | c :: _ => isDigit c = false
  end.
Proof. exact (tail_stops None e). Qed.

Lemma readExponent_exponentText e :
  match e with Some p => hasDigits (exponentDigits p) = true | None => True end ->
  readExponent (exponentText e) = (exponentValue e, []).
Proof.
  destruct e as [[cap sg ds]|]; cbn [exponentText exponentValue exponentSign exponentDigits capital];
    [|reflexivity].
  intros Hd. unfold readExponent.
  assert (Ec : (((if cap then 69 else 101) =? 101) || ((if cap then 69 else 101) =? 69))%N = true)
    by (destruct cap; reflexivity).
  rewrite Ec.
  rewrite <- (app_nil_r (digitsOf ds)).
  rewrite (readSign_signText sg _ (digitsOf_starts ds [] Hd)).
  rewrite (span_run isDigit (digitsOf ds) [] (digitsOf_digits ds) I).
  pose proof (digitsOf_nil ds Hd) as Hne.
  destruct (digitsOf ds) as [|c r] eqn:E; [congruence|]. rewrite <- E.
  rewrite digitsVal_digitsOf. unfold digitsValue. reflexivity.
Qed.

Lemma ten_power k : (inject_Z (Z.of_N (10 ^ N.of_nat k)) == Qpower (10 # 1) (Z.of_nat k))%Q.
Proof.
  rewrite N2Z.inj_pow, nat_N_Z. change (Z.of_N 10) with 10%Z.
  rewrite Zpower_Qpower by lia. reflexivity.
Qed.

(** The value the reader computes from the digits is the magnitude the
    numeral denotes. *)
Lemma decimalValue_magnitude sg w f e :
  (decimalValue
     (digitsVal (digitsOf w ++ match f with Some d => digitsOf d | None => [] end))
     (exponentValue e -
      Z.of_nat (length (match f with Some d => digitsOf d | None => [] end)))
   == magnitudeOf {| sign := sg; whole := w; fraction := f; exponentPart := e |})%Q.
Proof.
  unfold decimalValue, magnitudeOf. cbn [whole fraction exponentPart].
  rewrite Qred_correct.
  assert (H10 : ~ ((10 # 1) == 0)%Q) by discriminate.
  destruct f as [d|].
  - rewrite digitsVal_app, !digitsVal_digitsOf, digitsOf_length.
    unfold Z.sub. rewrite Qpower_plus by exact H10. rewrite Qpower_opp.
    rewrite N2Z.inj_add, N2Z.inj_mul, inject_Z_plus, inject_Z_mult, ten_power.
    unfold digitsValue.
    pose proof (Qpower_not_0 (10 # 1) (Z.of_nat (Decimal.nb_digits d)) H10) as Hk.
    field. exact Hk.
  - rewrite app_nil_r, digitsVal_digitsOf. cbn [length Z.of_nat].
    rewrite Z.sub_0_r. unfold digitsValue. ring.
Qed.

(** The reader reads a numeral as what it denotes. *)
Lemma numeral_read n :
  isNumeral n = true -> strDecimalPrefix (numeralText n) = Some (numeralValue n, []).
Proof.
  destruct n as [sg w f e]. unfold isNumeral, numeralText, numeralValue.
  cbn [sign whole fraction exponentPart]. intros H.
  apply andb_true_iff in H. destruct H as [Hd He].
  assert (Hstart : startsNumeral (digitsOf w ++ fractionText f ++ exponentText e) = true).
  { destruct w; try reflexivity. cbn [digitsOf app].
    destruct f as [d|]; [reflexivity|]. discriminate. }
  assert (He' : match e with Some p => hasDigits (exponentDigits p) = true | None => True end)
    by (destruct e; [exact He|exact I]).
  unfold strDecimalPrefix.
  rewrite (readSign_signText sg _ Hstart), (no_Infinity _ Hstart).
  rewrite (span_run isDigit (digitsOf w) _ (digitsOf_digits w) (tail_stops f e)).
  rewrite <- (binary64_compat (isMinus sg) _ _ (decimalValue_magnitude sg w f e)).
  destruct f as [d|]; cbn [fractionText app].
  - cbn [N.eqb Pos.eqb].
    rewrite (span_run isDigit (digitsOf d) _ (digitsOf_digits d) (exponent_stops e)).
    destruct (digitsOf w) as [|c0 r0] eqn:Ew; [destruct (digitsOf d) as [|c1 r1] eqn:Ed|].
    + exfalso. destruct w; try discriminate. destruct d; discriminate.
    + cbn [app]. rewrite (readExponent_exponentText e He'). reflexivity.
    + cbn [app]. rewrite (readExponent_exponentText e He'). reflexivity.
  - assert (Hw : digitsOf w <> []).
    { apply digitsOf_nil. rewrite orb_false_r in Hd. exact Hd. }
    destruct (digitsOf w) as [|c0 r0] eqn:Ew; [congruence|].
    pose proof (readExponent_exponentText e He') as Hr.
    destruct e as [p|]; cbn [exponentText] in *.
    + destruct (capital p); cbn [N.eqb Pos.eqb app]; rewrite Hr; reflexivity.
    + cbn [app]. rewrite Hr. reflexivity.
Qed.

Lemma numeral_literalValue n :
  isNumeral n = true -> literalValue (numeralText n) = Some (numeralValue n).
Proof. intros H. unfold literalValue. rewrite (numeral_read n H). reflexivity. Qed.

End NumeralFacts.

(* ===================================================================== *)
(** ** The matcher *)
(* ===================================================================== *)

Section RegExpFacts.
Import JS RegExp.

Lemma plusLoop_stops k s c : stopsAt k s -> plusLoop k s c = None.
Proof. destruct s as [|a s]; simpl; [reflexivity|]. intros ->. reflexivity. Qed.

(** A greedy [k+] before a run of the class that ends where the class
    stops takes the whole run when the rest of the pattern matches what
    follows. *)
Lemma plusLoop_greedy k w : forall s c z,
  w <> [] ->
  forallb (classMatches k) w = true ->
  stopsAt k s ->
  c s = Some z ->
  plusLoop k (w ++ s) c = Some z.
Proof.
  induction w as [|a w IH]; intros s c z Hne Hall Hstop Hc; [congruence|].
  simpl in Hall. apply andb_true_iff in Hall. destruct Hall as [Ha Hw].
  simpl. rewrite Ha.
  destruct w as [|b w].
  - simpl. rewrite (plusLoop_stops k s c Hstop). exact Hc.
  - rewrite (IH s c z); [reflexivity|discriminate|exact Hw|exact Hstop|exact Hc].
Qed.

(** What a successful [k+] has consumed. *)
Lemma plusLoop_Some k s : forall c z,
  plusLoop k s c = Some z ->
  exists w s',
    s = w ++ s' /\ w <> [] /\ forallb (classMatches k) w = true /\ c s' = Some z.
Proof.
  induction s as [|a s IH]; simpl; intros c z H; [discriminate|].
  destruct (classMatches k a) eqn:Ha; [|discriminate].
  destruct (plusLoop k s c) eqn:E.
  - injection H as <-. destruct (IH c s0 E) as [w [s' [-> [Hne [Hall Hc]]]]].
    exists (a :: w), s'. simpl. rewrite Ha, Hall.
    repeat split; [discriminate|exact Hc].
  - exists [a], s. simpl. rewrite Ha. repeat split; [discriminate|exact H].
Qed.

Lemma matchAllFrom_eq r i s :
  matchAllFrom r i s =
  match execFrom r i s with
  | None => []
  | Some m =>
      if nextIndex m - i <=? length s
      then m :: matchAllFrom r (nextIndex m) (skipn (nextIndex m - i) s)
      else [m]
  end.
Proof.
  funelim (matchAllFrom r i s);
    match goal with
    | E : execFrom _ _ _ = _ |- _ => rewrite E
    end;
    try match goal with
        | E : (_ <=? _) = _ |- _ => rewrite E
        end;
    reflexivity.
Qed.

(** How the matcher goes through a pattern, piece by piece. *)
Lemma matcher_lit p s caps c :
  matcher (Lit p) {| rest := p ++ s; captures := caps |} c =
  c {| rest := s; captures := caps |}.
Proof. cbn [matcher rest captures]. rewrite stripPrefix_app. reflexivity. Qed.

Lemma matcher_lit_seq p r s caps c :
  matcher (Seq (Lit p) r) {| rest := p ++ s; captures := caps |} c =
  matcher r {| rest := s; captures := caps |} c.
Proof. cbn [matcher rest captures]. rewrite stripPrefix_app. reflexivity. Qed.

Lemma matcher_plus_seq k r w s caps c z :
  w <> [] -> forallb (classMatches k) w = true -> stopsAt k s ->
  matcher r {| rest := s; captures := caps |} c = Some z ->
  matcher (Seq (Plus k) r) {| rest := w ++ s; captures := caps |} c = Some z.
Proof.
  intros Hne Hall Hstop Hr. cbn [matcher rest captures].
  apply plusLoop_greedy; assumption.
Qed.

Lemma matcher_group_plus k w s caps c z :
  w <> [] -> forallb (classMatches k) w = true -> stopsAt k s ->
  c {| rest := s; captures := caps ++ [w] |} = Some z ->
  matcher (Group (Plus k)) {| rest := w ++ s; captures := caps |} c = Some z.
Proof.
  intros Hne Hall Hstop Hr. cbn [matcher rest captures].
  apply plusLoop_greedy; try assumption.
  cbn [rest captures]. rewrite firstn_consumed. exact Hr.
Qed.

Lemma matcher_group_plus_seq k r w s caps c z :
  w <> [] -> forallb (classMatches k) w = true -> stopsAt k s ->
  matcher r {| rest := s; captures := caps ++ [w] |} c = Some z ->
  matcher (Seq (Group (Plus k)) r) {| rest := w ++ s; captures := caps |} c = Some z.
Proof.
  intros Hne Hall Hstop Hr.
  change (matcher (Group (Plus k)) {| rest := w ++ s; captures := caps |}
            (fun y => matcher r y c) = Some z).
  apply matcher_group_plus; assumption.
Qed.

(** A pattern that starts with literal text matches only where that text
    stands. *)
Lemma matchAt_needs_prefix p r i s :
  startsWith p s = false -> matchAt (Seq (Lit p) r) i s = None.
Proof.
  intros H. apply startsWith_false in H.
  unfold matchAt. cbn [matcher rest]. rewrite H. reflexivity.
Qed.

(** The search passes over a stretch of text in which the literal start
    of the pattern does not occur, when what follows starts with [<] or
    is empty, the pattern starting with [<] and having no other. *)
Lemma execFrom_skips p r g : forall i t,
  ~ In 60%N p ->
  includes g (60%N :: p) = false ->
  t = [] \/ (exists t', t = 60%N :: t') ->
  execFrom (Seq (Lit (60%N :: p)) r) i (g ++ t) =
  execFrom (Seq (Lit (60%N :: p)) r) (i + length g) t.
Proof.
  induction g as [|a g IH]; intros i t Hp Hg Ht.
  - cbn [app length]. rewrite Nat.add_0_r. reflexivity.
  - cbn [app execFrom]. rewrite matchAt_needs_prefix.
    + rewrite (IH (S i) t Hp (includes_false_tail _ _ _ Hg) Ht).
      cbn [length]. f_equal. lia.
    + apply startsWith_false.
      pose proof (includes_false_head _ _ Hg) as Hh. apply startsWith_false in Hh.
      change (a :: g ++ t) with ((a :: g) ++ t).
      cbn [stripPrefix app] in *.
      destruct (char_eqb 60%N a); [|reflexivity].
      apply stripPrefix_no_straddle; assumption.
Qed.

Lemma execFrom_nothing p r g i :
  ~ In 60%N p ->
  includes g (60%N :: p) = false ->
  execFrom (Seq (Lit (60%N :: p)) r) i g = None.
Proof.
  intros Hp Hg.
  pose proof (execFrom_skips p r g i [] Hp Hg (or_introl eq_refl)) as H.
  rewrite app_nil_r in H. rewrite H.
  cbn [execFrom]. rewrite matchAt_needs_prefix; reflexivity.
Qed.

Lemma execFrom_here r i s m : matchAt r i s = Some m -> execFrom r i s = Some m.
Proof. intros H. destruct s; cbn [execFrom]; rewrite H; reflexivity. Qed.

End RegExpFacts.

(* ===================================================================== *)
(** ** Properties of parseGpx *)
(* ===================================================================== *)

Section Gpx.
Import JS RegExp App Documents Samples Numerals TrackSamples.

Lemma isSeparator_spec w :
  isSeparator w = true -> w <> [] /\ forallb (classMatches WhiteSpaceClass) w = true.
Proof.
  unfold isSeparator. intros H. apply andb_true_iff in H. destruct H as [Hne Hw].
  split; [destruct w; [discriminate|discriminate]|exact Hw].
Qed.

Lemma isAttributeText_spec a :
  isAttributeText a = true ->
  a <> [] /\ forallb (classMatches (NotChar dquote)) a = true.
Proof.
  unfold isAttributeText. intros H. apply andb_true_iff in H. destruct H as [Hne Hw].
  split; [destruct a; [discriminate|discriminate]|exact Hw].
Qed.

(** The pattern matches a marker written as it expects, from its [<] to
    the quote that closes [lon], and captures the two attribute texts. *)
Lemma matchAt_marker m i t :
  matchesPattern m = true ->
  matchAt trkptPattern i (markerText m ++ t) =
  Some {| index := i;
          endIndex := i + length (markerText m);
          groups := [latText m; lonText m] |}.
Proof.
  unfold matchesPattern. intros H.
  apply andb_true_iff in H. destruct H as [H Hlon].
  apply andb_true_iff in H. destruct H as [H Hlat].
  apply andb_true_iff in H. destruct H as [Hw1 Hw2].
  apply isSeparator_spec in Hw1, Hw2. apply isAttributeText_spec in Hlat, Hlon.
  destruct Hw1 as [Hw1 Hw1']. destruct Hw2 as [Hw2 Hw2'].
  destruct Hlat as [Hlat Hlat']. destruct Hlon as [Hlon Hlon'].
  unfold matchAt.
  assert (E : matcher trkptPattern {| rest := markerText m ++ t; captures := [] |} Some
              = Some {| rest := t; captures := [latText m; lonText m] |}).
  { replace (markerText m ++ t) with
      (lit "<trkpt" ++ (afterName m ++ ((lit "lat=" ++ [dquote]) ++
        (latText m ++ ([dquote] ++ (betweenAttributes m ++
          ((lit "lon=" ++ [dquote]) ++ (lonText m ++ ([dquote] ++ t)))))))))
      by (unfold markerText; repeat rewrite <- app_assoc; reflexivity).
    unfold trkptPattern.
    rewrite matcher_lit_seq.
    apply matcher_plus_seq; [assumption|assumption|reflexivity|].
    rewrite matcher_lit_seq.
    apply matcher_group_plus_seq; [assumption|assumption|reflexivity|].
    rewrite matcher_lit_seq.
    apply matcher_plus_seq; [assumption|assumption|reflexivity|].
    rewrite matcher_lit_seq.
    apply matcher_group_plus_seq; [assumption|assumption|reflexivity|].
    rewrite matcher_lit. reflexivity. }
  rewrite E. cbn [rest captures]. rewrite length_app.
  do 2 f_equal. lia.
Qed.

Lemma markerText_starts m : exists t, markerText m = 60%N :: t.
Proof. unfold markerText. eexists. reflexivity. Qed.

Lemma markerText_length m : 1 <= length (markerText m).
Proof. destruct (markerText_starts m) as [t ->]. simpl. lia. Qed.

Lemma noMarker_spec g : noMarker g = true -> includes g (60%N :: lit "trkpt") = false.
Proof. unfold noMarker. intros H. apply negb_true_iff in H. exact H. Qed.

Lemma trkpt_no_lessThan : ~ In 60%N (lit "trkpt").
Proof. cbn. intros H. repeat (destruct H as [H|H]; [discriminate|]). exact H. Qed.

(** The search finds the first marker behind a stretch without one. *)
Lemma execFrom_marker g m i t :
  noMarker g = true -> matchesPattern m = true ->
  execFrom trkptPattern i (g ++ markerText m ++ t) =
  Some {| index := i + length g;
          endIndex := i + length g + length (markerText m);
          groups := [latText m; lonText m] |}.
Proof.
  intros Hg Hm.
  assert (E : execFrom trkptPattern i (g ++ markerText m ++ t) =
              execFrom trkptPattern (i + length g) (markerText m ++ t)).
  { apply (execFrom_skips (lit "trkpt")).
    - exact trkpt_no_lessThan.
    - apply noMarker_spec. exact Hg.
    - right. destruct (markerText_starts m) as [t' ->]. eexists. reflexivity. }
  rewrite E. apply execFrom_here. apply matchAt_marker. exact Hm.
Qed.

Lemma execFrom_no_marker g i : noMarker g = true -> execFrom trkptPattern i g = None.
Proof.
  intros Hg. apply (execFrom_nothing (lit "trkpt")).
  - exact trkpt_no_lessThan.
  - apply noMarker_spec. exact Hg.
Qed.

(** Every marker of the text is found, in order, and nothing else. *)
Lemma matchAllFrom_gpxText ms : forall g i,
  noMarker g = true ->
  forallb shaped ms = true ->
  map groups (matchAllFrom trkptPattern i (gpxText g ms)) = map attributeTexts ms.
Proof.
  induction ms as [|[m g'] ms IH]; intros g i Hg Hms; rewrite matchAllFrom_eq.
  - cbn [gpxText]. rewrite (execFrom_no_marker g i Hg). reflexivity.
  - cbn [gpxText forallb] in *. apply andb_true_iff in Hms. destruct Hms as [Hm Hms].
    unfold shaped in Hm. cbn [fst snd] in Hm.
    apply andb_true_iff in Hm. destruct Hm as [Hm Hg'].
    rewrite (execFrom_marker g m i _ Hg Hm).
    pose proof (markerText_length m) as Hlen.
    assert (Enext : nextIndex {| index := i + length g;
                                 endIndex := i + length g + length (markerText m);
                                 groups := [latText m; lonText m] |} - i
                    = length (g ++ markerText m)).
    { unfold nextIndex. cbn [index endIndex]. rewrite length_app.
      destruct (Nat.eqb_spec (i + length g + length (markerText m)) (i + length g));
        lia. }
    rewrite Enext.
    replace (length (g ++ markerText m) <=? length (g ++ markerText m ++ gpxText g' ms))
      with true
      by (symmetry; apply Nat.leb_le; rewrite !length_app; lia).
    cbn [map]. unfold attributeTexts at 1. cbn [fst groups]. f_equal.
    rewrite app_assoc, skipn_exact by reflexivity.
    apply IH; assumption.
Qed.

Lemma gpxCoords_map s : gpxCoords s = map trackPointOf (matchAll trkptPattern s).
Proof. unfold gpxCoords, pushTrackPoint. apply (fold_left_push trackPointOf _ []). Qed.

Lemma trackPointOf_groups m mg :
  groups m = attributeTexts mg -> trackPointOf m = readMarker mg.
Proof.
  intros H. unfold trackPointOf, group, readMarker. rewrite H. reflexivity.
Qed.

Lemma map_trackPointOf matches : forall ms,
  map groups matches = map attributeTexts ms ->
  map trackPointOf matches = map readMarker ms.
Proof.
  induction matches as [|m matches IH]; intros [|mg ms] H; try discriminate.
  - reflexivity.
  - cbn [map] in *. injection H as H1 H2.
    rewrite (trackPointOf_groups _ _ H1), (IH _ H2). reflexivity.
Qed.

(** One coordinate for each marker of the text, read with [parseFloat],
    whatever the attribute texts are. *)
Lemma gpxCoords_gpxText g ms :
  noMarker g = true -> forallb shaped ms = true ->
  gpxCoords (gpxText g ms) = map readMarker ms.
Proof.
  intros Hg Hms. rewrite gpxCoords_map. apply map_trackPointOf.
  apply matchAllFrom_gpxText; assumption.
Qed.

Lemma wellFormed_shaped mg :
  wellFormed (fst mg) && noMarker (snd mg) = true -> shaped mg = true.
Proof.
  unfold shaped, wellFormed, matchesPattern. intros H.
  apply andb_true_iff in H. destruct H as [H Hg].
  apply andb_true_iff in H. destruct H as [H Hlon].
  apply andb_true_iff in H. destruct H as [H Hlat].
  rewrite H, Hg, (isNumeric_attribute _ Hlat), (isNumeric_attribute _ Hlon).
  reflexivity.
Qed.

Lemma wellFormed_readMarker mg :
  wellFormed (fst mg) && noMarker (snd mg) = true ->
  coordinateOf (fst mg) = Some (readMarker mg).
Proof.
  unfold wellFormed. intros H.
  repeat (apply andb_true_iff in H; destruct H as [H ?]).
  destruct (isNumeric_literal (latText (fst mg))) as [la Hla]; [assumption|].
  destruct (isNumeric_literal (lonText (fst mg))) as [lo Hlo]; [assumption|].
  unfold coordinateOf, readMarker. rewrite Hla, Hlo.
  rewrite (literal_parseFloat _ _ Hla), (literal_parseFloat _ _ Hlo). reflexivity.
Qed.

Lemma orThrow_nonempty message coords :
  coords <> [] -> orThrow message coords = Return coords.
Proof. destruct coords; [congruence|reflexivity]. Qed.

Lemma parseGpx_orThrow s : parseGpx s = orThrow gpxErrorMessage (gpxCoords s).
Proof. reflexivity. Qed.

Lemma isNumeral_isNumeric n : isNumeral n = true -> isNumeric (numeralText n) = true.
Proof. intros H. unfold isNumeric. rewrite (numeral_literalValue n H). reflexivity. Qed.

Lemma numericMarker_wellFormed p :
  isNumericMarker p = true -> wellFormed (markerOf p) = true.
Proof.
  unfold isNumericMarker, wellFormed. cbn [markerOf afterName betweenAttributes latText lonText].
  intros H. apply andb_true_iff in H. destruct H as [H Hlon].
  apply andb_true_iff in H. destruct H as [H Hlat].
  rewrite H, (isNumeral_isNumeric _ Hlat), (isNumeral_isNumeric _ Hlon). reflexivity.
Qed.

(** [parseFloat] reads the attributes of a marker written with numerals
    as the numbers they denote. *)
Lemma numericMarker_read p g :
  isNumericMarker p = true -> readMarker (markerOf p, g) = markerPoint p.
Proof.
  unfold isNumericMarker. intros H.
  apply andb_true_iff in H. destruct H as [H Hlon].
  apply andb_true_iff in H. destruct H as [_ Hlat].
  unfold readMarker, markerPoint. cbn [fst markerOf latText lonText].
  rewrite (literal_parseFloat _ _ (numeral_literalValue _ Hlat)).
  rewrite (literal_parseFloat _ _ (numeral_literalValue _ Hlon)).
  reflexivity.
Qed.

(** Markers written with numerals, and other text without [<trkpt]: one
    coordinate for each marker, the numbers its numerals denote. *)
Lemma gpxCoords_numeric g ps :
  noMarker g = true ->
  forallb (fun pg => isNumericMarker (fst pg) && noMarker (snd pg)) ps = true ->
  gpxCoords (numericGpxText g ps) = map (fun pg => markerPoint (fst pg)) ps.
Proof.
  intros Hg Hps. unfold numericGpxText.
  rewrite gpxCoords_gpxText; [|exact Hg|].
  - rewrite map_map. apply map_ext_in. intros pg Hin.
    rewrite forallb_forall in Hps. specialize (Hps pg Hin).
    apply andb_true_iff in Hps. cbn [fst snd].
    apply numericMarker_read. tauto.
  - rewrite forallb_forall in *. intros mg Hin. apply in_map_iff in Hin.
    destruct Hin as [pg [<- Hin]]. specialize (Hps pg Hin).
    apply andb_true_iff in Hps. destruct Hps as [Hp Hn].
    apply wellFormed_shaped. cbn [fst snd].
    rewrite (numericMarker_wellFormed _ Hp), Hn. reflexivity.
Qed.

(** C1, for at least one marker: a text made of [N >= 1] markers
    [<trkpt lat="A" lon="B"], with white space after the name and between
    the attributes and decimal numerals for [A] and [B], and of other text
    without [<trkpt], is parsed into exactly [N] coordinates, in the order
    of the markers; the coordinate of a marker has the binary64 number
    nearest to [A] as latitude and the one nearest to [B] as longitude. *)
Theorem parseGpx_reads_every_marker g ps :
  ps <> [] ->
  noMarker g = true ->
  forallb (fun pg => isNumericMarker (fst pg) && noMarker (snd pg)) ps = true ->
  exists coords,
    parseGpx (numericGpxText g ps) = Return coords /\
    length coords = length ps /\
    coords = map (fun pg => markerPoint (fst pg)) ps.
Proof.
  intros Hne Hg Hps. exists (map (fun pg => markerPoint (fst pg)) ps).
  rewrite parseGpx_orThrow, (gpxCoords_numeric g ps Hg Hps).
  split; [|split].
  - apply orThrow_nonempty. destruct ps; [congruence|discriminate].
  - apply length_map.
  - reflexivity.
Qed.

(** The example of the specification, through the theorem. *)
Lemma parseGpx_reads_every_marker_example :
  gpxExample <> [] /\
  noMarker [] = true /\
  forallb (fun pg => isNumericMarker (fst pg) && noMarker (snd pg)) gpxExample = true /\
  exists coords,
    parseGpx (numericGpxText [] gpxExample) = Return coords /\
    length coords = length gpxExample /\
    coords = map (fun pg => markerPoint (fst pg)) gpxExample.
Proof.
  split; [discriminate|]. split; [reflexivity|]. split; [vm_compute; reflexivity|].
  apply (parseGpx_reads_every_marker [] gpxExample);
    [discriminate | reflexivity | vm_compute; reflexivity].
Defined.

(** C1 as stated fails when there is no marker at all: the text has zero
    markers and the parser, instead of returning zero coordinates, throws. *)
Lemma parseGpx_without_marker_throws :
  noMarker (lit "<gpx><trk><trkseg></trkseg></trk></gpx>") = true /\
  forallb (fun pg => isNumericMarker (fst pg) && noMarker (snd pg)) [] = true /\
  parseGpx (numericGpxText (lit "<gpx><trk><trkseg></trkseg></trk></gpx>") []) =
    Throw gpxErrorMessage /\
  ~ (exists coords,
       parseGpx (numericGpxText (lit "<gpx><trk><trkseg></trkseg></trk></gpx>") []) =
         Return coords /\
       length coords = length (@nil (NumericMarker * str))).
Proof.
  assert (E : parseGpx (numericGpxText (lit "<gpx><trk><trkseg></trkseg></trk></gpx>") [])
              = Throw gpxErrorMessage) by (vm_compute; reflexivity).
  split; [vm_compute; reflexivity|]. split; [reflexivity|]. split; [exact E|].
  intros [coords [H _]]. rewrite E in H. discriminate.
Qed.

(** The GPX example of the specification: [45.0] and [7.5] are binary64
    numbers, [45.1] and [7.6] are rounded to the nearest ones. *)
Example parseGpx_specification_example :
  numericGpxText [] gpxExample =
    lit "<trkpt lat=" ++ [dquote] ++ lit "45.0" ++ [dquote] ++
    lit " lon=" ++ [dquote] ++ lit "7.5" ++ [dquote] ++ lit "/>" ++
    lit "<trkpt lat=" ++ [dquote] ++ lit "45.1" ++ [dquote] ++
    lit " lon=" ++ [dquote] ++ lit "7.6" ++ [dquote] ++ lit "/>" /\
  parseGpx (numericGpxText [] gpxExample) =
    Return [ {| lat := Finite false 45; lon := Finite false (15 # 2) |};
             {| lat := binary64 false (451 # 10); lon := binary64 false (38 # 5) |} ] /\
  binary64 false (451 # 10) = Finite false (6347260724825293 # 140737488355328) /\
  binary64 false (38 # 5) = Finite false (4278419646001971 # 562949953421312).
Proof. repeat split; vm_compute; reflexivity. Qed.

(** Numerals beyond binary64: [1e400] is read as Infinity,
    [9007199254740993] as its even neighbour, [-1e-400] as the negative
    zero. *)
Example parseGpx_rounds_numerals :
  map numeralText [huge; oddInteger; tinyNegative] =
    [lit "1e400"; lit "9007199254740993"; lit "-1e-400"] /\
  parseGpx (numericGpxText [] [ (numericTrkpt huge oddInteger, []);
                                (numericTrkpt tinyNegative huge, []) ]) =
    Return [ {| lat := Infinity false; lon := Finite false 9007199254740992 |};
             {| lat := Finite true 0; lon := Infinity false |} ].
Proof. split; vm_compute; reflexivity. Qed.

(** C10: every match of the pattern puts exactly one coordinate on the
    list, made of [parseFloat] of the two captured texts whether or not
    they are numeric; a marker with [lat="abc"] and [lon="def"] gives a
    coordinate of two NaN, and the text is accepted. *)
Theorem parseGpx_keeps_every_match :
  (forall s, gpxCoords s = map trackPointOf (matchAll trkptPattern s)) /\
  (forall s, length (gpxCoords s) = length (matchAll trkptPattern s)) /\
  (forall s, parseGpx s = orThrow gpxErrorMessage (map trackPointOf (matchAll trkptPattern s))) /\
  (forall g ms, noMarker g = true ->
     forallb (fun mg => matchesPattern (fst mg) && noMarker (snd mg)) ms = true ->
     gpxCoords (gpxText g ms) =
     map (fun mg => {| lat := parseFloat (latText (fst mg));
                       lon := parseFloat (lonText (fst mg)) |}) ms) /\
  parseGpx (gpxText [] [({| afterName := lit " "; latText := lit "abc";
                            betweenAttributes := lit " "; lonText := lit "def" |},
                         lit "/>")])
  = Return [ {| lat := NaN; lon := NaN |} ].
Proof.
  split; [|split; [|split; [|split]]].
  - exact gpxCoords_map.
  - intros s. rewrite gpxCoords_map. apply length_map.
  - intros s. rewrite parseGpx_orThrow, gpxCoords_map. reflexivity.
  - intros g ms Hg Hms. apply gpxCoords_gpxText; assumption.
  - vm_compute. reflexivity.
Qed.

End Gpx.


(* ===================================================================== *)
(** ** Properties of parseKml *)
(* ===================================================================== *)

Section Kml.
Import JS RegExp App Documents Samples Numerals TrackSamples.

Lemma splitLoop_none r piece a s :
  separatorAt r (a :: s) = None ->
  splitLoop r piece (a :: s) = splitLoop r (piece ++ [a]) s.
Proof. intros H. simp splitLoop. rewrite H. simp splitLoop. reflexivity. Qed.

Lemma splitLoop_some r piece a s m e :
  separatorAt r (a :: s) = Some m -> endIndex m = S e ->
  splitLoop r piece (a :: s) = piece :: groups m ++ splitLoop r [] (skipn e s).
Proof.
  intros H He. simp splitLoop. rewrite H. simp splitLoop. rewrite He.
  destruct piece; simp splitLoop; reflexivity.
Qed.

Lemma separatorAt_nonwhite a s :
  isWhiteSpace a = false -> separatorAt (Plus WhiteSpaceClass) (a :: s) = None.
Proof.
  intros Ha. unfold separatorAt, matchAt. cbn [matcher rest plusLoop classMatches].
  rewrite Ha. reflexivity.
Qed.

(** White space before a character that is none is one separator. *)
Lemma separatorAt_white w c s :
  w <> [] -> allWhite w = true -> isWhiteSpace c = false ->
  separatorAt (Plus WhiteSpaceClass) (w ++ c :: s) =
  Some {| index := 0; endIndex := length w; groups := [] |}.
Proof.
  intros Hne Hw Hc. unfold separatorAt, matchAt. cbn [matcher rest captures].
  rewrite (plusLoop_greedy WhiteSpaceClass w (c :: s) _
             {| rest := c :: s; captures := [] |} Hne Hw Hc eq_refl).
  cbn [rest captures]. rewrite length_app.
  do 2 f_equal. cbn [plus]. lia.
Qed.

(** The loop of [split] gathers a run of characters that are not white
    space into the current piece. *)
Lemma splitLoop_token tok : forall piece s,
  noneWhite tok = true ->
  splitLoop (Plus WhiteSpaceClass) piece (tok ++ s) =
  splitLoop (Plus WhiteSpaceClass) (piece ++ tok) s.
Proof.
  induction tok as [|a tok IH]; intros piece s H.
  - rewrite app_nil_r. reflexivity.
  - cbn [noneWhite forallb] in H. apply andb_true_iff in H. destruct H as [Ha Htok].
    apply negb_true_iff in Ha. cbn [app].
    rewrite (splitLoop_none _ _ _ _ (separatorAt_nonwhite a _ Ha)).
    rewrite (IH (piece ++ [a]) s Htok), <- app_assoc. reflexivity.
Qed.

(** White space before a character that is none ends the current piece. *)
Lemma splitLoop_separator w c s piece :
  isSeparator w = true -> isWhiteSpace c = false ->
  splitLoop (Plus WhiteSpaceClass) piece (w ++ c :: s) =
  piece :: splitLoop (Plus WhiteSpaceClass) [] (c :: s).
Proof.
  intros Hw Hc. destruct (isSeparator_spec _ Hw) as [Hne Hall].
  destruct w as [|a w]; [congruence|].
  pose proof (separatorAt_white (a :: w) c s Hne Hall Hc) as Hsep.
  change ((a :: w) ++ c :: s) with (a :: (w ++ c :: s)) in *.
  rewrite (splitLoop_some _ _ _ _ _ (length w) Hsep eq_refl).
  cbn [groups]. rewrite (skipn_exact w (c :: s) (length w) eq_refl). reflexivity.
Qed.

Lemma splitLoop_end piece : splitLoop (Plus WhiteSpaceClass) piece [] = [piece].
Proof. simp splitLoop. reflexivity. Qed.


(** *** Tokens *)

Lemma validToken_spec k :
  validToken k = true ->
  exists lo la,
    literalValue (lonComponent k) = Some lo /\
    literalValue (latComponent k) = Some la /\
    match altitude k with
    | Some alt => noneWhite alt = true /\ lacks lessThan alt = true
    | None => True
    end.
Proof.
  unfold validToken. intros H.
  apply andb_true_iff in H. destruct H as [H Halt].
  apply andb_true_iff in H. destruct H as [Hlo Hla].
  destruct (isNumeric_literal _ Hlo) as [lo Elo].
  destruct (isNumeric_literal _ Hla) as [la Ela].
  exists lo, la. repeat split; try assumption.
  destruct (altitude k); [|exact I].
  apply andb_true_iff in Halt. exact Halt.
Qed.

Lemma tokenText_noneWhite k : validToken k = true -> noneWhite (tokenText k) = true.
Proof.
  intros H. destruct (validToken_spec _ H) as [lo [la [Hlo [Hla Halt]]]].
  destruct (literalValue_spec _ _ Hlo) as [_ [Plo _]].
  destruct (literalValue_spec _ _ Hla) as [_ [Pla _]].
  unfold tokenText, noneWhite. rewrite !forallb_app.
  fold (noneWhite (lonComponent k)). fold (noneWhite (latComponent k)).
  rewrite (numChars_noneWhite _ Plo), (numChars_noneWhite _ Pla).
  destruct (altitude k) as [alt|]; [|reflexivity].
  destruct Halt as [Halt _]. rewrite forallb_app. fold (noneWhite alt).
  rewrite Halt. reflexivity.
Qed.

Lemma tokenText_lacks_lessThan k :
  validToken k = true -> lacks lessThan (tokenText k) = true.
Proof.
  intros H. destruct (validToken_spec _ H) as [lo [la [Hlo [Hla Halt]]]].
  destruct (literalValue_spec _ _ Hlo) as [_ [Plo _]].
  destruct (literalValue_spec _ _ Hla) as [_ [Pla _]].
  unfold tokenText, lacks. rewrite !forallb_app.
  fold (lacks lessThan (lonComponent k)). fold (lacks lessThan (latComponent k)).
  rewrite (numChars_lack lessThan _ eq_refl Plo), (numChars_lack lessThan _ eq_refl Pla).
  destruct (altitude k) as [alt|]; [|reflexivity].
  destruct Halt as [_ Halt]. rewrite forallb_app. fold (lacks lessThan alt).
  rewrite Halt. reflexivity.
Qed.

Lemma tokenText_nonempty k : validToken k = true -> tokenText k <> [].
Proof.
  intros H. destruct (validToken_spec _ H) as [lo [la [Hlo _]]].
  destruct (literalValue_spec _ _ Hlo) as [Hne _].
  unfold tokenText. destruct (lonComponent k); [congruence|discriminate].
Qed.

(** A valid token starts with a character that is not white space. *)
Lemma tokenText_head k :
  validToken k = true ->
  exists c s, tokenText k = c :: s /\ isWhiteSpace c = false.
Proof.
  intros H. pose proof (tokenText_nonempty _ H) as Hne.
  pose proof (tokenText_noneWhite _ H) as Hw.
  destruct (tokenText k) as [|c s]; [congruence|].
  exists c, s. split; [reflexivity|].
  apply forallb_head in Hw. apply negb_true_iff in Hw. exact Hw.
Qed.

(** *** Trimming the text of a block *)

Lemma dropWhile_keeps p x : forall y,
  dropWhile p x <> [] -> dropWhile p (x ++ y) = dropWhile p x ++ y.
Proof.
  induction x as [|a x IH]; intros y H; cbn [dropWhile app] in *; [congruence|].
  destruct (p a); [apply IH; exact H|reflexivity].
Qed.

Lemma trimEnd_app a b : trimEnd b <> [] -> trimEnd (a ++ b) = a ++ trimEnd b.
Proof.
  unfold trimEnd. intros H. rewrite rev_app_distr, dropWhile_keeps.
  - rewrite rev_app_distr, rev_involutive. reflexivity.
  - intros E. rewrite E in H. apply H. reflexivity.
Qed.

Lemma trimEnd_white w : allWhite w = true -> trimEnd w = [].
Proof.
  unfold trimEnd, allWhite. intros H.
  replace (dropWhile isWhiteSpace (rev w)) with (dropWhile isWhiteSpace (rev w ++ []))
    by (rewrite app_nil_r; reflexivity).
  rewrite dropWhile_app_all; [reflexivity|].
  rewrite forallb_forall in *. intros c Hc. apply H. apply in_rev. exact Hc.
Qed.

Lemma trimEnd_app_white a w : allWhite w = true -> trimEnd (a ++ w) = trimEnd a.
Proof.
  unfold trimEnd, allWhite. intros H. rewrite rev_app_distr, dropWhile_app_all; [reflexivity|].
  rewrite forallb_forall in *. intros c Hc. apply H. apply in_rev. exact Hc.
Qed.

Lemma trimEnd_noneWhite t : noneWhite t = true -> trimEnd t = t.
Proof.
  unfold trimEnd, noneWhite. intros H.
  destruct (rev t) as [|c s] eqn:E.
  - apply (f_equal (@rev _)) in E. rewrite rev_involutive in E. subst t. reflexivity.
  - rewrite dropWhile_stop.
    + rewrite <- E. apply rev_involutive.
    + rewrite forallb_forall in H. apply negb_true_iff. apply H.
      apply in_rev. rewrite E. left. reflexivity.
Qed.

Lemma isWord_spec t : isWord t = true -> t <> [] /\ noneWhite t = true.
Proof.
  unfold isWord. intros H. apply andb_true_iff in H. destruct H as [Hne Hw].
  split; [|exact Hw]. destruct t; [discriminate|discriminate].
Qed.

(** A word starts with a character that is not white space. *)
Lemma word_head t :
  isWord t = true -> exists c s, t = c :: s /\ isWhiteSpace c = false.
Proof.
  intros H. destruct (isWord_spec _ H) as [Hne Hw].
  destruct t as [|c s]; [congruence|].
  exists c, s. split; [reflexivity|].
  apply forallb_head in Hw. apply negb_true_iff in Hw. exact Hw.
Qed.

Lemma wordsOnly_nonempty t w ws : isWord t = true -> wordsOnly t w ws <> [].
Proof.
  intros H. destruct (isWord_spec _ H) as [Hne _].
  destruct ws as [|[t' w'] ws]; cbn [wordsOnly]; [exact Hne|].
  destruct t; [congruence|discriminate].
Qed.

(** Trimming the end of the text removes the white space after the last
    word. *)
Lemma trimEnd_words ws : forall t w,
  isWord t = true -> forallb (fun tw => isWord (fst tw)) ws = true ->
  spaced ((t, w) :: ws) = true ->
  trimEnd (t ++ wordsText w ws) = wordsOnly t w ws.
Proof.
  induction ws as [|[t' w'] ws IH]; intros t w Ht Hws Hsp.
  - cbn [wordsText wordsOnly spaced] in *.
    rewrite trimEnd_app_white by exact Hsp.
    apply trimEnd_noneWhite. apply isWord_spec. exact Ht.
  - cbn [forallb fst] in Hws. apply andb_true_iff in Hws.
    destruct Hws as [Ht' Hws].
    change (spaced ((t, w) :: (t', w') :: ws))
      with (isSeparator w && spaced ((t', w') :: ws)) in Hsp.
    apply andb_true_iff in Hsp. destruct Hsp as [Hw Hsp].
    cbn [wordsText wordsOnly].
    rewrite (app_assoc t w), trimEnd_app.
    + rewrite (IH t' w' Ht' Hws Hsp), <- app_assoc. reflexivity.
    + rewrite (IH t' w' Ht' Hws Hsp). apply wordsOnly_nonempty. exact Ht'.
Qed.

(** [trim] of the text of a block leaves the words and the white space
    between them. *)
Lemma trim_wordsText w0 t w ws :
  allWhite w0 = true ->
  isWord t = true -> forallb (fun tw => isWord (fst tw)) ws = true ->
  spaced ((t, w) :: ws) = true ->
  trim (wordsText w0 ((t, w) :: ws)) = wordsOnly t w ws.
Proof.
  intros Hw0 Ht Hws Hsp. unfold trim, trimStart. cbn [wordsText].
  rewrite dropWhile_app_all by exact Hw0.
  destruct (word_head _ Ht) as [c [s [E Hc]]].
  rewrite E. cbn [app]. rewrite dropWhile_stop by exact Hc.
  change (c :: s ++ wordsText w ws) with ((c :: s) ++ wordsText w ws).
  rewrite <- E. apply trimEnd_words; assumption.
Qed.

(** *** Splitting the trimmed text *)

Lemma split_words ws : forall t w piece,
  isWord t = true -> forallb (fun tw => isWord (fst tw)) ws = true ->
  spaced ((t, w) :: ws) = true ->
  splitLoop (Plus WhiteSpaceClass) piece (wordsOnly t w ws) =
  (piece ++ t) :: map fst ws.
Proof.
  induction ws as [|[t' w'] ws IH]; intros t w piece Ht Hws Hsp.
  - cbn [wordsOnly map].
    rewrite <- (app_nil_r t) at 1.
    rewrite splitLoop_token by (apply isWord_spec; exact Ht).
    apply splitLoop_end.
  - cbn [forallb fst] in Hws. apply andb_true_iff in Hws.
    destruct Hws as [Ht' Hws].
    change (spaced ((t, w) :: (t', w') :: ws))
      with (isSeparator w && spaced ((t', w') :: ws)) in Hsp.
    apply andb_true_iff in Hsp. destruct Hsp as [Hw Hsp].
    cbn [wordsOnly map fst].
    rewrite splitLoop_token by (apply isWord_spec; exact Ht).
    assert (Hhead : exists c s, wordsOnly t' w' ws = c :: s /\ isWhiteSpace c = false).
    { destruct (word_head _ Ht') as [c [s [E Hc]]].
      destruct ws as [|[t2 w2] ws2]; cbn [wordsOnly]; rewrite E;
        cbn [app]; eauto. }
    destruct Hhead as [c [s [E Hc]]].
    rewrite E, (splitLoop_separator w c s _ Hw Hc), <- E.
    rewrite (IH t' w' [] Ht' Hws Hsp). reflexivity.
Qed.

(** The tokens that [parseKml] takes from the text of a block are its
    words. *)
Lemma coordPairsOf_wordsText w0 ws :
  ws <> [] ->
  allWhite w0 = true ->
  forallb (fun tw => isWord (fst tw)) ws = true -> spaced ws = true ->
  coordPairsOf (wordsText w0 ws) = map fst ws.
Proof.
  intros Hne Hw0 Hws Hsp. destruct ws as [|[t w] ws]; [congruence|].
  cbn [forallb fst] in Hws. apply andb_true_iff in Hws. destruct Hws as [Ht Hws].
  unfold coordPairsOf.
  rewrite (trim_wordsText w0 t w ws Hw0 Ht Hws Hsp).
  unfold split. pose proof (wordsOnly_nonempty t w ws Ht) as Hne'.
  destruct (wordsOnly t w ws) as [|c s] eqn:E; [congruence|].
  rewrite <- E. apply (split_words ws t w [] Ht Hws Hsp).
Qed.


(** *** The components of a token *)

Lemma splitChar_piece sep a : forall s,
  lacks sep a = true -> splitChar sep (a ++ sep :: s) = a :: splitChar sep s.
Proof.
  induction a as [|c a IH]; intros s H; cbn [app splitChar].
  - rewrite char_eqb_refl. reflexivity.
  - cbn [lacks forallb] in H. apply andb_true_iff in H. destruct H as [Hc Ha].
    apply negb_true_iff in Hc. rewrite Hc, (IH s Ha). reflexivity.
Qed.

Lemma splitChar_last sep a : lacks sep a = true -> splitChar sep a = [a].
Proof.
  induction a as [|c a IH]; intros H; cbn [splitChar]; [reflexivity|].
  cbn [lacks forallb] in H. apply andb_true_iff in H. destruct H as [Hc Ha].
  apply negb_true_iff in Hc. rewrite Hc, (IH Ha). reflexivity.
Qed.

Lemma splitChar_cons sep s : exists piece pieces, splitChar sep s = piece :: pieces.
Proof.
  induction s as [|c s [piece [pieces IH]]]; cbn [splitChar]; [eauto|].
  destruct (char_eqb c sep); [eauto|]. rewrite IH. eauto.
Qed.

(** The first two components of a valid token are its longitude and its
    latitude, whatever follows. *)
Lemma splitChar_token k :
  validToken k = true ->
  exists others,
    splitChar comma (tokenText k) = lonComponent k :: latComponent k :: others.
Proof.
  intros H. destruct (validToken_spec _ H) as [lo [la [Hlo [Hla _]]]].
  destruct (literalValue_spec _ _ Hlo) as [_ [Plo _]].
  destruct (literalValue_spec _ _ Hla) as [_ [Pla _]].
  pose proof (numChars_lack comma _ eq_refl Plo) as Llo.
  pose proof (numChars_lack comma _ eq_refl Pla) as Lla.
  unfold tokenText. cbn [app].
  rewrite (splitChar_piece comma _ _ Llo).
  destruct (altitude k) as [alt|].
  - cbn [app]. rewrite (splitChar_piece comma _ _ Lla).
    destruct (splitChar_cons comma alt) as [piece [pieces ->]]. eauto.
  - rewrite app_nil_r, (splitChar_last comma _ Lla). eauto.
Qed.

(** [pushPair] adds what the token contributes. *)
Lemma pushPair_contribution coords pair :
  pushPair coords pair = coords ++ contribution pair.
Proof.
  unfold pushPair, contribution, component, parses.
  destruct (nth_error (map Number (splitChar comma pair)) 0) as [lo|];
    [|symmetry; apply app_nil_r].
  destruct (nth_error (map Number (splitChar comma pair)) 1) as [la|];
    [|rewrite andb_false_r; symmetry; apply app_nil_r].
  destruct (negb (isNaN lo) && negb (isNaN la)); [reflexivity|].
  symmetry. apply app_nil_r.
Qed.

Lemma fold_pushPair pairs : forall coords,
  fold_left pushPair pairs coords = coords ++ flat_map contribution pairs.
Proof.
  induction pairs as [|pair pairs IH]; intros coords; cbn [fold_left flat_map].
  - symmetry. apply app_nil_r.
  - rewrite IH, pushPair_contribution, <- app_assoc. reflexivity.
Qed.

(** *** Finding the block *)

Lemma lacks_spec c a : lacks c a = true -> forallb (classMatches (NotChar c)) a = true.
Proof. intros H. exact H. Qed.

(** The pattern matches a block whose text is not empty and has no [<],
    and captures that text. *)
Lemma matchAt_block body i t :
  body <> [] -> lacks lessThan body = true ->
  matchAt coordinatesPattern i (blockText body ++ t) =
  Some {| index := i;
          endIndex := i + length (blockText body);
          groups := [body] |}.
Proof.
  intros Hne Hb. unfold matchAt.
  assert (E : matcher coordinatesPattern
                {| rest := blockText body ++ t; captures := [] |} Some
              = Some {| rest := t; captures := [body] |}).
  { replace (blockText body ++ t) with
      (lit "<coordinates>" ++ (body ++ (lit "</coordinates>" ++ t)))
      by (unfold blockText, openTag, closeTag; repeat rewrite <- app_assoc; reflexivity).
    unfold coordinatesPattern.
    rewrite matcher_lit_seq.
    apply matcher_group_plus_seq; [assumption|assumption|reflexivity|].
    rewrite matcher_lit. reflexivity. }
  rewrite E. cbn [rest captures]. rewrite length_app.
  do 2 f_equal. lia.
Qed.

Lemma coordinates_no_lessThan : ~ In 60%N (lit "coordinates>").
Proof. cbn. intros H. repeat (destruct H as [H|H]; [discriminate|]). exact H. Qed.

Lemma slash_coordinates_no_lessThan : ~ In 60%N (lit "/coordinates>").
Proof. cbn. intros H. repeat (destruct H as [H|H]; [discriminate|]). exact H. Qed.

(** Where the pattern matches, a block stands whose text is not empty and
    has no [<]. *)
Lemma matchAt_coordinates_Some i s m :
  matchAt coordinatesPattern i s = Some m ->
  exists body after,
    s = blockText body ++ after /\ body <> [] /\ lacks lessThan body = true.
Proof.
  unfold matchAt, coordinatesPattern. cbn [matcher rest captures].
  destruct (stripPrefix (lit "<coordinates>") s) as [s1|] eqn:E1; [|discriminate].
  apply stripPrefix_Some in E1.
  destruct (plusLoop (NotChar lessThan) s1 _) as [y|] eqn:E2; [|discriminate].
  intros _. apply plusLoop_Some in E2.
  destruct E2 as [body [s2 [Hs1 [Hne [Hall Hc]]]]].
  cbn [rest captures] in Hc.
  destruct (stripPrefix (lit "</coordinates>") s2) as [after|] eqn:E3; [|discriminate].
  apply stripPrefix_Some in E3.
  exists body, after. split; [|split; assumption].
  unfold blockText, openTag, closeTag. rewrite E1, Hs1, E3, <- !app_assoc. reflexivity.
Qed.

(** A literal that starts with [<] and has no other [<], found at the
    start of a text that runs into another [<], lies before that [<]. *)
Lemma literal_before_lessThan p g t r :
  ~ In 60%N p -> g <> [] ->
  g ++ 60%N :: t = (60%N :: p) ++ r ->
  exists g', g = (60%N :: p) ++ g' /\ g' ++ 60%N :: t = r.
Proof.
  intros Hp Hg E.
  destruct (stripPrefix (60%N :: p) g) as [g'|] eqn:Eg.
  - apply stripPrefix_Some in Eg. exists g'. split; [exact Eg|].
    rewrite Eg, <- app_assoc in E. apply app_inv_head in E. exact E.
  - exfalso. destruct g as [|a g]; [congruence|].
    assert (H : stripPrefix (60%N :: p) ((a :: g) ++ 60%N :: t) = None).
    { cbn [stripPrefix app] in *. destruct (char_eqb 60%N a); [|reflexivity].
      apply stripPrefix_no_straddle; [exact Hp|exact Eg|right; eauto]. }
    rewrite E, stripPrefix_app in H. discriminate.
Qed.

(** Text without [<], found at the start of a text that runs into a [<],
    lies before that [<]. *)
Lemma text_before_lessThan b : forall g t r,
  lacks lessThan b = true ->
  g ++ 60%N :: t = b ++ r ->
  exists g', g = b ++ g' /\ g' ++ 60%N :: t = r.
Proof.
  induction b as [|x b IH]; intros g t r Hb E.
  - exists g. split; [reflexivity|exact E].
  - cbn [lacks forallb] in Hb. apply andb_true_iff in Hb. destruct Hb as [Hx Hb].
    apply negb_true_iff in Hx. apply char_eqb_neq in Hx.
    destruct g as [|a g]; cbn [app] in E.
    + injection E as E1 _. unfold lessThan in Hx. congruence.
    + injection E as E1 E2. subst a.
      destruct (IH g t r Hb E2) as [g' [-> Hg']].
      exists g'. split; [reflexivity|exact Hg'].
Qed.

(** A block that the pattern matches and that starts before another block
    ends before it. *)
Lemma block_before_block g body' after' body after :
  g <> [] -> lacks lessThan body' = true ->
  g ++ blockText body ++ after = blockText body' ++ after' ->
  exists g', g = blockText body' ++ g'.
Proof.
  intros Hg Hb E.
  assert (Eopen : blockText body ++ after =
                  60%N :: (lit "coordinates>" ++ body ++ closeTag ++ after)).
  { unfold blockText, openTag. rewrite <- !app_assoc. reflexivity. }
  rewrite Eopen in E.
  unfold blockText at 1 in E. unfold openTag, closeTag in E.
  rewrite <- !app_assoc in E.
  change (lit "<coordinates>") with (60%N :: lit "coordinates>") in E.
  destruct (literal_before_lessThan _ _ _ _ coordinates_no_lessThan Hg E)
    as [g1 [-> E1]].
  destruct (text_before_lessThan _ _ _ _ Hb E1) as [g2 [-> E2]].
  change (lit "</coordinates>") with (60%N :: lit "/coordinates>") in E2.
  destruct g2 as [|a g2].
  - cbn in E2. discriminate.
  - destruct (literal_before_lessThan _ (a :: g2) _ _
                slash_coordinates_no_lessThan ltac:(discriminate) E2)
      as [g3 [-> _]].
    exists g3. unfold blockText, openTag, closeTag. rewrite <- !app_assoc. reflexivity.
Qed.

(** The search passes over text that holds no block the pattern matches. *)
Lemma execFrom_passes pre : forall i body after,
  ~ holdsBlock pre ->
  execFrom coordinatesPattern i (pre ++ blockText body ++ after) =
  execFrom coordinatesPattern (i + length pre) (blockText body ++ after).
Proof.
  induction pre as [|a pre IH]; intros i body after Hpre.
  - cbn [app length]. rewrite Nat.add_0_r. reflexivity.
  - cbn [app execFrom].
    destruct (matchAt coordinatesPattern i (a :: pre ++ blockText body ++ after))
      as [m|] eqn:E.
    + exfalso. apply matchAt_coordinates_Some in E.
      destruct E as [body' [after' [Etext [Hne Hb]]]].
      change (a :: pre ++ blockText body ++ after)
        with ((a :: pre) ++ blockText body ++ after) in Etext.
      destruct (block_before_block (a :: pre) body' after' body after
                  ltac:(discriminate) Hb Etext) as [g' Eg].
      apply Hpre. exists [], body', g'. cbn [app]. auto.
    + rewrite IH.
      * cbn [length]. f_equal. lia.
      * intros [before [body' [after' [Epre [Hne Hb]]]]].
        apply Hpre. exists (a :: before), body', after'.
        rewrite Epre. cbn [app]. auto.
Qed.

(** The search finds the first block that the pattern matches. *)
Lemma exec_block pre body post :
  ~ holdsBlock pre -> body <> [] -> lacks lessThan body = true ->
  exec coordinatesPattern (pre ++ blockText body ++ post) =
  Some {| index := length pre;
          endIndex := length pre + length (blockText body);
          groups := [body] |}.
Proof.
  intros Hpre Hne Hb. unfold exec. rewrite (execFrom_passes pre 0 body post Hpre).
  apply execFrom_here. apply matchAt_block; assumption.
Qed.

(** Wherever a matched block stands in a text, the search finds a block. *)
Lemma execFrom_finds before : forall i body after,
  body <> [] -> lacks lessThan body = true ->
  execFrom coordinatesPattern i (before ++ blockText body ++ after) <> None.
Proof.
  induction before as [|a before IH]; intros i body after Hne Hb.
  - cbn [app]. rewrite (execFrom_here _ _ _ _ (matchAt_block body i after Hne Hb)).
    discriminate.
  - cbn [app execFrom].
    destruct (matchAt coordinatesPattern i (a :: before ++ blockText body ++ after));
      [discriminate|].
    apply IH; assumption.
Qed.

(** Text in which the search finds nothing holds no block. *)
Lemma exec_None_no_block s : exec coordinatesPattern s = None -> ~ holdsBlock s.
Proof.
  intros E [before [body [after [-> [Hne Hb]]]]].
  exact (execFrom_finds before 0 body after Hne Hb E).
Qed.

(** Text without [<coordinates>] holds no block. *)
Lemma noBlock_holds_none pre : noBlock pre = true -> ~ holdsBlock pre.
Proof.
  intros Hpre. apply exec_None_no_block. unfold exec.
  apply (execFrom_nothing (lit "coordinates>")).
  - exact coordinates_no_lessThan.
  - unfold noBlock in Hpre. apply negb_true_iff in Hpre. exact Hpre.
Qed.

Lemma kmlCoords_block pre body post :
  ~ holdsBlock pre -> body <> [] -> lacks lessThan body = true ->
  kmlCoords (pre ++ blockText body ++ post) =
  flat_map contribution (coordPairsOf body).
Proof.
  intros Hpre Hne Hb. unfold kmlCoords.
  rewrite (exec_block pre body post Hpre Hne Hb).
  unfold group. cbn [groups nth_error Nat.sub toStringArg truthyStr].
  destruct body; [congruence|]. apply (fold_pushPair _ []).
Qed.


Lemma parseKml_orThrow s : parseKml s = orThrow kmlErrorMessage (kmlCoords s).
Proof. reflexivity. Qed.


Lemma kmlCoords_blockTokens s : kmlCoords s = flat_map contribution (blockTokens s).
Proof.
  unfold kmlCoords, blockTokens.
  destruct (exec coordinatesPattern s) as [m|]; [|reflexivity].
  destruct (truthyStr (group m 1)); [|reflexivity].
  apply (fold_pushPair _ []).
Qed.

Lemma allWhite_lacks_lessThan w : allWhite w = true -> lacks lessThan w = true.
Proof.
  apply forallb_weaken. intros c Hc. apply negb_true_iff. apply char_eqb_neq.
  intros ->. discriminate.
Qed.

(** A valid token contributes the coordinate it denotes: the second
    component as latitude, the first as longitude. *)
Lemma contribution_token k lo la :
  validToken k = true ->
  literalValue (lonComponent k) = Some lo ->
  literalValue (latComponent k) = Some la ->
  contribution (tokenText k) = [ {| lat := la; lon := lo |} ].
Proof.
  intros H Hlo Hla.
  destruct (splitChar_token _ H) as [others E].
  unfold contribution, component. rewrite E. cbn [map nth_error].
  rewrite (literal_Number _ _ Hlo), (literal_Number _ _ Hla).
  destruct (literalValue_spec _ _ Hlo) as [_ [_ [Nlo _]]].
  destruct (literalValue_spec _ _ Hla) as [_ [_ [Nla _]]].
  unfold parses. rewrite Nlo, Nla. reflexivity.
Qed.

(** *** Tokens written with numerals *)

Lemma numericToken_valid k : isNumericToken k = true -> validToken (tokenOf k) = true.
Proof.
  unfold isNumericToken, validToken. cbn [tokenOf lonComponent latComponent altitude].
  intros H. apply andb_true_iff in H. destruct H as [H Halt].
  apply andb_true_iff in H. destruct H as [Hlo Hla].
  rewrite (isNumeral_isNumeric _ Hlo), (isNumeral_isNumeric _ Hla), Halt. reflexivity.
Qed.

(** [Number] reads the first two components of a token written with
    numerals as the numbers they denote. *)
Lemma contribution_numericToken k :
  isNumericToken k = true -> contribution (tokenText (tokenOf k)) = [tokenPoint k].
Proof.
  intros H. pose proof (numericToken_valid k H) as Hv.
  unfold isNumericToken in H. apply andb_true_iff in H. destruct H as [H _].
  apply andb_true_iff in H. destruct H as [Hlo Hla].
  apply (contribution_token (tokenOf k) _ _ Hv).
  - apply numeral_literalValue. exact Hlo.
  - apply numeral_literalValue. exact Hla.
Qed.

Lemma isItem_word i : isItem i = true -> isWord (itemText i) = true.
Proof.
  destruct i as [k|t]; cbn [isItem itemText]; intros H.
  - pose proof (numericToken_valid k H) as Hv. unfold isWord.
    rewrite (tokenText_noneWhite _ Hv).
    pose proof (tokenText_nonempty _ Hv) as Hne.
    destruct (tokenText (tokenOf k)); [congruence|reflexivity].
  - unfold isDroppedText in H. apply andb_true_iff in H. destruct H as [H _].
    apply andb_true_iff in H. destruct H as [H _]. exact H.
Qed.

Lemma isItem_lacks_lessThan i : isItem i = true -> lacks lessThan (itemText i) = true.
Proof.
  destruct i as [k|t]; cbn [isItem itemText]; intros H.
  - apply tokenText_lacks_lessThan. apply numericToken_valid. exact H.
  - unfold isDroppedText in H. apply andb_true_iff in H. destruct H as [H _].
    apply andb_true_iff in H. destruct H as [_ H]. exact H.
Qed.

(** A valid token gives its coordinate, other text gives nothing. *)
Lemma contribution_item i :
  isItem i = true ->
  contribution (itemText i) =
  match i with
  | ValidToken k => [tokenPoint k]
  | OtherText _ => []
  end.
Proof.
  destruct i as [k|t]; cbn [isItem itemText]; intros H.
  - apply contribution_numericToken. exact H.
  - unfold isDroppedText in H. apply andb_true_iff in H. destruct H as [_ H].
    apply negb_true_iff in H. unfold contribution. rewrite H. reflexivity.
Qed.

Lemma contributions_items items :
  forallb (fun iw => isItem (fst iw)) items = true ->
  flat_map contribution (map fst (map (fun iw : Item * str => (itemText (fst iw), snd iw)) items)) =
  map tokenPoint (validTokensOf items).
Proof.
  induction items as [|[i w] items IH]; intros H; [reflexivity|].
  cbn [forallb fst] in H. apply andb_true_iff in H. destruct H as [Hi Hitems].
  cbn [map flat_map fst validTokensOf]. rewrite (contribution_item i Hi).
  fold (validTokensOf items). rewrite map_app, (IH Hitems).
  destruct i; reflexivity.
Qed.

Lemma items_words items :
  forallb (fun iw => isItem (fst iw)) items = true ->
  forallb (fun tw => isWord (fst tw))
    (map (fun iw : Item * str => (itemText (fst iw), snd iw)) items) = true.
Proof.
  intros H. rewrite forallb_forall in *. intros tw Hin.
  apply in_map_iff in Hin. destruct Hin as [iw [<- Hin]]. cbn [fst].
  apply isItem_word. apply H. exact Hin.
Qed.

Lemma spaced_map {A B} (f : A -> B) (ws : list (A * str)) :
  spaced (map (fun aw => (f (fst aw), snd aw)) ws) = spaced ws.
Proof.
  induction ws as [|[a w] ws IH]; [reflexivity|].
  destruct ws as [|[a' w'] ws]; [reflexivity|].
  change (spaced ((a, w) :: (a', w') :: ws)) with (isSeparator w && spaced ((a', w') :: ws)).
  rewrite <- IH. reflexivity.
Qed.

Lemma spaced_inv {A} (k : A) w ks :
  spaced ((k, w) :: ks) = true -> allWhite w = true /\ spaced ks = true.
Proof.
  destruct ks as [|kw ks].
  - cbn [spaced]. auto.
  - change (spaced ((k, w) :: kw :: ks)) with (isSeparator w && spaced (kw :: ks)).
    intros H. apply andb_true_iff in H. destruct H as [Hw Hs].
    unfold isSeparator in Hw. apply andb_true_iff in Hw. tauto.
Qed.

Lemma wordsText_lacks_lessThan ws : forall w0,
  allWhite w0 = true ->
  forallb (fun tw => lacks lessThan (fst tw)) ws = true -> spaced ws = true ->
  lacks lessThan (wordsText w0 ws) = true.
Proof.
  induction ws as [|[t w] ws IH]; intros w0 Hw0 Hws Hsp; cbn [wordsText].
  - apply allWhite_lacks_lessThan. exact Hw0.
  - cbn [forallb fst] in Hws. apply andb_true_iff in Hws.
    destruct Hws as [Ht Hws]. destruct (spaced_inv _ _ _ Hsp) as [Hw Hsp'].
    unfold lacks. rewrite !forallb_app.
    fold (lacks lessThan w0). fold (lacks lessThan t).
    fold (lacks lessThan (wordsText w ws)).
    rewrite (allWhite_lacks_lessThan _ Hw0), Ht, (IH w Hw Hws Hsp'). reflexivity.
Qed.

Lemma itemsText_lacks_lessThan w0 items :
  allWhite w0 = true ->
  forallb (fun iw => isItem (fst iw)) items = true -> spaced items = true ->
  lacks lessThan (itemsText w0 items) = true.
Proof.
  intros Hw0 Hitems Hsp. unfold itemsText.
  apply wordsText_lacks_lessThan; [exact Hw0| |rewrite spaced_map; exact Hsp].
  rewrite forallb_forall in *. intros tw Hin.
  apply in_map_iff in Hin. destruct Hin as [iw [<- Hin]]. cbn [fst].
  apply isItem_lacks_lessThan. apply Hitems. exact Hin.
Qed.

Lemma wordsText_nonempty w0 t w ws : t <> [] -> wordsText w0 ((t, w) :: ws) <> [].
Proof.
  intros Ht E. cbn [wordsText] in E.
  apply app_eq_nil in E. destruct E as [_ E].
  apply app_eq_nil in E. destruct E as [E _]. exact (Ht E).
Qed.

(** A block of items: one coordinate for each valid token, in order, the
    numbers its numerals denote. *)
Lemma kmlCoords_items pre w0 items post :
  items <> [] ->
  noBlock pre = true ->
  allWhite w0 = true ->
  forallb (fun iw => isItem (fst iw)) items = true ->
  spaced items = true ->
  kmlCoords (pre ++ blockText (itemsText w0 items) ++ post) =
  map tokenPoint (validTokensOf items).
Proof.
  intros Hne Hpre Hw0 Hitems Hsp.
  pose proof (itemsText_lacks_lessThan w0 items Hw0 Hitems Hsp) as Hless.
  rewrite (kmlCoords_block pre _ post (noBlock_holds_none _ Hpre)); [| |exact Hless].
  - unfold itemsText. rewrite coordPairsOf_wordsText.
    + apply contributions_items. exact Hitems.
    + destruct items; [congruence|discriminate].
    + exact Hw0.
    + apply items_words. exact Hitems.
    + rewrite spaced_map. exact Hsp.
  - destruct items as [|[i w] items]; [congruence|].
    unfold itemsText. cbn [map fst snd]. apply wordsText_nonempty.
    cbn [forallb fst] in Hitems. apply andb_true_iff in Hitems.
    destruct Hitems as [Hi _]. apply isWord_spec. apply isItem_word. exact Hi.
Qed.

(** C2, for at least one token: when the first [<coordinates>] of the
    text opens a block whose text is made of items separated by white
    space, [N >= 1] of them tokens [lon,lat] or [lon,lat,alt] with decimal
    numerals for [lon] and [lat] and the others text of which [Number]
    makes no longitude or no latitude, the text is parsed into exactly
    [N] coordinates, in the order of the tokens; the coordinate of a token
    has the binary64 number nearest to the second component as latitude
    and the one nearest to the first as longitude; the altitude is
    dropped. *)
Theorem parseKml_reads_every_token pre w0 items post :
  validTokensOf items <> [] ->
  noBlock pre = true ->
  allWhite w0 = true ->
  forallb (fun iw => isItem (fst iw)) items = true ->
  spaced items = true ->
  exists coords,
    parseKml (pre ++ blockText (itemsText w0 items) ++ post) = Return coords /\
    length coords = length (validTokensOf items) /\
    coords = map tokenPoint (validTokensOf items).
Proof.
  intros Hne Hpre Hw0 Hitems Hsp.
  exists (map tokenPoint (validTokensOf items)).
  rewrite parseKml_orThrow, (kmlCoords_items pre w0 items post); try assumption.
  - split; [|split; [apply length_map|reflexivity]].
    apply orThrow_nonempty. destruct (validTokensOf items); [congruence|discriminate].
  - intros E. rewrite E in Hne. apply Hne. reflexivity.
Qed.

(** The example of the specification, through the theorem. *)
Lemma parseKml_reads_every_token_example :
  validTokensOf kmlExample <> [] /\
  noBlock [] = true /\
  allWhite [] = true /\
  forallb (fun iw => isItem (fst iw)) kmlExample = true /\
  spaced kmlExample = true /\
  exists coords,
    parseKml ([] ++ blockText (itemsText [] kmlExample) ++ []) = Return coords /\
    length coords = length (validTokensOf kmlExample) /\
    coords = map tokenPoint (validTokensOf kmlExample).
Proof.
  split; [discriminate|]. split; [reflexivity|]. split; [reflexivity|].
  split; [vm_compute; reflexivity|]. split; [vm_compute; reflexivity|].
  apply (parseKml_reads_every_token [] [] kmlExample []);
    [discriminate | reflexivity | reflexivity
    | vm_compute; reflexivity | vm_compute; reflexivity].
Defined.

(** The KML example of the specification. *)
Example parseKml_specification_example :
  [] ++ blockText (itemsText [] kmlExample) ++ [] =
    lit "<coordinates>7.5,45.0,0 7.6,45.1,0</coordinates>" /\
  parseKml (lit "<coordinates>7.5,45.0,0 7.6,45.1,0</coordinates>") =
    Return [ {| lat := Finite false 45; lon := Finite false (15 # 2) |};
             {| lat := binary64 false (451 # 10); lon := binary64 false (38 # 5) |} ].
Proof. split; vm_compute; reflexivity. Qed.

(** A block with other text among its tokens, and a block whose numerals
    lie beyond binary64: [1e400] is read as Infinity and
    [9007199254740993] as its even neighbour. *)
Example parseKml_mixed_example :
  blockText (itemsText [] kmlMixedExample) =
    lit "<coordinates>7.5,45.0 x,1 8 7.6,45.1,30</coordinates>" /\
  forallb (fun iw => isItem (fst iw)) kmlMixedExample = true /\
  parseKml (blockText (itemsText [] kmlMixedExample)) =
    Return (map tokenPoint (validTokensOf kmlMixedExample)) /\
  length (validTokensOf kmlMixedExample) = 2 /\
  parseKml (lit "<coordinates>1e400,0 9007199254740993,-1e-400</coordinates>") =
    Return [ {| lat := Finite false 0; lon := Infinity false |};
             {| lat := Finite true 0; lon := Finite false 9007199254740992 |} ].
Proof. repeat split; vm_compute; reflexivity. Qed.

(** C2 as stated fails when the block has no token: the text has a single
    block with zero tokens and the parser, instead of returning zero
    coordinates, throws. *)
Lemma parseKml_without_token_throws :
  noBlock (lit "<kml>") = true /\ allWhite (lit " ") = true /\
  forallb (fun iw : Item * str => isItem (fst iw)) [] = true /\
  spaced (@nil (Item * str)) = true /\
  parseKml (lit "<kml>" ++ blockText (itemsText (lit " ") []) ++ lit "</kml>") =
    Throw kmlErrorMessage /\
  ~ (exists coords,
       parseKml (lit "<kml>" ++ blockText (itemsText (lit " ") []) ++ lit "</kml>") =
         Return coords /\
       length coords = length (validTokensOf [])).
Proof.
  assert (E : parseKml (lit "<kml>" ++ blockText (itemsText (lit " ") []) ++ lit "</kml>")
              = Throw kmlErrorMessage) by (vm_compute; reflexivity).
  split; [vm_compute; reflexivity|]. split; [reflexivity|]. split; [reflexivity|].
  split; [reflexivity|]. split; [exact E|].
  intros [coords [H _]]. rewrite E in H. discriminate.
Qed.

(** C8, for the first block the pattern matches: when a block whose text
    is not empty and has no [<] stands behind text that holds no such
    block, the result is made from the tokens of that block alone; what
    follows the block, later blocks included, has no part in it. *)
Theorem parseKml_uses_first_block_only pre body post :
  ~ holdsBlock pre -> body <> [] -> lacks lessThan body = true ->
  parseKml (pre ++ blockText body ++ post) =
    orThrow kmlErrorMessage (flat_map contribution (coordPairsOf body)) /\
  forall post',
    parseKml (pre ++ blockText body ++ post') = parseKml (pre ++ blockText body ++ post).
Proof.
  intros Hpre Hne Hb. split.
  - rewrite parseKml_orThrow, (kmlCoords_block pre body post Hpre Hne Hb). reflexivity.
  - intros post'. rewrite !parseKml_orThrow.
    rewrite (kmlCoords_block pre body post Hpre Hne Hb).
    rewrite (kmlCoords_block pre body post' Hpre Hne Hb). reflexivity.
Qed.

(** Three blocks, the first empty: the second is the one that is used. *)
Lemma parseKml_uses_first_block_only_example :
  ~ holdsBlock (lit "<kml>" ++ blockText []) /\
  lit "7.5,45.0,0" <> [] /\
  lacks lessThan (lit "7.5,45.0,0") = true /\
  parseKml ((lit "<kml>" ++ blockText []) ++
            blockText (lit "7.5,45.0,0") ++ blockText (lit "9,9")) =
    orThrow kmlErrorMessage (flat_map contribution (coordPairsOf (lit "7.5,45.0,0"))) /\
  forall post',
    parseKml ((lit "<kml>" ++ blockText []) ++ blockText (lit "7.5,45.0,0") ++ post') =
    parseKml ((lit "<kml>" ++ blockText []) ++
              blockText (lit "7.5,45.0,0") ++ blockText (lit "9,9")).
Proof.
  assert (Hpre : ~ holdsBlock (lit "<kml>" ++ blockText []))
    by (apply exec_None_no_block; vm_compute; reflexivity).
  split; [exact Hpre|]. split; [discriminate|].
  split; [vm_compute; reflexivity|].
  apply (parseKml_uses_first_block_only (lit "<kml>" ++ blockText [])
           (lit "7.5,45.0,0") (blockText (lit "9,9")));
    [exact Hpre | discriminate | vm_compute; reflexivity].
Defined.

(** C8 as stated fails when the pattern cannot match the first block. An
    empty first block is passed over, and the coordinate returned stands
    in the second block only; a first block with a comment between its
    tokens is passed over too, tokens and all. *)
Lemma parseKml_unmatched_first_block_uses_second :
  (parseKml (blockText [] ++ blockText (lit "7.5,45.0")) =
     Return [ {| lat := Finite false 45; lon := Finite false (15 # 2) |} ] /\
   flat_map contribution (coordPairsOf []) = [] /\
   parseKml (blockText [] ++ blockText (lit "7.5,45.0")) <>
     orThrow kmlErrorMessage (flat_map contribution (coordPairsOf []))) /\
  (parseKml (blockText (lit "1,2<!-- via -->3,4") ++ blockText (lit "7.5,45.0")) =
     Return [ {| lat := Finite false 45; lon := Finite false (15 # 2) |} ] /\
   parseKml (blockText (lit "1,2<!-- via -->3,4") ++ blockText (lit "7.5,45.0")) =
     parseKml (blockText (lit "7.5,45.0"))).
Proof.
  assert (E : parseKml (blockText [] ++ blockText (lit "7.5,45.0")) =
              Return [ {| lat := Finite false 45; lon := Finite false (15 # 2) |} ])
    by (vm_compute; reflexivity).
  assert (E0 : flat_map contribution (coordPairsOf []) = []) by (vm_compute; reflexivity).
  split; [split; [exact E|split; [exact E0|]]|split].
  - rewrite E, E0. discriminate.
  - vm_compute. reflexivity.
  - vm_compute. reflexivity.
Qed.

(** Where the search finds a match, the text holds a block. *)
Lemma execFrom_Some_holdsBlock s : forall i m,
  execFrom coordinatesPattern i s = Some m -> holdsBlock s.
Proof.
  induction s as [|a s IH]; intros i m; cbn [execFrom].
  - destruct (matchAt coordinatesPattern i []) as [m'|] eqn:E; [|discriminate].
    intros _. destruct (matchAt_coordinates_Some _ _ _ E) as [body [after [Hs [Hne Hb]]]].
    exists [], body, after. auto.
  - destruct (matchAt coordinatesPattern i (a :: s)) as [m'|] eqn:E.
    + intros _. destruct (matchAt_coordinates_Some _ _ _ E) as [body [after [Hs [Hne Hb]]]].
      exists [], body, after. auto.
    + intros H. destruct (IH _ _ H) as [before [body [after [Hs [Hne Hb]]]]].
      exists (a :: before), body, after. rewrite Hs. auto.
Qed.

Lemma blockTokens_block pre body post :
  ~ holdsBlock pre -> body <> [] -> lacks lessThan body = true ->
  blockTokens (pre ++ blockText body ++ post) = coordPairsOf body.
Proof.
  intros Hpre Hne Hb. unfold blockTokens.
  rewrite (exec_block pre body post Hpre Hne Hb).
  unfold group. cbn [groups nth_error Nat.sub toStringArg truthyStr].
  destruct body; [congruence|reflexivity].
Qed.

Lemma blockTokens_no_block s : ~ holdsBlock s -> blockTokens s = [].
Proof.
  intros H. unfold blockTokens, exec.
  destruct (execFrom coordinatesPattern 0 s) as [m|] eqn:E; [|reflexivity].
  exfalso. apply H. exact (execFrom_Some_holdsBlock s 0 m E).
Qed.

(** C9, for the first block the pattern matches: the tokens [parseKml]
    goes through are the tokens of the first block whose text is not
    empty and has no [<], and there are none when the text holds no such
    block; the tokens of a text are the words that white space separates
    in it. Each of them is taken by itself. A token
    whose longitude or latitude is missing or is not a number adds
    nothing to the list and stops nothing; a token whose first two
    components are numbers adds exactly one coordinate, and so does
    [7.5,], whose empty second component is the number 0. The only error
    is the one for a list that ends up empty. *)
Theorem parseKml_drops_unparsed_tokens :
  (forall pre body post,
     ~ holdsBlock pre -> body <> [] -> lacks lessThan body = true ->
     blockTokens (pre ++ blockText body ++ post) = coordPairsOf body) /\
  (forall s, ~ holdsBlock s -> blockTokens s = []) /\
  (forall w0 ws,
     ws <> [] -> allWhite w0 = true ->
     forallb (fun tw => isWord (fst tw)) ws = true -> spaced ws = true ->
     coordPairsOf (wordsText w0 ws) = map fst ws) /\
  (forall coords pair, pushPair coords pair = coords ++ contribution pair) /\
  (forall pair,
     parses (component pair 0) && parses (component pair 1) = false ->
     contribution pair = []) /\
  (forall pair lo la,
     component pair 0 = Some lo -> component pair 1 = Some la ->
     isNaN lo = false -> isNaN la = false ->
     contribution pair = [ {| lat := la; lon := lo |} ]) /\
  (forall s,
     kmlCoords s = fold_left pushPair (blockTokens s) [] /\
     parseKml s = orThrow kmlErrorMessage (flat_map contribution (blockTokens s))) /\
  contribution (lit "7.5,") =
    [ {| lat := Finite false 0; lon := Finite false (15 # 2) |} ] /\
  blockTokens (lit "<coordinates>7.5,45.0 x,1 8 7.6,45.1,30</coordinates>") =
    [lit "7.5,45.0"; lit "x,1"; lit "8"; lit "7.6,45.1,30"] /\
  parseKml (lit "<coordinates>7.5,45.0 x,1 8 7.6,45.1,30</coordinates>") =
    Return [ {| lat := Finite false 45; lon := Finite false (15 # 2) |};
             {| lat := binary64 false (451 # 10); lon := binary64 false (38 # 5) |} ].
Proof.
  split; [exact blockTokens_block|]. split; [exact blockTokens_no_block|].
  split; [exact coordPairsOf_wordsText|].
  split; [|split; [|split; [|split; [|split; [|split]]]]].
  - exact pushPair_contribution.
  - intros pair H. unfold contribution. rewrite H. reflexivity.
  - intros pair lo la Hlo Hla Nlo Nla. unfold contribution, parses.
    rewrite Hlo, Hla, Nlo, Nla. reflexivity.
  - intros s. split.
    + unfold kmlCoords, blockTokens.
      destruct (exec coordinatesPattern s) as [m|]; [|reflexivity].
      destruct (truthyStr (group m 1)); reflexivity.
    + rewrite parseKml_orThrow, kmlCoords_blockTokens. reflexivity.
  - vm_compute. reflexivity.
  - vm_compute. reflexivity.
  - vm_compute. reflexivity.
Qed.

(** C9 as stated fails for a first block that the pattern does not
    match. The first block of the text below holds a comment; its tokens
    [1,2] and [3,4] each have two components that are numbers, yet
    neither contributes a coordinate: alone the text is refused, and
    before a second block only the token of that block is returned. *)
Lemma parseKml_passes_over_tokens_of_unmatched_block :
  coordPairsOf (lit "1,2 <!-- via --> 3,4") =
    [lit "1,2"; lit "<!--"; lit "via"; lit "-->"; lit "3,4"] /\
  contribution (lit "1,2") = [ {| lat := Finite false 2; lon := Finite false 1 |} ] /\
  contribution (lit "3,4") = [ {| lat := Finite false 4; lon := Finite false 3 |} ] /\
  parseKml (blockText (lit "1,2 <!-- via --> 3,4")) = Throw kmlErrorMessage /\
  parseKml (blockText (lit "1,2 <!-- via --> 3,4")) <>
    orThrow kmlErrorMessage
      (flat_map contribution (coordPairsOf (lit "1,2 <!-- via --> 3,4"))) /\
  parseKml (blockText (lit "1,2 <!-- via --> 3,4") ++ blockText (lit "7.5,45.0")) =
    Return [ {| lat := Finite false 45; lon := Finite false (15 # 2) |} ].
Proof.
  assert (E : parseKml (blockText (lit "1,2 <!-- via --> 3,4")) = Throw kmlErrorMessage)
    by (vm_compute; reflexivity).
  split; [vm_compute; reflexivity|]. split; [vm_compute; reflexivity|].
  split; [vm_compute; reflexivity|]. split; [exact E|]. split.
  - rewrite E. vm_compute. discriminate.
  - vm_compute. reflexivity.
Qed.

(** C4: a parser that has extracted no coordinate throws the message that
    names its format, and so a sequence that a parser returns has at least
    one coordinate. *)
Theorem parsers_never_return_empty :
  (forall s, gpxCoords s = [] ->
     parseGpx s = Throw (lit "No track points found in GPX file.")) /\
  (forall s coords, parseGpx s = Return coords -> 1 <= length coords) /\
  (forall s, kmlCoords s = [] ->
     parseKml s = Throw (lit "No coordinates found in KML file.")) /\
  (forall s coords, parseKml s = Return coords -> 1 <= length coords) /\
  includes gpxErrorMessage (lit "GPX") = true /\
  includes kmlErrorMessage (lit "KML") = true.
Proof.
  split; [|split; [|split; [|split; [|split]]]].
  - intros s H. unfold parseGpx. rewrite H. reflexivity.
  - intros s coords. unfold parseGpx.
    destruct (gpxCoords s) as [|c cs]; cbn; [discriminate|].
    intros H. injection H as <-. cbn. lia.
  - intros s H. unfold parseKml. rewrite H. reflexivity.
  - intros s coords. unfold parseKml.
    destruct (kmlCoords s) as [|c cs]; cbn; [discriminate|].
    intros H. injection H as <-. cbn. lia.
  - vm_compute. reflexivity.
  - vm_compute. reflexivity.
Qed.

End Kml.

(* ===================================================================== *)
(** ** Properties of the video job client *)
(* ===================================================================== *)

Section VideoJob.
Import JS GeminiService.
Import ITreeNotations.
Local Open Scope itree_scope.

Variable svc : Service.

(** One unfolding of [ITree.iter], seen through [observe]. *)
Lemma observe_iter {E I A} (body : I -> itree E (I + A)) (i : I) :
  observe (ITree.iter body i) =
  observe (ITree.bind (body i) (fun lr =>
             match lr with
             | inl l => Tau (ITree.iter body l)
             | inr r => Ret r
             end)).
Proof. reflexivity. Qed.

(** [run] only looks at a tree through [observe]. *)
Lemma run_observe {R} n (t u : itree veoE R) st :
  observe t = observe u -> run n svc t st = run n svc u st.
Proof. intros H. destruct n; cbn [run]; [reflexivity|]. rewrite H. reflexivity. Qed.

(** A run that has finished stays as it is when more steps are allowed. *)
Lemma run_finished {R} n : forall (t : itree veoE R) st r st',
  run n svc t st = (Some r, st') ->
  forall m, n <= m -> run m svc t st = (Some r, st').
Proof.
  induction n as [|n IH]; intros t st r st' H m Hm; [discriminate|].
  destruct m as [|m]; [lia|]. cbn [run] in *.
  destruct (observe t) as [r0|t'|X e k].
  - exact H.
  - apply (IH _ _ _ _ H). lia.
  - destruct (handle svc e st) as [x st0]. apply (IH _ _ _ _ H). lia.
Qed.

(** Nested sequencing runs like flat sequencing. *)
Lemma run_bind_bind {A B C} n : forall (t : itree veoE A) (k1 : A -> itree veoE B)
    (k2 : B -> itree veoE C) st,
  run n svc (ITree.bind (ITree.bind t k1) k2) st =
  run n svc (ITree.bind t (fun x => ITree.bind (k1 x) k2)) st.
Proof.
  induction n as [|n IH]; intros t k1 k2 st; [reflexivity|].
  cbn [run]. rewrite (observe_bind (ITree.bind t k1)), (observe_bind t k1).
  rewrite (observe_bind t (fun x => ITree.bind (k1 x) k2)).
  destruct (observe t) as [r|t'|X e h]; cbn.
  - rewrite (observe_bind (k1 r) k2). reflexivity.
  - apply IH.
  - destruct (handle svc e st) as [x st']. apply IH.
Qed.

Lemma run_ret_bind {A B} n (a : A) (k : A -> itree veoE B) st :
  run n svc (ITree.bind (Ret a) k) st = run n svc (k a) st.
Proof. apply run_observe. reflexivity. Qed.

(** The loop is left at once when the operation is done. *)
Lemma run_poll_done {R} n operation (K : Thrown + Operation -> itree veoE R) st :
  isDone operation = true ->
  run n svc (ITree.bind (pollLoop operation) K) st = run n svc (K (inr operation)) st.
Proof.
  intros Hd. apply run_observe. unfold pollLoop.
  rewrite observe_bind, observe_iter, observe_bind. unfold pollStep. rewrite Hd.
  reflexivity.
Qed.

(** One turn of the loop: a wait, a status query, and round again. *)
Lemma run_poll_step {R} n operation (K : Thrown + Operation -> itree veoE R) st operation' :
  isDone operation = false ->
  getVideosOperation svc (queries st) operation = inr operation' ->
  run (3 + n) svc (ITree.bind (pollLoop operation) K) st =
  run n svc (ITree.bind (pollLoop operation') K)
    {| queries := S (queries st);
       trace := trace st ++ [Slept 10000; Queried operation] |}.
Proof.
  intros Hd Hq. unfold pollLoop.
  cbn [run plus]. rewrite observe_bind, observe_iter, observe_bind.
  unfold pollStep at 1. rewrite Hd. rewrite observe_bind. cbn.
  rewrite Hq. cbn. rewrite <- app_assoc. reflexivity.
Qed.

(** A status query that rejects leaves the loop with what it rejected
    with. *)
Lemma run_poll_reject {R} n operation (K : Thrown + Operation -> itree veoE R) st error :
  isDone operation = false ->
  getVideosOperation svc (queries st) operation = inl error ->
  run (2 + n) svc (ITree.bind (pollLoop operation) K) st =
  run n svc (K (inl error))
    {| queries := S (queries st);
       trace := trace st ++ [Slept 10000; Queried operation] |}.
Proof.
  intros Hd Hq. unfold pollLoop.
  cbn [run plus]. rewrite observe_bind, observe_iter, observe_bind.
  unfold pollStep at 1. rewrite Hd. rewrite observe_bind. cbn.
  rewrite Hq. rewrite <- app_assoc. apply run_observe. reflexivity.
Qed.

(** The submission, when it is accepted, leads into the loop. *)
Lemma run_submit_accepted n img operation st :
  generateVideos svc (request img) = inr operation ->
  run (S n) svc (generateRouteVideo img) st =
  run n svc (ITree.bind (pollLoop operation) afterLoop)
    (record (Submitted (request img)) st).
Proof.
  intros Hs. unfold generateRouteVideo, tryBlock.
  rewrite run_bind_bind. cbn [run]. rewrite observe_bind. cbn.
  rewrite Hs. rewrite run_ret_bind. rewrite run_bind_bind. reflexivity.
Qed.

Lemma run_submit_rejected n img error st :
  generateVideos svc (request img) = inl error ->
  run (S n) svc (generateRouteVideo img) st =
  run n svc (catchBlock error) (record (Submitted (request img)) st).
Proof.
  intros Hs. unfold generateRouteVideo, tryBlock.
  rewrite run_bind_bind. cbn [run]. rewrite observe_bind. cbn.
  rewrite Hs. rewrite run_ret_bind. rewrite run_ret_bind. reflexivity.
Qed.

Lemma run_catchBlock n error st :
  run (2 + n) svc (catchBlock error) st =
  (Some (inl (ErrorObject (if isInvalidKeyError error
                           then invalidKeyMessage else genericMessage))),
   record (Logged (lit "Error generating video with Gemini:") error) st).
Proof.
  unfold catchBlock. cbn [run plus]. rewrite observe_bind. cbn.
  destruct (isInvalidKeyError error); reflexivity.
Qed.

Lemma run_afterLoop n operation st :
  run (3 + n) svc (afterLoop (inr operation)) st =
  match extractLink operation with
  | inr link => (Some (inr link), st)
  | inl error =>
      (Some (inl (ErrorObject (if isInvalidKeyError error
                               then invalidKeyMessage else genericMessage))),
       record (Logged (lit "Error generating video with Gemini:") error) st)
  end.
Proof.
  unfold afterLoop, afterPolling. rewrite run_ret_bind.
  destruct (extractLink operation) as [error|link]; cbn [settle].
  - apply (run_catchBlock (S n) _ _).
  - reflexivity.
Qed.


Lemma waits_turn st q operation :
  waits {| queries := q; trace := trace st ++ [Slept 10000; Queried operation] |}
  = S (waits st).
Proof. unfold waits. cbn. rewrite filter_app, length_app. cbn. lia. Qed.

Lemma requeries_turn st q operation :
  requeries {| queries := q; trace := trace st ++ [Slept 10000; Queried operation] |}
  = S (requeries st).
Proof. unfold requeries. cbn. rewrite filter_app, length_app. cbn. lia. Qed.

(** While the job is pending the loop does not finish, whatever the number
    of steps. *)
Lemma poll_pending_no_result {R} (K : Thrown + Operation -> itree veoE R) :
  neverDone svc ->
  forall n operation st,
    isDone operation = false ->
    fst (run n svc (ITree.bind (pollLoop operation) K) st) = None.
Proof.
  intros Hnever n. induction n as [n IH] using lt_wf_ind.
  intros operation st Hd.
  destruct (Hnever (queries st) operation) as [operation' [Hq Hd']].
  destruct n as [|[|[|n]]].
  - reflexivity.
  - unfold pollLoop. cbn [run]. rewrite observe_bind, observe_iter, observe_bind.
    unfold pollStep at 1. rewrite Hd. rewrite observe_bind. reflexivity.
  - unfold pollLoop. cbn [run]. rewrite observe_bind, observe_iter, observe_bind.
    unfold pollStep at 1. rewrite Hd. rewrite observe_bind. reflexivity.
  - change (S (S (S n))) with (3 + n). rewrite (run_poll_step n _ K _ _ Hd Hq).
    apply IH; [lia | exact Hd'].
Qed.

(** After [3 * k] steps the loop has waited and queried [k] more times and
    is still polling. *)
Lemma poll_pending_turns {R} (K : Thrown + Operation -> itree veoE R) :
  neverDone svc ->
  forall k operation st,
    isDone operation = false ->
    exists st',
      snd (run (3 * k) svc (ITree.bind (pollLoop operation) K) st) = st' /\
      waits st' = k + waits st /\ requeries st' = k + requeries st.
Proof.
  intros Hnever k. induction k as [|k IH]; intros operation st Hd.
  - exists st. repeat split; reflexivity.
  - destruct (Hnever (queries st) operation) as [operation' [Hq Hd']].
    replace (3 * S k) with (3 + 3 * k) by lia.
    rewrite (run_poll_step (3 * k) _ K _ _ Hd Hq).
    destruct (IH operation'
                {| queries := S (queries st);
                   trace := trace st ++ [Slept 10000; Queried operation] |} Hd')
      as [st' [Hrun [Hw Hr]]].
    exists st'. rewrite Hrun, Hw, Hr, waits_turn, requeries_turn.
    repeat split; lia.
Qed.

(** C6: when the submitted operation and the answer to the first status
    query are not done and the answer to the second is, the function
    finishes, and when it has finished it has made exactly two waits of 10
    seconds and two status queries, each wait followed by its query, and
    its result is what the extraction makes of the third operation. *)
Theorem polling_waits_twice_then_extracts img op0 op1 op2 :
  generateVideos svc (request img) = inr op0 -> isDone op0 = false ->
  getVideosOperation svc 0 op0 = inr op1 -> isDone op1 = false ->
  getVideosOperation svc 1 op1 = inr op2 -> isDone op2 = true ->
  exists n r st,
    (forall m, n <= m ->
       run m svc (generateRouteVideo img) initial = (Some r, st)) /\
    waits st = 2 /\ requeries st = 2 /\
    match extractLink op2 with
    | inr link =>
        r = inr link /\
        trace st = [Submitted (request img);
                    Slept 10000; Queried op0; Slept 10000; Queried op1]
    | inl error =>
        r = inl (ErrorObject (if isInvalidKeyError error
                              then invalidKeyMessage else genericMessage)) /\
        trace st = [Submitted (request img);
                    Slept 10000; Queried op0; Slept 10000; Queried op1;
                    Logged (lit "Error generating video with Gemini:") error]
    end.
Proof.
  intros Hs Hd0 Hq0 Hd1 Hq1 Hd2.
  assert (Hrun : run (S (3 + (3 + 3))) svc (generateRouteVideo img) initial =
                 run 3 svc (afterLoop (inr op2))
                   {| queries := 2;
                      trace := [Submitted (request img);
                                Slept 10000; Queried op0; Slept 10000; Queried op1] |}).
  { rewrite (run_submit_accepted _ _ _ _ Hs).
    rewrite (run_poll_step (3 + 3) _ afterLoop
               (record (Submitted (request img)) initial) _ Hd0 Hq0).
    rewrite (run_poll_step 3 _ afterLoop
               {| queries := S (queries (record (Submitted (request img)) initial));
                  trace := trace (record (Submitted (request img)) initial)
                             ++ [Slept 10000; Queried op0] |} _ Hd1 Hq1).
    rewrite (run_poll_done _ _ afterLoop _ Hd2). reflexivity. }
  rewrite (run_afterLoop 0 _ _) in Hrun.
  exists (S (3 + (3 + 3))).
  destruct (extractLink op2) as [error|link];
    eexists; eexists;
    (split; [intros m Hm; exact (run_finished _ _ _ _ _ Hrun m Hm)|]);
    repeat split; reflexivity.
Qed.

(** C7: for a job that never reports completion, the function has no
    result after any number of steps, and for every [k] it reaches a state
    with more than [k] waits and more than [k] status queries behind it. *)
Theorem polling_is_unbounded img op0 :
  generateVideos svc (request img) = inr op0 -> isDone op0 = false ->
  neverDone svc ->
  (forall n, fst (run n svc (generateRouteVideo img) initial) = None) /\
  (forall k, exists n,
      k < waits (snd (run n svc (generateRouteVideo img) initial)) /\
      k < requeries (snd (run n svc (generateRouteVideo img) initial))).
Proof.
  intros Hs Hd0 Hnever. split.
  - intros [|n]; [reflexivity|].
    rewrite (run_submit_accepted _ _ _ _ Hs).
    apply poll_pending_no_result; assumption.
  - intros k. exists (S (3 * S k)).
    rewrite (run_submit_accepted _ _ _ _ Hs).
    destruct (poll_pending_turns afterLoop Hnever (S k) _
                (record (Submitted (request img)) initial) Hd0)
      as [st' [Hrun [Hw Hr]]].
    rewrite Hrun, Hw, Hr. lia.
Qed.

(** C5: when the submission is rejected, the function rejects with the
    credential message if what was thrown is an [Error] whose message
    contains "API key not valid", and with the generic message for
    anything else. *)
Theorem submission_failure_message img error :
  generateVideos svc (request img) = inl error ->
  exists n st,
    forall m, n <= m ->
    run m svc (generateRouteVideo img) initial =
    (Some (inl (ErrorObject
       match error with
       | ErrorObject message =>
           if includes message (lit "API key not valid")
           then lit "The provided API Key is invalid. Please check your configuration."
           else lit "Failed to generate video. The AI model may be busy or an error occurred."
       | OtherValue _ =>
           lit "Failed to generate video. The AI model may be busy or an error occurred."
       end)), st).
Proof.
  intros Hs. exists 3. eexists. intros m Hm.
  apply (run_finished 3); [|exact Hm].
  rewrite (run_submit_rejected _ _ _ _ Hs).
  rewrite (run_catchBlock 0 _ _).
  destruct error as [message|v]; cbn [isInvalidKeyError];
    [destruct (includes message _)|]; reflexivity.
Qed.

(** An operation that is done and carries no download link makes the
    function reject with the generic message, not with the message of the
    [throw] after the loop; that message only reaches the log. *)
Lemma completed_without_link_is_reported_as_generic img operation :
  generateVideos svc (request img) = inr operation ->
  isDone operation = true ->
  downloadLinkOf operation = None ->
  exists n st,
    (forall m, n <= m ->
       run m svc (generateRouteVideo img) initial =
         (Some (inl (ErrorObject genericMessage)), st)) /\
    trace st = [Submitted (request img);
                Logged (lit "Error generating video with Gemini:")
                       (ErrorObject noLinkMessage)].
Proof.
  intros Hs Hd Hl. exists (S 3). eexists.
  split; [intros m Hm; apply (run_finished (S 3)); [|exact Hm]|].
  - rewrite (run_submit_accepted _ _ _ _ Hs).
    rewrite (run_poll_done _ _ afterLoop _ Hd).
    rewrite (run_afterLoop 0 _ _). unfold extractLink. rewrite Hl.
    reflexivity.
  - reflexivity.
Qed.

(** A submission that is rejected with an [Error] that does not speak of
    the key gets the generic message. *)
Lemma rejected_submission_is_reported_as_generic img message :
  generateVideos svc (request img) = inl (ErrorObject message) ->
  includes message (lit "API key not valid") = false ->
  exists n st,
    forall m, n <= m ->
      run m svc (generateRouteVideo img) initial =
        (Some (inl (ErrorObject genericMessage)), st).
Proof.
  intros Hs Hm. exists 3. eexists. intros m Hle.
  apply (run_finished 3); [|exact Hle].
  rewrite (run_submit_rejected _ _ _ _ Hs).
  rewrite (run_catchBlock 0 _ _). cbn [isInvalidKeyError]. rewrite Hm.
  reflexivity.
Qed.

End VideoJob.

Section VideoJobCases.
Import JS GeminiService Samples.

(** C6 at a service that is done at the second status query. *)
Lemma polling_waits_twice_then_extracts_example :
  generateVideos doneAtSecondQuery (request mapImage) = inr pending /\
  isDone pending = false /\
  getVideosOperation doneAtSecondQuery 0 pending = inr pending /\
  getVideosOperation doneAtSecondQuery 1 pending = inr finished /\
  isDone finished = true /\
  exists n r st,
    (forall m, n <= m ->
       run m doneAtSecondQuery (generateRouteVideo mapImage) initial = (Some r, st)) /\
    waits st = 2 /\ requeries st = 2 /\
    match extractLink finished with
    | inr link =>
        r = inr link /\
        trace st = [Submitted (request mapImage);
                    Slept 10000; Queried pending; Slept 10000; Queried pending]
    | inl error =>
        r = inl (ErrorObject (if isInvalidKeyError error
                              then invalidKeyMessage else genericMessage)) /\
        trace st = [Submitted (request mapImage);
                    Slept 10000; Queried pending; Slept 10000; Queried pending;
                    Logged (lit "Error generating video with Gemini:") error]
    end.
Proof.
  split; [reflexivity|]. split; [reflexivity|]. split; [reflexivity|].
  split; [reflexivity|]. split; [reflexivity|].
  apply (polling_waits_twice_then_extracts doneAtSecondQuery mapImage
           pending pending finished); reflexivity.
Defined.

Lemma stuck_neverDone : neverDone stuck.
Proof. intros n operation. exists pending. split; reflexivity. Defined.

(** C7 at a service that is never done. *)
Lemma polling_is_unbounded_example :
  generateVideos stuck (request mapImage) = inr pending /\
  isDone pending = false /\
  neverDone stuck /\
  (forall n, fst (run n stuck (generateRouteVideo mapImage) initial) = None) /\
  (forall k, exists n,
      k < waits (snd (run n stuck (generateRouteVideo mapImage) initial)) /\
      k < requeries (snd (run n stuck (generateRouteVideo mapImage) initial))).
Proof.
  split; [reflexivity|]. split; [reflexivity|]. split; [exact stuck_neverDone|].
  apply (polling_is_unbounded stuck mapImage pending);
    [reflexivity | reflexivity | exact stuck_neverDone].
Defined.

(** C5 at a submission rejected for its credential. *)
Lemma submission_failure_message_example :
  generateVideos refusesKey (request mapImage) =
    inl (ErrorObject (lit "API key not valid. Please pass a valid API key.")) /\
  exists n st,
    forall m, n <= m ->
    run m refusesKey (generateRouteVideo mapImage) initial =
    (Some (inl (ErrorObject
       (if includes (lit "API key not valid. Please pass a valid API key.")
                    (lit "API key not valid")
        then lit "The provided API Key is invalid. Please check your configuration."
        else lit "Failed to generate video. The AI model may be busy or an error occurred."))),
     st).
Proof.
  split; [reflexivity|].
  apply (submission_failure_message refusesKey mapImage
           (ErrorObject (lit "API key not valid. Please pass a valid API key."))).
  reflexivity.
Defined.

(** C3, as the code behaves: for a job that is done and has no video, the
    function rejects with the generic message, the very message it
    rejects with when the submission does not reach the service; the
    message of the [throw] after the loop is another one, and it only
    reaches the log. *)
Theorem completed_without_link_gets_generic_message :
  (exists n st,
     (forall m, n <= m ->
        run m completesWithoutLink (generateRouteVideo mapImage) initial =
          (Some (inl (ErrorObject genericMessage)), st)) /\
     trace st = [Submitted (request mapImage);
                 Logged (lit "Error generating video with Gemini:")
                        (ErrorObject noLinkMessage)]) /\
  (exists n st,
     forall m, n <= m ->
       run m unreachable (generateRouteVideo mapImage) initial =
         (Some (inl (ErrorObject genericMessage)), st)) /\
  str_eqb genericMessage noLinkMessage = false.
Proof.
  split; [|split].
  - exact (completed_without_link_is_reported_as_generic
             completesWithoutLink mapImage finishedWithoutLink
             eq_refl eq_refl eq_refl).
  - exact (rejected_submission_is_reported_as_generic
             unreachable mapImage (lit "fetch failed") eq_refl eq_refl).
  - vm_compute. reflexivity.
Qed.

End VideoJobCases.

(* ===================================================================== *)
(** ** Running programs: general facts *)
(* ===================================================================== *)

Section ExecutionFacts.
Import Execution.

Context {E : Type -> Type} {W : Type}.
Variable h : Handler E W.

(** [exec] only looks at a tree through [observe]. *)
Lemma exec_observe {R} n (t u : itree E R) w :
  observe t = observe u -> exec h n t w = exec h n u w.
Proof. intros H. destruct n; cbn [exec]; [reflexivity|]. rewrite H. reflexivity. Qed.

(** A run that has finished stays as it is when more steps are allowed. *)
Lemma exec_finished {R} n : forall (t : itree E R) w r w',
  exec h n t w = (Some r, w') ->
  forall m, n <= m -> exec h m t w = (Some r, w').
Proof.
  induction n as [|n IH]; intros t w r w' H m Hm; [discriminate|].
  destruct m as [|m]; [lia|]. cbn [exec] in *.
  destruct (observe t) as [r0|t'|X e k].
  - exact H.
  - apply (IH _ _ _ _ H). lia.
  - destruct (h X e w) as [x w0]. apply (IH _ _ _ _ H). lia.
Qed.

(** A finished run ends in one result only. *)
Lemma finishes_unique {R} (t : itree E R) w r1 w1 r2 w2 :
  finishes h t w r1 w1 -> finishes h t w r2 w2 -> r1 = r2 /\ w1 = w2.
Proof.
  intros [n1 H1] [n2 H2].
  pose proof (exec_finished _ _ _ _ _ H1 (n1 + n2) (Nat.le_add_r _ _)) as H1'.
  pose proof (exec_finished _ _ _ _ _ H2 (n1 + n2) (Nat.le_add_l _ _)) as H2'.
  rewrite H1' in H2'. injection H2' as <- <-. split; reflexivity.
Qed.

(** A sequence that has finished: its first part has, and then the
    rest. *)
Lemma exec_bind_inv {A B} n : forall (t : itree E A) (k : A -> itree E B) w r w',
  exec h n (ITree.bind t k) w = (Some r, w') ->
  exists n1 a w1,
    1 <= n1 <= n /\
    exec h n1 t w = (Some a, w1) /\
    exec h (n - n1 + 1) (k a) w1 = (Some r, w').
Proof.
  induction n as [|n IH]; intros t k w r w' H; [discriminate|].
  cbn [exec] in H. rewrite observe_bind in H.
  destruct (observe t) as [a|t'|X e k'] eqn:Ht; cbn in H.
  - exists 1, a, w. split; [lia|]. split.
    + cbn [exec]. rewrite Ht. reflexivity.
    + replace (S n - 1 + 1) with (S n) by lia. cbn [exec]. exact H.
  - destruct (IH _ _ _ _ _ H) as (n1 & a & w1 & Hn & H1 & H2).
    exists (S n1), a, w1. split; [lia|]. split.
    + cbn [exec]. rewrite Ht. exact H1.
    + replace (S n - S n1 + 1) with (n - n1 + 1) by lia. exact H2.
  - destruct (h X e w) as [x w0] eqn:He.
    destruct (IH _ _ _ _ _ H) as (n1 & a & w1 & Hn & H1 & H2).
    exists (S n1), a, w1. split; [lia|]. split.
    + cbn [exec]. rewrite Ht, He. exact H1.
    + replace (S n - S n1 + 1) with (n - n1 + 1) by lia. exact H2.
Qed.

Lemma finishes_bind_inv {A B} (t : itree E A) (k : A -> itree E B) w r w' :
  finishes h (ITree.bind t k) w r w' ->
  exists a w1, finishes h t w a w1 /\ finishes h (k a) w1 r w'.
Proof.
  intros [n H]. destruct (exec_bind_inv _ _ _ _ _ _ H) as (n1 & a & w1 & _ & H1 & H2).
  exists a, w1. split; eexists; eassumption.
Qed.

(** And the other way round. *)
Lemma exec_bind {A B} n1 : forall (t : itree E A) (k : A -> itree E B) w a w1 m r w',
  exec h n1 t w = (Some a, w1) ->
  exec h m (k a) w1 = (Some r, w') ->
  exec h (n1 + m) (ITree.bind t k) w = (Some r, w').
Proof.
  induction n1 as [|n1 IH]; intros t k w a w1 m r w' H Hk; [discriminate|].
  cbn [exec] in H. cbn [exec plus]. rewrite observe_bind.
  destruct (observe t) as [a0|t'|X e k'] eqn:Ht; cbn.
  - injection H as <- <-.
    pose proof (exec_finished _ _ _ _ _ Hk (S (n1 + m)) ltac:(lia)) as Hk'.
    cbn [exec] in Hk'. exact Hk'.
  - apply (IH _ _ _ _ _ _ _ _ H Hk).
  - destruct (h X e w) as [x w0]. apply (IH _ _ _ _ _ _ _ _ H Hk).
Qed.

(** While the first part of a sequence has not finished, the sequence is
    where its first part is. *)
Lemma exec_bind_unfinished {A B} n : forall (t : itree E A) (k : A -> itree E B) w,
  fst (exec h n t w) = None ->
  exec h n (ITree.bind t k) w = (None, snd (exec h n t w)).
Proof.
  induction n as [|n IH]; intros t k w H; [reflexivity|].
  cbn [exec] in *. rewrite observe_bind.
  destruct (observe t) as [a|t'|X e k']; cbn in *.
  - discriminate.
  - apply IH. exact H.
  - destruct (h X e w) as [x w0]. apply IH. exact H.
Qed.

(** One step at an event. *)
Lemma exec_trigger_bind {X B} n (e : E X) (k : X -> itree E B) w :
  exec h (S n) (ITree.bind (ITree.trigger e) k) w =
  exec h n (k (fst (h X e w))) (snd (h X e w)).
Proof.
  cbn [exec]. rewrite observe_bind. cbn. destruct (h X e w) as [x w0]. cbn [fst snd].
  apply exec_observe. reflexivity.
Qed.

Lemma exec_trigger {X} n (e : E X) w :
  exec h (S (S n)) (ITree.trigger e) w = (Some (fst (h X e w)), snd (h X e w)).
Proof. cbn. destruct (h X e w). reflexivity. Qed.

Lemma exec_ret_bind {A B} n (a : A) (k : A -> itree E B) w :
  exec h n (ITree.bind (Ret a) k) w = exec h n (k a) w.
Proof. apply exec_observe. reflexivity. Qed.

Lemma exec_bind_bind {A B C} n : forall (t : itree E A) (k1 : A -> itree E B)
    (k2 : B -> itree E C) w,
  exec h n (ITree.bind (ITree.bind t k1) k2) w =
  exec h n (ITree.bind t (fun x => ITree.bind (k1 x) k2)) w.
Proof.
  induction n as [|n IH]; intros t k1 k2 w; [reflexivity|].
  cbn [exec]. rewrite (observe_bind (ITree.bind t k1)), (observe_bind t k1).
  rewrite (observe_bind t (fun x => ITree.bind (k1 x) k2)).
  destruct (observe t) as [r|t'|X e k]; cbn.
  - rewrite (observe_bind (k1 r) k2). reflexivity.
  - apply IH.
  - destruct (h X e w) as [x w']. apply IH.
Qed.

(** A finished event: the handler's answer, then the rest. *)
Lemma finishes_trigger w X (e : E X) r w' :
  finishes h (ITree.trigger e) w r w' -> r = fst (h X e w) /\ w' = snd (h X e w).
Proof.
  intros [n H]. destruct n as [|[|n]]; cbn in H.
  - discriminate.
  - destruct (h X e w); discriminate.
  - destruct (h X e w) as [x w0]. injection H as <- <-. split; reflexivity.
Qed.

Lemma finishes_ret {R} (a : R) w r w' :
  finishes h (Ret a) w r w' -> r = a /\ w' = w.
Proof.
  intros [n H]. destruct n; cbn in H; [discriminate|].
  injection H as <- <-. split; reflexivity.
Qed.

(** A loop that has finished has been left by one of its turns; what
    holds when the loop is entered and is kept by every turn that goes
    round again holds when that last turn starts. *)
Lemma exec_iter_inv {I R} (body : I -> itree E (I + R)) (J : I -> W -> Prop) :
  (forall i w i' w', J i w -> finishes h (body i) w (inl i') w' -> J i' w') ->
  forall n i w r w',
    J i w ->
    exec h n (ITree.iter body i) w = (Some r, w') ->
    exists i0 w0, J i0 w0 /\ finishes h (body i0) w0 (inr r) w'.
Proof.
  intros Hturn n. induction n as [n IH] using lt_wf_ind.
  intros i w r w' HJ H.
  rewrite (exec_observe n _ _ w (observe_iter body i)) in H.
  destruct (exec_bind_inv _ _ _ _ _ _ H) as (n1 & lr & w1 & Hn & H1 & H2).
  destruct lr as [i'|r'].
  - destruct (n - n1 + 1) as [|m] eqn:Em; [discriminate|].
    cbn [exec] in H2. cbn in H2.
    apply (IH m ltac:(lia) i' w1 r w').
    + apply (Hturn i w i' w1 HJ). exists n1. exact H1.
    + exact H2.
  - destruct (n - n1 + 1) as [|m] eqn:Em; [discriminate|].
    cbn in H2. injection H2 as <- <-.
    exists i, w. split; [exact HJ|]. exists n1. exact H1.
Qed.

(** What every event keeps, every run keeps. *)
Lemma exec_preserves {R} (J : W -> Prop) :
  (forall X (e : E X) w, J w -> J (snd (h X e w))) ->
  forall n (t : itree E R) w, J w -> J (snd (exec h n t w)).
Proof.
  intros Hstep n. induction n as [|n IH]; intros t w HJ; [exact HJ|].
  cbn [exec]. destruct (observe t) as [r|t'|X e k].
  - exact HJ.
  - apply IH. exact HJ.
  - pose proof (Hstep X e w HJ) as HJ'. destruct (h X e w) as [x w0].
    apply IH. exact HJ'.
Qed.

End ExecutionFacts.

Section ExecutionTranslation.
Import Execution.

Context {E F : Type -> Type} {W : Type}.

(** One unfolding of [translate], seen through [observe]. *)
Lemma observe_translate {R} (f : forall X, E X -> F X) (t : itree E R) :
  observe (translate f t) =
  observe (match observe t with
           | RetF r => Ret r
           | TauF t' => Tau (translate f t')
           | VisF e k => Vis (f _ e) (fun x => translate f (k x))
           end).
Proof. reflexivity. Qed.

(** A program whose events are renamed runs as under the handler that
    reads the new names. *)
Lemma exec_translate {R} (f : forall X, E X -> F X) (h : Handler F W) n :
  forall (t : itree E R) w,
    exec h n (translate f t) w = exec (fun X e => h X (f X e)) n t w.
Proof.
  induction n as [|n IH]; intros t w; [reflexivity|].
  cbn [exec]. rewrite observe_translate.
  destruct (observe t) as [r|t'|X e k]; cbn.
  - reflexivity.
  - apply IH.
  - destruct (h X (f X e) w) as [x w0]. apply IH.
Qed.

End ExecutionTranslation.

Section ExecutionSimulation.
Import Execution.

Context {E : Type -> Type} {W1 W2 : Type}.

(** When a handler answers as another one does on a part of its world,
    and moves that part as the other one moves it, the runs under the two
    agree. *)
Lemma exec_simulation {R} (h1 : Handler E W1) (h2 : Handler E W2) (p : W2 -> W1) :
  (forall X (e : E X) w,
     fst (h2 X e w) = fst (h1 X e (p w)) /\ p (snd (h2 X e w)) = snd (h1 X e (p w))) ->
  forall n (t : itree E R) w,
    fst (exec h2 n t w) = fst (exec h1 n t (p w)) /\
    p (snd (exec h2 n t w)) = snd (exec h1 n t (p w)).
Proof.
  intros Hsim n. induction n as [|n IH]; intros t w; [split; reflexivity|].
  cbn [exec]. destruct (observe t) as [r|t'|X e k].
  - split; reflexivity.
  - apply IH.
  - destruct (Hsim X e w) as [Hx Hw].
    destruct (h2 X e w) as [x2 w2], (h1 X e (p w)) as [x1 w1]. cbn in Hx, Hw.
    subst x2. rewrite <- Hw. apply IH.
Qed.

End ExecutionSimulation.

(* ===================================================================== *)
(** ** The video job client, for every service *)
(* ===================================================================== *)

Section VideoJobInvariants.
Import JS GeminiService Execution Polling.
Import ITreeNotations.
Local Open Scope itree_scope.

Variable svc : Service.

(** [run] is [exec] under the handler of the service. *)
Lemma run_exec {R} n : forall (t : itree veoE R) st,
  run n svc t st = exec (serve svc) n t st.
Proof.
  induction n as [|n IH]; intros t st; [reflexivity|].
  cbn [run exec]. destruct (observe t) as [r|t'|X e k].
  - reflexivity.
  - apply IH.
  - unfold serve at 1. destruct (handle svc e st) as [x st']. apply IH.
Qed.

Lemma run_finishes {R} n (t : itree veoE R) st r st' :
  run n svc t st = (Some r, st') -> finishes (serve svc) t st r st'.
Proof. intros H. exists n. rewrite <- run_exec. exact H. Qed.

(** [catch] ends with one of its two messages and a line in the log. *)
Lemma catchBlock_finishes error st r st' :
  finishes (serve svc) (catchBlock error) st r st' ->
  r = inl (rejection error) /\
  st' = record (Logged logLabel error) st.
Proof.
  unfold catchBlock. intros H.
  apply finishes_bind_inv in H. destruct H as (a & w1 & H1 & H2).
  apply finishes_trigger in H1. destruct H1 as [-> ->]. cbn in H2.
  unfold rejection.
  destruct (isInvalidKeyError error); apply finishes_ret in H2;
    destruct H2 as [-> ->]; split; reflexivity.
Qed.

(** A turn of the loop that goes round again has waited and queried
    once, and holds the answer. *)
Lemma pollStep_again operation st operation' st' :
  finishes (serve svc) (pollStep operation) st (inl operation') st' ->
  isDone operation = false /\
  getVideosOperation svc (queries st) operation = inr operation' /\
  st' = {| queries := S (queries st);
           trace := trace st ++ turn operation |}.
Proof.
  unfold pollStep. intros H. destruct (isDone operation) eqn:Hd.
  - apply finishes_ret in H. destruct H as [H _]. discriminate.
  - apply finishes_bind_inv in H. destruct H as (a & w1 & H1 & H2).
    apply finishes_trigger in H1. destruct H1 as [-> ->].
    apply finishes_bind_inv in H2. destruct H2 as (a & w2 & H2 & H3).
    apply finishes_trigger in H2. destruct H2 as [-> ->]. cbn in H3.
    destruct (getVideosOperation svc (queries st) operation) as [e|op] eqn:Hq;
      apply finishes_ret in H3; destruct H3 as [H3 ->]; [discriminate|].
    injection H3 as <-. split; [reflexivity|]. split; [reflexivity|].
    unfold turn. rewrite <- app_assoc. reflexivity.
Qed.

(** The turn that leaves the loop: the operation is done and nothing has
    been asked, or it is not and the status query has been rejected. *)
Lemma pollStep_leaves operation st r st' :
  finishes (serve svc) (pollStep operation) st (inr r) st' ->
  (isDone operation = true /\ r = inr operation /\ st' = st) \/
  (isDone operation = false /\
   exists error,
     getVideosOperation svc (queries st) operation = inl error /\
     r = inl error /\
     st' = {| queries := S (queries st);
              trace := trace st ++ turn operation |}).
Proof.
  unfold pollStep. intros H. destruct (isDone operation) eqn:Hd.
  - apply finishes_ret in H. destruct H as [H ->]. injection H as ->.
    left. repeat split; reflexivity.
  - right. split; [reflexivity|].
    apply finishes_bind_inv in H. destruct H as (a & w1 & H1 & H2).
    apply finishes_trigger in H1. destruct H1 as [-> ->].
    apply finishes_bind_inv in H2. destruct H2 as (a & w2 & H2 & H3).
    apply finishes_trigger in H2. destruct H2 as [-> ->]. cbn in H3.
    destruct (getVideosOperation svc (queries st) operation) as [e|op] eqn:Hq;
      apply finishes_ret in H3; destruct H3 as [H3 ->]; [|discriminate].
    injection H3 as ->. exists e. split; [reflexivity|]. split; [reflexivity|].
    unfold turn. rewrite <- app_assoc. reflexivity.
Qed.

Lemma last_cons {A} (l : list A) : forall x d, last (x :: l) d = last l x.
Proof.
  induction l as [|y l IH]; intros x d; [reflexivity|].
  change (last (x :: y :: l) d) with (last (y :: l) d).
  rewrite (IH y d), (IH y x). reflexivity.
Qed.

Lemma reaches_last q : forall operations operation current,
  reaches svc q operation operations current -> current = last operations operation.
Proof.
  intros operations. revert q.
  induction operations as [|op ops IH]; intros q operation current H; cbn in H.
  - exact H.
  - destruct H as (_ & _ & H). rewrite (IH _ _ _ H). symmetry. apply last_cons.
Qed.

Lemma reaches_snoc : forall operations q operation current operation',
  reaches svc q operation operations current ->
  isDone current = false ->
  getVideosOperation svc (q + length operations) current = inr operation' ->
  reaches svc q operation (operations ++ [operation']) operation'.
Proof.
  induction operations as [|op ops IH]; intros q operation current operation' H Hd Hq;
    cbn in *.
  - subst current. rewrite Nat.add_0_r in Hq. repeat split; assumption.
  - destruct H as (Hd0 & Hq0 & H). split; [exact Hd0|]. split; [exact Hq0|].
    apply (IH _ _ current); [exact H | exact Hd|].
    replace (S q + length ops) with (q + S (length ops)) by lia. exact Hq.
Qed.

Lemma reaches_done : forall operations q operation current,
  reaches svc q operation operations current -> isDone current = true ->
  answersWith svc q operation operations.
Proof.
  induction operations as [|op ops IH]; intros q operation current H Hd; cbn in *.
  - subst current. exact Hd.
  - destruct H as (Hd0 & Hq0 & H). repeat split; try assumption.
    apply (IH _ _ current); assumption.
Qed.

Lemma reaches_rejected : forall operations q operation current error,
  reaches svc q operation operations current -> isDone current = false ->
  getVideosOperation svc (q + length operations) current = inl error ->
  answersUntilRejected svc q operation operations error.
Proof.
  induction operations as [|op ops IH]; intros q operation current error H Hd Hq;
    cbn in *.
  - subst current. rewrite Nat.add_0_r in Hq. split; assumption.
  - destruct H as (Hd0 & Hq0 & H). repeat split; try assumption.
    apply (IH _ _ current); [exact H | exact Hd|].
    replace (S q + length ops) with (q + S (length ops)) by lia. exact Hq.
Qed.

Lemma queried_snoc operation operations operation' :
  queried operation (operations ++ [operation']) = operation :: operations.
Proof.
  unfold queried. change (operation :: operations ++ [operation'])
    with ((operation :: operations) ++ [operation']).
  apply removelast_last.
Qed.

Lemma queried_last operation operations :
  queried operation operations ++ [last operations operation] = operation :: operations.
Proof.
  unfold queried. revert operation.
  induction operations as [|op ops IH]; intros operation; [reflexivity|].
  change (removelast (operation :: op :: ops)) with (operation :: removelast (op :: ops)).
  cbn [app]. f_equal. rewrite last_cons. apply IH.
Qed.

Lemma flat_map_turn_snoc operations operation :
  flat_map turn (operations ++ [operation]) = flat_map turn operations ++ turn operation.
Proof. rewrite flat_map_app. f_equal. Qed.

(** What the loop has done when it is left: a wait and a status query for
    each operation it has held but the last, each answered with the next
    one. *)
Lemma pollLoop_finishes operation st r st' :
  finishes (serve svc) (pollLoop operation) st r st' ->
  exists operations current,
    reaches svc (queries st) operation operations current /\
    ((isDone current = true /\ r = inr current /\
      queries st' = queries st + length operations /\
      trace st' = trace st ++ flat_map turn (queried operation operations)) \/
     (isDone current = false /\
      exists error,
        getVideosOperation svc (queries st + length operations) current = inl error /\
        r = inl error /\
        queries st' = S (queries st + length operations) /\
        trace st' = trace st ++ flat_map turn (operation :: operations))).
Proof.
  intros [n H]. unfold pollLoop in H.
  pose (J := fun (current : Operation) (w : RunState) =>
    exists operations,
      reaches svc (queries st) operation operations current /\
      queries w = queries st + length operations /\
      trace w = trace st ++ flat_map turn (queried operation operations)).
  destruct (exec_iter_inv (serve svc) pollStep J) with (n := n) (i := operation)
    (w := st) (r := r) (w' := st') as (current & w0 & (operations & Hr & Hq & Ht) & Hlast).
  - intros i w i' w' (operations & Hr & Hq & Ht) Hturn.
    apply pollStep_again in Hturn. destruct Hturn as (Hd & Hans & ->).
    exists (operations ++ [i']). split; [|split].
    + apply (reaches_snoc _ _ _ i); [exact Hr | exact Hd|]. rewrite <- Hq. exact Hans.
    + cbn. rewrite Hq, length_app. cbn. lia.
    + cbn [trace]. rewrite Ht, queried_snoc, <- app_assoc. f_equal.
      rewrite <- (queried_last operation operations), flat_map_turn_snoc.
      rewrite (reaches_last _ _ _ _ Hr). reflexivity.
  - exists []. split; [reflexivity|]. split; [cbn; lia|]. cbn. symmetry. apply app_nil_r.
  - exact H.
  - exists operations, current. split; [exact Hr|].
    apply pollStep_leaves in Hlast.
    destruct Hlast as [(Hd & -> & ->)|(Hd & error & Hans & -> & ->)].
    + left. repeat split; assumption.
    + right. split; [exact Hd|]. exists error. rewrite <- Hq.
      split; [exact Hans|]. split; [reflexivity|]. split; [reflexivity|].
      cbn [trace]. rewrite Ht, <- app_assoc. f_equal.
      rewrite <- (queried_last operation operations), flat_map_turn_snoc.
      rewrite (reaches_last _ _ _ _ Hr). reflexivity.
Qed.

(** What the function has done when it settles, for every service: the
    submission was rejected; or it was accepted and the answers led to an
    operation that is done; or a status query was rejected. *)
Lemma generateRouteVideo_finishes img st r st' :
  finishes (serve svc) (generateRouteVideo img) st r st' ->
  (exists cause,
     generateVideos svc (request img) = inl cause /\
     r = inl (rejection cause) /\
     queries st' = queries st /\
     trace st' = trace st ++ jobTrace img [] [Logged logLabel cause]) \/
  (exists operation operations,
     generateVideos svc (request img) = inr operation /\
     answersWith svc (queries st) operation operations /\
     queries st' = queries st + length operations /\
     match extractLink (last operations operation) with
     | inr link =>
         r = inr link /\
         trace st' = trace st ++ jobTrace img (queried operation operations) []
     | inl cause =>
         r = inl (rejection cause) /\
         trace st' = trace st ++ jobTrace img (queried operation operations)
                                      [Logged logLabel cause]
     end) \/
  (exists operation operations cause,
     generateVideos svc (request img) = inr operation /\
     answersUntilRejected svc (queries st) operation operations cause /\
     r = inl (rejection cause) /\
     queries st' = S (queries st + length operations) /\
     trace st' = trace st ++ jobTrace img (operation :: operations)
                                  [Logged logLabel cause]).
Proof.
  unfold generateRouteVideo. intros H.
  apply finishes_bind_inv in H. destruct H as (a & w1 & Htry & Hsettle).
  unfold tryBlock in Htry.
  apply finishes_bind_inv in Htry. destruct Htry as (s & w0 & Hsub & Hrest).
  apply finishes_trigger in Hsub. destruct Hsub as [-> ->]. cbn in Hrest.
  destruct (generateVideos svc (request img)) as [cause|operation] eqn:Hs.
  - left. apply finishes_ret in Hrest. destruct Hrest as [-> ->]. cbn in Hsettle.
    apply catchBlock_finishes in Hsettle. destruct Hsettle as [-> ->].
    exists cause. split; [reflexivity|]. split; [reflexivity|]. split; [reflexivity|].
    cbn. rewrite <- app_assoc. reflexivity.
  - right.
    apply finishes_bind_inv in Hrest. destruct Hrest as (x & w2 & Hloop & Hafter).
    apply pollLoop_finishes in Hloop.
    destruct Hloop as (operations & current & Hr & Hcases).
    cbn [queries trace record] in Hr, Hcases.
    destruct Hcases as [(Hd & -> & Hq & Ht)|(Hd & cause & Hans & -> & Hq & Ht)].
    + left. exists operation, operations. split; [reflexivity|].
      split; [exact (reaches_done _ _ _ _ Hr Hd)|]. cbn in Hafter.
      apply finishes_ret in Hafter. destruct Hafter as [-> ->].
      rewrite <- (reaches_last _ _ _ _ Hr).
      destruct (extractLink current) as [cause|link]; cbn in Hsettle.
      * apply catchBlock_finishes in Hsettle. destruct Hsettle as [-> ->].
        split; [exact Hq|]. split; [reflexivity|].
        cbn [trace record]. rewrite Ht. unfold jobTrace.
        repeat rewrite <- app_assoc. reflexivity.
      * apply finishes_ret in Hsettle. destruct Hsettle as [-> ->].
        split; [exact Hq|]. split; [reflexivity|].
        rewrite Ht. unfold jobTrace. rewrite app_nil_r.
        repeat rewrite <- app_assoc. reflexivity.
    + right. exists operation, operations, cause. split; [reflexivity|].
      split; [exact (reaches_rejected _ _ _ _ _ Hr Hd Hans)|]. cbn in Hafter.
      apply finishes_ret in Hafter. destruct Hafter as [-> ->]. cbn in Hsettle.
      apply catchBlock_finishes in Hsettle. destruct Hsettle as [-> ->].
      split; [reflexivity|]. split; [exact Hq|].
      cbn [trace record]. rewrite Ht. unfold jobTrace.
      repeat rewrite <- app_assoc. reflexivity.
Qed.

Lemma filter_isSlept_turns operations :
  length (filter isSlept (flat_map turn operations)) = length operations.
Proof. induction operations as [|op ops IH]; cbn; [reflexivity | rewrite IH; reflexivity]. Qed.

Lemma filter_isQueried_turns operations :
  length (filter isQueried (flat_map turn operations)) = length operations.
Proof. induction operations as [|op ops IH]; cbn; [reflexivity | rewrite IH; reflexivity]. Qed.

(** In a trace of the shape of [jobTrace] there are as many waits and as
    many status queries as operations. *)
Lemma waits_jobTrace st img operations log :
  trace st = jobTrace img operations log ->
  forallb (fun ev => negb (isSlept ev) && negb (isQueried ev)) log = true ->
  waits st = length operations /\ requeries st = length operations.
Proof.
  unfold waits, requeries, jobTrace. intros -> Hlog. cbn.
  rewrite !filter_app, !length_app, filter_isSlept_turns, filter_isQueried_turns.
  assert (Hs : filter isSlept log = []).
  { clear -Hlog. induction log as [|ev log IH]; [reflexivity|]. cbn in *.
    apply andb_true_iff in Hlog. destruct Hlog as [Hev Hlog].
    apply andb_true_iff in Hev. destruct Hev as [Hev _].
    destruct (isSlept ev); [discriminate|]. apply IH. exact Hlog. }
  assert (Hq : filter isQueried log = []).
  { clear -Hlog. induction log as [|ev log IH]; [reflexivity|]. cbn in *.
    apply andb_true_iff in Hlog. destruct Hlog as [Hev Hlog].
    apply andb_true_iff in Hev. destruct Hev as [_ Hev].
    destruct (isQueried ev); [discriminate|]. apply IH. exact Hlog. }
  rewrite Hs, Hq. cbn. split; lia.
Qed.

Lemma queries_length_queried operation operations :
  length (queried operation operations) = length operations.
Proof.
  pose proof (f_equal (@length _) (queried_last operation operations)) as H.
  rewrite length_app in H. cbn [length] in H. lia.
Qed.

(** The loop follows the answers of the service: a wait and a status
    query for each, and then it is left with the last one. *)
Lemma run_poll_answers {R} (K : Thrown + Operation -> itree veoE R) :
  forall operations operation st n,
    answersWith svc (queries st) operation operations ->
    run (3 * length operations + n) svc (ITree.bind (pollLoop operation) K) st =
    run n svc (K (inr (last operations operation)))
      {| queries := queries st + length operations;
         trace := trace st ++ flat_map turn (queried operation operations) |}.
Proof.
  induction operations as [|op ops IH]; intros operation st n H; cbn [answersWith] in H.
  - rewrite (run_poll_done svc _ _ K _ H). destruct st as [q tr]. cbn.
    rewrite Nat.add_0_r, app_nil_r. reflexivity.
  - destruct H as (Hd & Hq & H).
    replace (3 * length (op :: ops) + n) with (3 + (3 * length ops + n))
      by (cbn [length]; lia).
    rewrite (run_poll_step svc _ _ K _ _ Hd Hq).
    rewrite (IH op {| queries := S (queries st);
                      trace := trace st ++ [Slept 10000; Queried operation] |} n H).
    cbn [queries trace length].
    rewrite last_cons.
    replace (S (queries st) + length ops) with (queries st + S (length ops)) by lia.
    unfold queried at 2.
    change (removelast (operation :: op :: ops))
      with (operation :: removelast (op :: ops)).
    cbn [flat_map]. unfold queried, turn. rewrite <- !app_assoc. reflexivity.
Qed.

(** The same, up to a status query that is rejected. *)
Lemma run_poll_answers_rejected {R} (K : Thrown + Operation -> itree veoE R) :
  forall operations operation st n error,
    answersUntilRejected svc (queries st) operation operations error ->
    run (3 * length operations + (2 + n)) svc (ITree.bind (pollLoop operation) K) st =
    run n svc (K (inl error))
      {| queries := S (queries st + length operations);
         trace := trace st ++ flat_map turn (operation :: operations) |}.
Proof.
  induction operations as [|op ops IH]; intros operation st n error H;
    cbn [answersUntilRejected] in H.
  - destruct H as (Hd & Hq).
    change (3 * length (@nil Operation) + (2 + n)) with (2 + n).
    rewrite (run_poll_reject svc _ _ K _ _ Hd Hq). cbn.
    rewrite Nat.add_0_r. reflexivity.
  - destruct H as (Hd & Hq & H).
    replace (3 * length (op :: ops) + (2 + n)) with (3 + (3 * length ops + (2 + n)))
      by (cbn [length]; lia).
    rewrite (run_poll_step svc _ _ K _ _ Hd Hq).
    rewrite (IH op {| queries := S (queries st);
                      trace := trace st ++ [Slept 10000; Queried operation] |}
               n error H).
    cbn [queries trace length].
    replace (S (queries st) + length ops) with (queries st + S (length ops)) by lia.
    cbn [flat_map]. unfold turn. rewrite <- !app_assoc. reflexivity.
Qed.

(** X1: when the submission is accepted and the service answers the
    status queries with [operations], of which the last is the first that
    is done, the function settles after exactly [length operations] waits
    of ten seconds and as many status queries, one about each operation
    it has held but the last; it resolves with the link of the last
    operation, or, when that has none, rejects with the generic message
    and leaves the message of its own [throw] in the log. *)
Theorem polling_follows_the_answers img operation operations :
  generateVideos svc (request img) = inr operation ->
  answersWith svc 0 operation operations ->
  exists n st',
    (forall m, n <= m ->
       run m svc (generateRouteVideo img) initial =
       (Some match extractLink (last operations operation) with
             | inr link => inr link
             | inl _ => inl (ErrorObject genericMessage)
             end, st')) /\
    waits st' = length operations /\
    requeries st' = length operations /\
    trace st' =
      jobTrace img (queried operation operations)
        match extractLink (last operations operation) with
        | inr _ => []
        | inl _ => [Logged logLabel (ErrorObject noLinkMessage)]
        end.
Proof.
  intros Hs Hans.
  assert (Hrun : forall k,
    run (S (3 * length operations + (3 + k))) svc (generateRouteVideo img) initial =
    run (3 + k) svc (afterLoop (inr (last operations operation)))
      {| queries := length operations;
         trace := jobTrace img (queried operation operations) [] |}).
  { intros k. rewrite (run_submit_accepted svc _ _ _ _ Hs).
    rewrite (run_poll_answers afterLoop operations operation
               (record (Submitted (request img)) initial) _ Hans).
    unfold jobTrace. rewrite app_nil_r. reflexivity. }
  exists (S (3 * length operations + 3)).
  assert (Hlink : forall cause, extractLink (last operations operation) = inl cause ->
                  cause = ErrorObject noLinkMessage).
  { unfold extractLink. intros cause.
    destruct (downloadLinkOf _) as [[|c l]|]; congruence. }
  pose proof (Hrun 0) as H0. rewrite (run_afterLoop svc 0 _ _) in H0.
  rewrite Nat.add_0_r in H0.
  destruct (extractLink (last operations operation)) as [cause|link] eqn:He.
  - rewrite (Hlink cause eq_refl) in H0.
    change (isInvalidKeyError (ErrorObject noLinkMessage)) with false in H0.
    cbv iota in H0.
    match type of H0 with _ = (_, ?s) => set (st' := s) in * end.
    assert (Ht : trace st' = jobTrace img (queried operation operations)
                               [Logged logLabel (ErrorObject noLinkMessage)]).
    { subst st'. cbn [trace record]. unfold jobTrace. rewrite app_nil_r. reflexivity. }
    destruct (waits_jobTrace st' img _ _ Ht eq_refl) as [Hw Hr].
    rewrite queries_length_queried in Hw, Hr.
    exists st'. split; [|split; [|split]]; try assumption.
    intros m Hm. apply (run_finished svc _ _ _ _ _ H0). exact Hm.
  - match type of H0 with _ = (_, ?s) => set (st' := s) in * end.
    assert (Ht : trace st' = jobTrace img (queried operation operations) [])
      by reflexivity.
    destruct (waits_jobTrace st' img _ _ Ht eq_refl) as [Hw Hr].
    rewrite queries_length_queried in Hw, Hr.
    exists st'. split; [|split; [|split]]; try assumption.
    intros m Hm. apply (run_finished svc _ _ _ _ _ H0). exact Hm.
Qed.

(** X2: when a status query is rejected, after the submission was
    accepted and the earlier queries were answered with [operations],
    none of them done, the function asks nothing more: it rejects with
    the credential message or the generic one, chosen as for a rejected
    submission, after [length operations + 1] waits and status queries,
    and the log holds what the query was rejected with. *)
Theorem rejected_status_query_ends_the_job img operation operations cause :
  generateVideos svc (request img) = inr operation ->
  answersUntilRejected svc 0 operation operations cause ->
  exists n st',
    (forall m, n <= m ->
       run m svc (generateRouteVideo img) initial =
       (Some (inl (ErrorObject (if isInvalidKeyError cause
                                then invalidKeyMessage else genericMessage))),
        st')) /\
    waits st' = S (length operations) /\
    requeries st' = S (length operations) /\
    trace st' = jobTrace img (operation :: operations) [Logged logLabel cause].
Proof.
  intros Hs Hans.
  assert (Hrun :
    run (S (3 * length operations + (2 + 2))) svc (generateRouteVideo img) initial =
    run 2 svc (afterLoop (inl cause))
      {| queries := S (length operations);
         trace := jobTrace img (operation :: operations) [] |}).
  { rewrite (run_submit_accepted svc _ _ _ _ Hs).
    rewrite (run_poll_answers_rejected afterLoop operations operation
               (record (Submitted (request img)) initial) _ _ Hans).
    unfold jobTrace. rewrite app_nil_r. reflexivity. }
  unfold afterLoop, afterPolling in Hrun. rewrite run_ret_bind in Hrun.
  cbn [settle] in Hrun. rewrite (run_catchBlock svc 0 _ _) in Hrun.
  match type of Hrun with _ = (_, ?s) => set (st' := s) in * end.
  assert (Ht : trace st' = jobTrace img (operation :: operations)
                             [Logged logLabel cause]).
  { subst st'. cbn [trace record]. unfold jobTrace. rewrite app_nil_r. reflexivity. }
  destruct (waits_jobTrace st' img _ _ Ht eq_refl) as [Hw Hr].
  exists (S (3 * length operations + (2 + 2))), st'.
  split; [|split; [|split]]; try assumption.
  intros m Hm. apply (run_finished svc _ _ _ _ _ Hrun). exact Hm.
Qed.

(** X3: for every service, when the function rejects, it rejects with an
    [Error] whose message is the credential message or the generic one;
    the last line of the log holds the cause, which is what the
    submission or a status query was rejected with, or the function's own
    [Error] about the missing link; the message is the credential message
    exactly when the cause is an [Error] that speaks of the key. *)
Theorem rejections_carry_one_of_two_messages img n error st' :
  run n svc (generateRouteVideo img) initial = (Some (inl error), st') ->
  (error = ErrorObject invalidKeyMessage \/ error = ErrorObject genericMessage) /\
  exists cause,
    error = ErrorObject (if isInvalidKeyError cause
                         then invalidKeyMessage else genericMessage) /\
    last (trace st') (Submitted (request img)) = Logged logLabel cause /\
    (generateVideos svc (request img) = inl cause \/
     cause = ErrorObject noLinkMessage \/
     exists q operation, getVideosOperation svc q operation = inl cause).
Proof.
  intros H. apply run_finishes in H. apply generateRouteVideo_finishes in H.
  assert (Htwo : forall cause,
    rejection cause = ErrorObject invalidKeyMessage \/
    rejection cause = ErrorObject genericMessage).
  { intros cause. unfold rejection. destruct (isInvalidKeyError cause); auto. }
  assert (Hlast : forall operations cause,
    last (jobTrace img operations [Logged logLabel cause]) (Submitted (request img))
    = Logged logLabel cause).
  { intros operations cause. unfold jobTrace.
    change (Submitted (request img) :: flat_map turn operations ++ [Logged logLabel cause])
      with ((Submitted (request img) :: flat_map turn operations) ++ [Logged logLabel cause]).
    apply last_last. }
  destruct H as [(cause & Hs & Hr & _ & Ht)
                |[(operation & operations & Hs & Hans & _ & Hcases)
                 |(operation & operations & cause & Hs & Hans & Hr & _ & Ht)]].
  - injection Hr as ->. split; [apply Htwo|]. exists cause.
    split; [reflexivity|]. split; [rewrite Ht; apply Hlast|]. left. exact Hs.
  - destruct (extractLink (last operations operation)) as [cause|link] eqn:He.
    + destruct Hcases as [Hr Ht]. injection Hr as ->. split; [apply Htwo|].
      exists cause. split; [reflexivity|]. split; [rewrite Ht; apply Hlast|].
      right. left. unfold extractLink in He.
      destruct (downloadLinkOf _) as [[|c l]|]; congruence.
    + destruct Hcases as [Hr _]. discriminate.
  - injection Hr as ->. split; [apply Htwo|]. exists cause.
    split; [reflexivity|]. split; [rewrite Ht; apply Hlast|]. right. right.
    clear -Hans. revert operation Hans. generalize (queries initial).
    induction operations as [|op ops IH]; intros q operation Hans;
      cbn [answersUntilRejected] in Hans.
    + exists q, operation. destruct Hans as [_ Hans]. exact Hans.
    + destruct Hans as (_ & _ & Hans). exact (IH _ _ Hans).
Qed.

(** X4: for every service, when the function resolves, its result is not
    empty and is the link of an operation that is done, the one at the
    end of the answers the service gave; nothing has been written to the
    log, and there were as many waits and status queries as answers. *)
Theorem resolves_only_with_the_link_of_a_done_operation img n link st' :
  run n svc (generateRouteVideo img) initial = (Some (inr link), st') ->
  link <> [] /\
  exists operation operations,
    generateVideos svc (request img) = inr operation /\
    answersWith svc 0 operation operations /\
    isDone (last operations operation) = true /\
    downloadLinkOf (last operations operation) = Some link /\
    trace st' = jobTrace img (queried operation operations) [] /\
    waits st' = length operations /\ requeries st' = length operations.
Proof.
  intros H. apply run_finishes in H. apply generateRouteVideo_finishes in H.
  assert (Hdone : forall operations q operation,
    answersWith svc q operation operations -> isDone (last operations operation) = true).
  { induction operations as [|op ops IH]; intros q operation Hans; cbn in Hans.
    - exact Hans.
    - destruct Hans as (_ & _ & Hans). rewrite last_cons. exact (IH _ _ Hans). }
  destruct H as [(cause & _ & Hr & _)
                |[(operation & operations & Hs & Hans & _ & Hcases)
                 |(operation & operations & cause & _ & _ & Hr & _)]];
    try discriminate.
  unfold extractLink in Hcases.
  destruct (downloadLinkOf (last operations operation)) as [[|c l]|] eqn:Hl;
    destruct Hcases as [Hr Ht]; try discriminate.
  injection Hr as ->. split; [discriminate|].
  exists operation, operations.
  destruct (waits_jobTrace st' img _ _ Ht eq_refl) as [Hw Hq].
  rewrite queries_length_queried in Hw, Hq.
  repeat (split; [first [assumption | reflexivity | exact (Hdone _ _ _ Hans)]|]).
  exact Hq.
Qed.

(** X5: for every service, a run that has settled has submitted the job
    once, first, with the fixed model, prompt and number of videos; every
    status query comes right after a wait of ten seconds and every wait
    is followed by its query; the log gets at most one line, the last
    event, and gets it exactly when the function rejects. *)
Theorem settled_run_has_the_shape_of_a_job img n r st' :
  run n svc (generateRouteVideo img) initial = (Some r, st') ->
  exists operations log,
    trace st' = jobTrace img operations log /\
    waits st' = length operations /\
    requeries st' = length operations /\
    queries st' = length operations /\
    match r with
    | inr _ => log = []
    | inl _ => exists cause, log = [Logged logLabel cause]
    end.
Proof.
  intros H. apply run_finishes in H. apply generateRouteVideo_finishes in H.
  destruct H as [(cause & _ & Hr & Hq & Ht)
                |[(operation & operations & Hs & Hans & Hq & Hcases)
                 |(operation & operations & cause & _ & _ & Hr & Hq & Ht)]].
  - exists [], [Logged logLabel cause]. cbn [app initial trace] in Ht.
    destruct (waits_jobTrace st' img _ _ Ht eq_refl) as [Hw Hre].
    subst r. repeat (split; [assumption|]). exists cause. reflexivity.
  - cbn [app initial trace queries plus] in Hq, Hcases.
    destruct (extractLink (last operations operation)) as [cause|link];
      destruct Hcases as [Hr Ht].
    + exists (queried operation operations), [Logged logLabel cause].
      destruct (waits_jobTrace st' img _ _ Ht eq_refl) as [Hw Hre].
      rewrite queries_length_queried in *.
      subst r. repeat (split; [assumption|]). exists cause. reflexivity.
    + exists (queried operation operations), [].
      destruct (waits_jobTrace st' img _ _ Ht eq_refl) as [Hw Hre].
      rewrite queries_length_queried in *.
      subst r. repeat (split; [assumption|]). reflexivity.
  - exists (operation :: operations), [Logged logLabel cause].
    cbn [app initial trace queries plus] in Hq, Ht.
    destruct (waits_jobTrace st' img _ _ Ht eq_refl) as [Hw Hre].
    subst r. repeat (split; [assumption|]). exists cause. reflexivity.
Qed.

End VideoJobInvariants.

(* ===================================================================== *)
(** ** The download of the video *)
(* ===================================================================== *)

Section DownloadFacts.
Import JS Builtins GeminiService Execution Download.
Import ITreeNotations.
Local Open Scope itree_scope.

Variable net : Network.

Lemma exec_downloadCatch n cause log :
  exec (answer net) (2 + n) (downloadCatch cause) log =
  (Some (inl (ErrorObject downloadMessage)),
   log ++ [ErrorLogged (lit "Error fetching video blob:") cause]).
Proof. unfold downloadCatch. cbn [plus]. rewrite exec_trigger_bind. reflexivity. Qed.

(** What a call of [fetchVideoBlob] comes to. *)
Lemma exec_fetchVideoBlob key uri log :
  exec (answer net) 4 (fetchVideoBlob key uri) log =
  match respond net (uri ++ lit "&key=" ++ key) with
  | inl cause =>
      (Some (inl (ErrorObject downloadMessage)),
       log ++ [Requested (uri ++ lit "&key=" ++ key);
               ErrorLogged (lit "Error fetching video blob:") cause])
  | inr response =>
      if ok response then
        match blobOf net response with
        | inl cause =>
            (Some (inl (ErrorObject downloadMessage)),
             log ++ [Requested (uri ++ lit "&key=" ++ key);
                     BodyRead response;
                     ErrorLogged (lit "Error fetching video blob:") cause])
        | inr blob =>
            (Some (inr blob),
             log ++ [Requested (uri ++ lit "&key=" ++ key); BodyRead response])
        end
      else
        (Some (inl (ErrorObject downloadMessage)),
         log ++ [Requested (uri ++ lit "&key=" ++ key);
                 ErrorLogged (lit "Error fetching video blob:")
                   (ErrorObject (statusMessage response))])
  end.
Proof.
  unfold fetchVideoBlob, downloadTry. rewrite exec_bind_bind, exec_trigger_bind.
  cbn [answer fst snd].
  destruct (respond net (uri ++ lit "&key=" ++ key)) as [cause|response].
  - rewrite exec_ret_bind, (exec_downloadCatch 1). rewrite <- app_assoc. reflexivity.
  - destruct (ok response); cbn [negb].
    + rewrite exec_trigger_bind. cbn [answer fst snd].
      destruct (blobOf net response) as [cause|blob].
      * rewrite (exec_downloadCatch 0). rewrite <- !app_assoc. reflexivity.
      * cbn. rewrite <- app_assoc. reflexivity.
    + rewrite exec_ret_bind, (exec_downloadCatch 1). rewrite <- app_assoc. reflexivity.
Qed.

Lemma statusMessage_differs response : statusMessage response <> downloadMessage.
Proof. unfold statusMessage, downloadMessage. cbn. discriminate. Qed.

(** X6: whatever makes the download fail, the rejected request, a status
    that is not ok or a body that cannot be read, the function rejects
    with one and the same message; the message with the status, which it
    throws itself, never reaches the caller and is only written to the
    log, and the body of a response that is not ok is not read. *)
Theorem download_failures_share_one_message key uri n log error log' :
  exec (answer net) n (fetchVideoBlob key uri) log = (Some (inl error), log') ->
  error = ErrorObject downloadMessage /\
  (forall response, error <> ErrorObject (statusMessage response)) /\
  exists cause,
    last log' (Requested []) = ErrorLogged (lit "Error fetching video blob:") cause /\
    (respond net (uri ++ lit "&key=" ++ key) = inl cause \/
     (exists response,
        respond net (uri ++ lit "&key=" ++ key) = inr response /\
        ok response = false /\
        cause = ErrorObject (statusMessage response) /\
        log' = log ++ [Requested (uri ++ lit "&key=" ++ key);
                       ErrorLogged (lit "Error fetching video blob:") cause]) \/
     (exists response,
        respond net (uri ++ lit "&key=" ++ key) = inr response /\
        ok response = true /\
        blobOf net response = inl cause)).
Proof.
  intros H.
  assert (Hfour : finishes (answer net) (fetchVideoBlob key uri) log (inl error) log')
    by (exists n; exact H).
  assert (Hlast : forall (l : list NetEvent) ev d, last (l ++ [ev]) d = ev)
    by (intros; apply last_last).
  pose proof (exec_fetchVideoBlob key uri log) as Htable.
  destruct (respond net (uri ++ lit "&key=" ++ key)) as [cause|response] eqn:Hr.
  - destruct (finishes_unique _ _ _ _ _ _ _ Hfour (ex_intro _ 4 Htable)) as [He ->].
    injection He as ->. split; [reflexivity|]. split.
    + intros response E. apply (statusMessage_differs response). congruence.
    + exists cause. split; [|left; reflexivity].
      change (log ++ [Requested (uri ++ lit "&key=" ++ key);
                      ErrorLogged (lit "Error fetching video blob:") cause])
        with (log ++ [Requested (uri ++ lit "&key=" ++ key)]
                  ++ [ErrorLogged (lit "Error fetching video blob:") cause]).
      rewrite app_assoc. apply Hlast.
  - destruct (ok response) eqn:Hok.
    + destruct (blobOf net response) as [cause|blob] eqn:Hb.
      * destruct (finishes_unique _ _ _ _ _ _ _ Hfour (ex_intro _ 4 Htable)) as [He ->].
        injection He as ->. split; [reflexivity|]. split.
        -- intros response' E. apply (statusMessage_differs response'). congruence.
        -- exists cause. split.
           ++ change (log ++ [Requested (uri ++ lit "&key=" ++ key); BodyRead response;
                              ErrorLogged (lit "Error fetching video blob:") cause])
                with (log ++ [Requested (uri ++ lit "&key=" ++ key); BodyRead response]
                          ++ [ErrorLogged (lit "Error fetching video blob:") cause]).
              rewrite app_assoc. apply Hlast.
           ++ right. right. exists response. repeat split; assumption.
      * destruct (finishes_unique _ _ _ _ _ _ _ Hfour (ex_intro _ 4 Htable)) as [He _].
        discriminate.
    + destruct (finishes_unique _ _ _ _ _ _ _ Hfour (ex_intro _ 4 Htable)) as [He ->].
      injection He as ->. split; [reflexivity|]. split.
      * intros response' E. apply (statusMessage_differs response'). congruence.
      * exists (ErrorObject (statusMessage response)). split.
        -- change (log ++ [Requested (uri ++ lit "&key=" ++ key);
                           ErrorLogged (lit "Error fetching video blob:")
                             (ErrorObject (statusMessage response))])
             with (log ++ [Requested (uri ++ lit "&key=" ++ key)]
                       ++ [ErrorLogged (lit "Error fetching video blob:")
                             (ErrorObject (statusMessage response))]).
           rewrite app_assoc. apply Hlast.
        -- right. left. exists response.
           split; [reflexivity|]. split; [exact Hok|]. split; reflexivity.
Qed.

(** X7: the download always settles, after one request, to the link
    followed by [&key=] and the key; it resolves exactly when the
    response is ok and its body can be read, with that body, and then
    nothing is written to the log. *)
Theorem download_settles_and_resolves_with_the_body key uri log :
  (exists r log',
     forall m, 4 <= m ->
       exec (answer net) m (fetchVideoBlob key uri) log = (Some r, log') /\
       exists rest,
         log' = log ++ Requested (uri ++ lit "&key=" ++ key) :: rest /\
         forallb (fun ev => match ev with Requested _ => false | _ => true end) rest
           = true) /\
  (forall blob,
     (exists n log',
        exec (answer net) n (fetchVideoBlob key uri) log = (Some (inr blob), log')) <->
     (exists response,
        respond net (uri ++ lit "&key=" ++ key) = inr response /\
        ok response = true /\
        blobOf net response = inr blob)) /\
  (forall blob n log',
     exec (answer net) n (fetchVideoBlob key uri) log = (Some (inr blob), log') ->
     exists response,
       log' = log ++ [Requested (uri ++ lit "&key=" ++ key); BodyRead response]).
Proof.
  pose proof (exec_fetchVideoBlob key uri log) as Htable.
  split; [|split].
  - destruct (respond net (uri ++ lit "&key=" ++ key)) as [cause|response].
    + eexists. eexists. intros m Hm. split.
      * exact (exec_finished _ _ _ _ _ _ Htable m Hm).
      * eexists. split; reflexivity.
    + destruct (ok response); [destruct (blobOf net response) as [cause|blob]|];
        (eexists; eexists; intros m Hm; split;
         [exact (exec_finished _ _ _ _ _ _ Htable m Hm)
         | eexists; split; reflexivity]).
  - intros blob. split.
    + intros (n & log' & H).
      assert (Hf : finishes (answer net) (fetchVideoBlob key uri) log (inr blob) log')
        by (exists n; exact H).
      destruct (respond net (uri ++ lit "&key=" ++ key)) as [cause|response].
      * destruct (finishes_unique _ _ _ _ _ _ _ Hf (ex_intro _ 4 Htable)) as [He _].
        discriminate.
      * exists response. split; [reflexivity|].
        destruct (ok response); [destruct (blobOf net response) as [cause|blob']|];
          destruct (finishes_unique _ _ _ _ _ _ _ Hf (ex_intro _ 4 Htable)) as [He _];
          try discriminate.
        injection He as ->. split; reflexivity.
    + intros (response & Hr & Hok & Hb). rewrite Hr, Hok, Hb in Htable.
      eexists. eexists. exact Htable.
  - intros blob n log' H.
    assert (Hf : finishes (answer net) (fetchVideoBlob key uri) log (inr blob) log')
      by (exists n; exact H).
    destruct (respond net (uri ++ lit "&key=" ++ key)) as [cause|response].
    + destruct (finishes_unique _ _ _ _ _ _ _ Hf (ex_intro _ 4 Htable)) as [He _].
      discriminate.
    + exists response.
      destruct (ok response); [destruct (blobOf net response) as [cause|blob']|];
        destruct (finishes_unique _ _ _ _ _ _ _ Hf (ex_intro _ 4 Htable)) as [He Hl];
        try discriminate.
      exact Hl.
Qed.

End DownloadFacts.

(* ===================================================================== *)
(** ** The page: theme, progress messages, file name *)
(* ===================================================================== *)

Section PageFacts.
Import JS Builtins App Documents Page.

Lemma str_eqb_refl s : str_eqb s s = true.
Proof. induction s as [|c s IH]; cbn; [reflexivity|]. rewrite char_eqb_refl. exact IH. Qed.

Lemma str_eqb_eq a : forall b, str_eqb a b = true <-> a = b.
Proof.
  induction a as [|x a IH]; intros [|y b]; cbn; split; intros H;
    try reflexivity; try discriminate.
  - apply andb_true_iff in H. destruct H as [Hc Hs].
    apply char_eqb_eq in Hc. apply IH in Hs. subst. reflexivity.
  - injection H as -> ->. rewrite char_eqb_refl. apply str_eqb_refl.
Qed.

Lemma str_eqb_neq a b : str_eqb a b = false <-> a <> b.
Proof.
  split.
  - intros H E. apply str_eqb_eq in E. congruence.
  - intros H. destruct (str_eqb a b) eqn:E; [|reflexivity].
    apply str_eqb_eq in E. contradiction.
Qed.

(** The initial theme is never the empty string. *)
Lemma initialTheme_nonempty window : initialTheme window <> [].
Proof.
  unfold initialTheme. destruct window as [w|]; [|discriminate].
  destruct (localStorage w) as [getItem|]; [|discriminate].
  destruct (getItem (lit "theme")) as [[|c s]|]; cbn;
    destruct (prefersDark w); discriminate.
Qed.

Lemma toggleTheme_known t : toggleTheme t = lit "light" \/ toggleTheme t = lit "dark".
Proof. unfold toggleTheme. destruct (str_eqb t (lit "light")); auto. Qed.

Lemma toggled_nonempty k t : t <> [] -> Nat.iter k toggleTheme t <> [].
Proof.
  intros Ht. destruct k as [|k]; [exact Ht|].
  change (Nat.iter (S k) toggleTheme t) with (toggleTheme (Nat.iter k toggleTheme t)).
  destruct (toggleTheme_known (Nat.iter k toggleTheme t)) as [-> | ->]; discriminate.
Qed.

(** X8: the theme in force when the page is left is the theme the page
    starts with the next time, whatever the system preference is then and
    however many times the theme was toggled; and the root element has
    the [dark] class exactly when that theme is [dark]. *)
Theorem theme_survives_a_reload window k doc prefers :
  let current := Nat.iter k toggleTheme (initialTheme window) in
  initialTheme (Some {| localStorage := Some (stored (themeEffect current doc));
                        prefersDark := prefers |}) = current /\
  (darkClass (themeEffect current doc) = true <-> current = lit "dark").
Proof.
  intros current.
  assert (Hne : current <> []) by (apply toggled_nonempty, initialTheme_nonempty).
  split.
  - unfold initialTheme, themeEffect, setItem. cbn [localStorage stored].
    rewrite str_eqb_refl. destruct current as [|c s]; [contradiction|]. reflexivity.
  - unfold themeEffect. cbn [darkClass].
    destruct (str_eqb current (lit "dark")) eqn:E.
    + apply str_eqb_eq in E. tauto.
    + apply str_eqb_neq in E. split; [discriminate | contradiction].
Qed.

(** X9: a toggle always lands on [light] or [dark], and from one of the
    two it goes to the other, so that two toggles bring the theme back;
    a stored theme is taken as it is, so the page can start with a theme
    that is neither, and then the first toggle gives [light]. *)
Theorem toggle_lands_on_a_known_theme :
  (forall t, toggleTheme t = lit "light" \/ toggleTheme t = lit "dark") /\
  (forall t, t = lit "light" \/ t = lit "dark" ->
     toggleTheme t <> t /\ toggleTheme (toggleTheme t) = t) /\
  (forall value prefers storage,
     value <> [] ->
     initialTheme (Some {| localStorage := Some (setItem (lit "theme") value storage);
                           prefersDark := prefers |}) = value) /\
  (forall t, t <> lit "light" -> toggleTheme t = lit "light").
Proof.
  split; [exact toggleTheme_known|]. split; [|split].
  - intros t [-> | ->]; split; vm_compute; congruence.
  - intros value prefers storage Hne. unfold initialTheme, setItem.
    cbn [localStorage]. rewrite str_eqb_refl.
    destruct value; [contradiction|]. reflexivity.
  - intros t Ht. unfold toggleTheme. apply str_eqb_neq in Ht. rewrite Ht. reflexivity.
Qed.

Lemma indexOfFrom_absent p : forall messages i,
  forallb (fun m => negb (str_eqb m p)) messages = true ->
  indexOfFrom i messages p = (-1)%Z.
Proof.
  induction messages as [|m ms IH]; intros i H; cbn in *; [reflexivity|].
  apply andb_true_iff in H. destruct H as [Hm Hms].
  apply negb_true_iff in Hm. rewrite Hm. apply IH. exact Hms.
Qed.

Lemma indexOfFrom_nth : forall messages i j m,
  NoDup messages -> nth_error messages j = Some m ->
  indexOfFrom i messages m = (i + Z.of_nat j)%Z.
Proof.
  induction messages as [|x ms IH]; intros i j m Hnd Hj.
  - destruct j; discriminate.
  - inversion Hnd as [|? ? Hx Hms]; subst. destruct j as [|j]; cbn in *.
    + injection Hj as ->. rewrite str_eqb_refl. lia.
    + destruct (str_eqb x m) eqn:E.
      * apply str_eqb_eq in E. subst x. apply nth_error_In in Hj. contradiction.
      * rewrite (IH (i + 1)%Z j m Hms Hj). lia.
Qed.

(** One firing, from a message that stands at index [j] of a list without
    repetitions. *)
Lemma onProgress_next messages j :
  NoDup messages -> j < length messages ->
  onProgress messages (nth_error messages j) =
  nth_error messages ((j + 1) mod length messages).
Proof.
  intros Hnd Hj. destruct (nth_error messages j) as [m|] eqn:Hm;
    [|apply nth_error_None in Hm; lia].
  unfold onProgress, indexOf. rewrite (indexOfFrom_nth _ 0%Z j m Hnd Hm).
  unfold remainder, element.
  destruct (Z.of_nat (length messages) =? 0)%Z eqn:E0; [apply Z.eqb_eq in E0; lia|].
  rewrite Z.rem_mod_nonneg by lia.
  replace (0 + Z.of_nat j + 1)%Z with (Z.of_nat (j + 1)) by lia.
  rewrite <- Nat2Z.inj_mod.
  destruct (Z.of_nat ((j + 1) mod length messages) <? 0)%Z eqn:E1;
    [apply Z.ltb_lt in E1; lia|].
  rewrite Nat2Z.id. reflexivity.
Qed.

(** X10: when the loading messages are pairwise different, the firings
    of the interval show them in turn and start again after the last:
    after [k] firings from the first message, the message at index
    [k mod n] of the [n] messages is shown. *)
Theorem progress_cycles_through_the_messages messages k :
  NoDup messages -> messages <> [] ->
  Nat.iter k (onProgress messages) (element messages (Some 0%Z)) =
  nth_error messages (k mod length messages).
Proof.
  intros Hnd Hne.
  assert (Hlen : 0 < length messages) by (destruct messages; [contradiction | cbn; lia]).
  induction k as [|k IH].
  - cbn [Nat.iter]. rewrite Nat.Div0.mod_0_l. reflexivity.
  - change (Nat.iter (S k) (onProgress messages) (element messages (Some 0%Z)))
      with (onProgress messages
              (Nat.iter k (onProgress messages) (element messages (Some 0%Z)))).
    rewrite IH, onProgress_next; [|exact Hnd|apply Nat.mod_upper_bound; lia].
    rewrite Nat.Div0.add_mod_idemp_l. f_equal. f_equal. lia.
Qed.

(** X11: a message that is not one of the loading messages, or no message
    at all, is followed by the first loading message; with no loading
    messages every firing leaves [undefined]. So the first firing after
    "Finalizing video file..." puts the first loading message back, when
    that text is not one of them. *)
Theorem progress_restarts_after_a_foreign_message :
  (forall first others prev,
     forallb (fun m => negb (str_eqb m prev)) (first :: others) = true ->
     onProgress (first :: others) (Some prev) = Some first) /\
  (forall first others, onProgress (first :: others) None = Some first) /\
  (forall prev, onProgress [] prev = None).
Proof.
  split; [|split].
  - intros first others prev H. unfold onProgress, indexOf.
    rewrite (indexOfFrom_absent prev _ _ H).
    unfold remainder, element.
    destruct (Z.of_nat (length (first :: others)) =? 0)%Z eqn:E0;
      [apply Z.eqb_eq in E0; cbn [length] in E0; lia|].
    change (-1 + 1)%Z with 0%Z. rewrite Z.rem_0_l by (cbn [length]; lia).
    reflexivity.
  - intros first others. unfold onProgress, indexOf, remainder, element.
    destruct (Z.of_nat (length (first :: others)) =? 0)%Z eqn:E0;
      [apply Z.eqb_eq in E0; cbn [length] in E0; lia|].
    change (-1 + 1)%Z with 0%Z. rewrite Z.rem_0_l by (cbn [length]; lia).
    reflexivity.
  - intros prev. reflexivity.
Qed.

(** X12: the name offered for the download is made of what stands before
    the first full stop of the name of the uploaded file, not of the name
    without its extension: whatever follows the first full stop is left
    out, and two files whose names agree up to it get the same name. *)
Theorem download_name_stops_at_the_first_full_stop base rest :
  lacks fullStop base = true ->
  downloadName (base ++ fullStop :: rest) = lit "route_video_" ++ base ++ lit ".mp4" /\
  downloadName base = lit "route_video_" ++ base ++ lit ".mp4" /\
  forall rest', downloadName (base ++ fullStop :: rest') =
                downloadName (base ++ fullStop :: rest).
Proof.
  intros H. unfold downloadName.
  split; [|split].
  - rewrite (splitChar_piece _ _ _ H). reflexivity.
  - rewrite (splitChar_last _ _ H). reflexivity.
  - intros rest'. rewrite !(splitChar_piece _ _ _ H). reflexivity.
Qed.

End PageFacts.

(* ===================================================================== *)
(** ** Choosing a file *)
(* ===================================================================== *)

Section UploadFacts.
Import JS Builtins App Documents Page.

Lemma orThrow_Return message coords result :
  orThrow message coords = Return result -> result = coords /\ coords <> [].
Proof.
  unfold orThrow. destruct coords as [|c cs]; cbn; [discriminate|].
  intros H. injection H as <-. split; [reflexivity | discriminate].
Qed.

Lemma orThrow_Throw message coords thrown :
  orThrow message coords = Throw thrown -> thrown = message.
Proof.
  unfold orThrow. destruct coords as [|c cs]; cbn; [|discriminate].
  intros H. injection H as <-. reflexivity.
Qed.

Lemma endsWith_app a b : endsWith (a ++ b) b = true.
Proof.
  unfold endsWith, startsWith. rewrite rev_app_distr, stripPrefix_app. reflexivity.
Qed.

Variable toLowerCase : str -> str.

(** What reading a track comes to: a route that is not empty, or one of
    three messages. *)
Lemma readTrack_outcome file content :
  (exists coords, readTrack toLowerCase file content = Return coords /\ coords <> []) \/
  (exists message,
     readTrack toLowerCase file content = Throw message /\
     In message [gpxErrorMessage; kmlErrorMessage; unsupportedMessage]).
Proof.
  unfold readTrack.
  destruct (endsWith (toLowerCase (name file)) (lit ".gpx")).
  - rewrite parseGpx_orThrow.
    destruct (orThrow gpxErrorMessage (gpxCoords content)) as [coords|message] eqn:E.
    + left. exists coords. split; [reflexivity|].
      destruct (orThrow_Return _ _ _ E) as [-> Hne]. exact Hne.
    + right. exists message. split; [reflexivity|].
      rewrite (orThrow_Throw _ _ _ E). cbn. auto.
  - destruct (endsWith (toLowerCase (name file)) (lit ".kml")).
    + rewrite parseKml_orThrow.
      destruct (orThrow kmlErrorMessage (kmlCoords content)) as [coords|message] eqn:E.
      * left. exists coords. split; [reflexivity|].
        destruct (orThrow_Return _ _ _ E) as [-> Hne]. exact Hne.
      * right. exists message. split; [reflexivity|].
        rewrite (orThrow_Throw _ _ _ E). cbn. auto.
    + right. exists unsupportedMessage. split; [reflexivity|]. cbn. auto.
Qed.

(** [resetState] leaves no file to read. *)
Lemma firstFile_resetState v : firstFile (resetState v) = None.
Proof. unfold firstFile, resetState. cbn [fileInput]. destruct (fileInput v); reflexivity. Qed.

(** X13: a change of the file input never gets a file read.
    [handleFileChange] runs [resetState] first, which sets the value of
    the input to the empty string and so empties its list of selected
    files; [event.target.files?.[0]] is then [undefined] and the handler
    returns. Whatever files were chosen, the page is left as [resetState]
    leaves it: no file name, no route, no error, nothing loading, the
    upload block back on the page over an empty input, and no reader
    started. The callbacks of the reader, taken by themselves, would
    leave a route that is not empty and the error as it was, or no route
    and one of four messages. *)
Theorem file_change_finds_no_file :
  (forall v, handleFileChange v = (resetState v, None)) /\
  (forall chosen v,
     showsUpload (state v) = true ->
     let picked := selectFiles chosen (render v) in
     let v' := render (fst (handleFileChange picked)) in
     firstFile picked = nth_error chosen 0 /\
     snd (handleFileChange picked) = None /\
     fileName (state v') = [] /\
     routeData (state v') = None /\
     error (state v') = None /\
     isLoading (state v') = false /\
     videoUrl (state v') = None /\
     progressMessage (state v') = Some [] /\
     theme (state v') = theme (state v) /\
     showsUpload (state v') = true /\ showsRoute (state v') = false /\
     fileInput v' = Some emptyInput) /\
  (forall file content st,
     let st' := onload toLowerCase file content st in
     fileName st' = fileName st /\ isLoading st' = isLoading st /\
     videoUrl st' = videoUrl st /\ progressMessage st' = progressMessage st /\
     theme st' = theme st /\
     ((exists coords,
         readTrack toLowerCase file content = Return coords /\
         routeData st' = Some coords /\ coords <> [] /\
         error st' = error st /\
         showsRoute st' = true /\ showsUpload st' = false) \/
      (exists message,
         readTrack toLowerCase file content = Throw message /\
         routeData st' = None /\
         error st' = Some message /\
         In message [gpxErrorMessage; kmlErrorMessage; unsupportedMessage] /\
         showsRoute st' = false /\ showsError st' = true))) /\
  (forall st,
     routeData (onerror st) = None /\
     error (onerror st) = Some readErrorMessage /\
     showsRoute (onerror st) = false /\ showsError (onerror st) = true).
Proof.
  split; [|split; [|split]].
  - intros v. unfold handleFileChange. rewrite firstFile_resetState. reflexivity.
  - intros chosen v Hup picked v'. subst picked v'.
    unfold handleFileChange. rewrite firstFile_resetState.
    unfold firstFile, selectFiles, render, resetState, showsUpload, showsRoute in *.
    cbn [state fileInput fst snd files] in *. rewrite Hup.
    split; [destruct (fileInput v); reflexivity|].
    repeat (split; [reflexivity|]).
    destruct (fileInput v); reflexivity.
  - intros file content st st'. subst st'. unfold onload.
    destruct (readTrack_outcome file content)
      as [(coords & E & Hne)|(message & E & Hin)]; rewrite E.
    + repeat (split; [reflexivity|]). left. exists coords.
      split; [reflexivity|]. split; [reflexivity|]. split; [exact Hne|].
      repeat split; reflexivity.
    + repeat (split; [reflexivity|]). right. exists message.
      split; [reflexivity|]. split; [reflexivity|]. split; [reflexivity|].
      split; [exact Hin|]. split; [reflexivity|].
      cbn in Hin. destruct Hin as [<-|[<-|[<-|[]]]]; reflexivity.
  - intros st. repeat split; reflexivity.
Qed.

(** X14: which parser reads the file is settled by the end of its name
    alone, whatever letters of the extension are capitals, and never by
    its content: a name that ends with [.gpx] in any mix of cases goes to
    [parseGpx], one that ends with [.kml] to [parseKml], and a name that
    ends with neither is refused without a look at the content. *)
Theorem extension_alone_selects_the_parser base extension content :
  lowersAscii toLowerCase ->
  forallb isAscii (base ++ extension) = true ->
  (map asciiLower extension = lit ".gpx" ->
     readTrack toLowerCase {| name := base ++ extension |} content = parseGpx content) /\
  (map asciiLower extension = lit ".kml" ->
     readTrack toLowerCase {| name := base ++ extension |} content = parseKml content) /\
  (endsWith (map asciiLower (base ++ extension)) (lit ".gpx") = false ->
   endsWith (map asciiLower (base ++ extension)) (lit ".kml") = false ->
     readTrack toLowerCase {| name := base ++ extension |} content =
       Throw unsupportedMessage).
Proof.
  intros Hlower Hascii. unfold readTrack. cbn [name].
  rewrite (Hlower _ Hascii). split; [|split].
  - intros He. rewrite map_app, He, endsWith_app. reflexivity.
  - intros He. rewrite map_app, He, endsWith_app.
    destruct (endsWith (map asciiLower base ++ lit ".kml") (lit ".gpx")) eqn:E;
      [|reflexivity].
    exfalso. unfold endsWith, startsWith in E. rewrite rev_app_distr in E.
    cbn in E. discriminate.
  - intros Hg Hk. rewrite Hg, Hk. reflexivity.
Qed.

(** X15: the file input is an element of the upload block, so on a
    rendered page a click on it opens the dialog exactly when that block
    is shown, that is when there is no route and nothing is loading. On a
    page that shows "Upload another file" the reference to the input is
    [null] and the button does nothing; so it is on the page a loaded
    route leaves. After [resetState] the dialog opens again. *)
Theorem upload_another_file_does_nothing :
  (forall v, clickFileInput (render v) = showsUpload (state v)) /\
  (forall v, showsActions (state (render v)) = true ->
     clickFileInput (render v) = false) /\
  (forall file content st input coords,
     readTrack toLowerCase file content = Return coords ->
     clickFileInput
       (render {| state := onload toLowerCase file content st; fileInput := input |}) = false) /\
  (forall v, clickFileInput (render (resetState v)) = true).
Proof.
  split; [|split; [|split]].
  - intros v. unfold clickFileInput, render. cbn [fileInput].
    destruct (showsUpload (state v)); [destruct (fileInput v)|]; reflexivity.
  - intros v H. unfold clickFileInput, render, showsActions, showsUpload, showsRoute in *.
    cbn [state fileInput] in *.
    destruct (truthyRoute (routeData (state v))); [reflexivity | discriminate].
  - intros file content st input coords H.
    unfold onload. rewrite H. reflexivity.
  - intros v. unfold clickFileInput, render, resetState. cbn.
    destruct (fileInput v); reflexivity.
Qed.

End UploadFacts.

(* ===================================================================== *)
(** ** From the file to the map *)
(* ===================================================================== *)

Section MapFacts.
Import JS App Documents Numerals RouteMap.

(** What is drawn for a route that is not empty, in a mounted
    container. *)
Lemma draw_route route theme :
  route <> [] ->
  exists d,
    draw (Some route) theme true = Some d /\
    coordinates (fitted d) = map position route /\
    nth_error (map position route) 0 = Some (startCircle d) /\
    nth_error (map position route) (length route - 1) = Some (endCircle d).
Proof.
  intros Hne. unfold draw.
  destruct (length route =? 0) eqn:E;
    [apply Nat.eqb_eq in E; destruct route; [contradiction|discriminate]|].
  cbn [orb negb].
  destruct (nth_error route 0) as [s|] eqn:Hs;
    [|apply nth_error_None in Hs; destruct route; [contradiction|cbn in Hs; lia]].
  destruct (nth_error route (length route - 1)) as [e|] eqn:He;
    [|apply nth_error_None in He; destruct route; [contradiction|cbn in He; lia]].
  eexists. split; [reflexivity|]. cbn [fitted startCircle endCircle geoJsonRoute coordinates].
  split; [reflexivity|].
  split; rewrite nth_error_map; [rewrite Hs | rewrite He]; reflexivity.
Qed.

(** X16: a KML track goes onto the map as it is written: for a block of
    items of which at least one is a valid token, the line handed to the
    drawing library has one position for each valid token, in the order
    of the tokens, and each position is made of the binary64 numbers
    nearest to the first two numerals of its token, in the order in which
    they stand; the start circle is at the first valid token and the end
    circle at the last; the route is never empty, so the effect always
    draws. *)
Theorem kml_track_is_drawn_as_written pre w0 items post theme :
  validTokensOf items <> [] ->
  noBlock pre = true ->
  allWhite w0 = true ->
  forallb (fun iw => isItem (fst iw)) items = true ->
  spaced items = true ->
  exists coords d,
    parseKml (pre ++ blockText (itemsText w0 items) ++ post) = Return coords /\
    draw (Some coords) theme true = Some d /\
    coordinates (fitted d) = map tokenPosition (validTokensOf items) /\
    nth_error (map tokenPosition (validTokensOf items)) 0 = Some (startCircle d) /\
    nth_error (map tokenPosition (validTokensOf items))
      (length (validTokensOf items) - 1) = Some (endCircle d).
Proof.
  intros Hne Hpre Hw0 Hitems Hsp.
  assert (Hitems' : items <> []).
  { intros E. rewrite E in Hne. apply Hne. reflexivity. }
  set (coords := map tokenPoint (validTokensOf items)).
  assert (Hcoords : coords <> []).
  { unfold coords. destruct (validTokensOf items); [congruence|discriminate]. }
  destruct (draw_route coords theme Hcoords) as (d & Hd & Hline & Hstart & Hend).
  assert (Hpos : map position coords = map tokenPosition (validTokensOf items)).
  { unfold coords. rewrite map_map. reflexivity. }
  exists coords, d. split; [|split; [exact Hd|split; [|split]]].
  - rewrite parseKml_orThrow, (kmlCoords_items pre w0 items post Hitems' Hpre Hw0 Hitems Hsp).
    apply orThrow_nonempty. exact Hcoords.
  - rewrite Hline. exact Hpos.
  - rewrite <- Hpos. exact Hstart.
  - rewrite <- Hpos. unfold coords in Hend. rewrite length_map in Hend. exact Hend.
Qed.

(** X17: a GPX track goes onto the map with its numbers in the other
    order: for markers written with numerals, the line has one position
    for each marker, in the order of the markers, and each position is
    the binary64 number nearest to the numeral of [lon] followed by the
    one nearest to the numeral of [lat], though [lat] stands first in the
    marker; the start circle is at the first marker and the end circle at
    the last. *)
Theorem gpx_track_is_drawn_longitude_first g ps theme :
  ps <> [] ->
  noMarker g = true ->
  forallb (fun pg => isNumericMarker (fst pg) && noMarker (snd pg)) ps = true ->
  exists coords d,
    parseGpx (numericGpxText g ps) = Return coords /\
    draw (Some coords) theme true = Some d /\
    coordinates (fitted d) = map (fun pg => markerPosition (fst pg)) ps /\
    nth_error (map (fun pg => markerPosition (fst pg)) ps) 0 = Some (startCircle d) /\
    nth_error (map (fun pg => markerPosition (fst pg)) ps) (length ps - 1) =
      Some (endCircle d).
Proof.
  intros Hne Hg Hps.
  set (coords := map (fun pg : NumericMarker * str => markerPoint (fst pg)) ps).
  assert (Hcoords : coords <> []).
  { unfold coords. destruct ps; [congruence|discriminate]. }
  destruct (draw_route coords theme Hcoords) as (d & Hd & Hline & Hstart & Hend).
  assert (Hpos : map position coords = map (fun pg => markerPosition (fst pg)) ps).
  { unfold coords. rewrite map_map. reflexivity. }
  exists coords, d. split; [|split; [exact Hd|split; [|split]]].
  - rewrite parseGpx_orThrow, (gpxCoords_numeric g ps Hg Hps).
    apply orThrow_nonempty. exact Hcoords.
  - rewrite Hline. exact Hpos.
  - rewrite <- Hpos. exact Hstart.
  - rewrite <- Hpos. unfold coords in Hend. rewrite length_map in Hend. exact Hend.
Qed.

End MapFacts.

(* ===================================================================== *)
(** ** Generating the video *)
(* ===================================================================== *)

Section GenerationFacts.
Import JS Builtins App GeminiService Execution Download Polling Page.
Import ITreeNotations.
Local Open Scope itree_scope.

Variable messages : list str.
Variable key : str.
Variable b : Browser.

Lemma frame_suspend w : frame (ui (suspend messages b w)) = frame (ui w).
Proof. unfold suspend. cbn [ui]. destruct (intervals w); reflexivity. Qed.

(** Under the browser the service module sees the service as under
    [serve]. *)
Lemma browse_veo X (e : veoE X) w :
  fst (browse messages b X (Veo e) w) = fst (serve (service b) X e (job w)) /\
  job (snd (browse messages b X (Veo e) w)) = snd (serve (service b) X e (job w)).
Proof.
  unfold browse, serve. destruct (handle (service b) e (job w)) as [x job'].
  destruct (awaited e); split; reflexivity.
Qed.

Lemma browse_net X (e : fetchE X) w :
  fst (browse messages b X (Net e) w) = fst (answer (network b) X e (transfers w)) /\
  transfers (snd (browse messages b X (Net e) w)) = snd (answer (network b) X e (transfers w)).
Proof.
  unfold browse. destruct (answer (network b) X e (transfers w)) as [x log].
  destruct (awaitedNet e); split; reflexivity.
Qed.

(** The service module leaves the page as it is, but for the progress
    message, and sets and clears no interval. *)
Lemma browse_veo_keeps X (e : veoE X) w :
  frame (ui (snd (browse messages b X (Veo e) w))) = frame (ui w) /\
  intervals (snd (browse messages b X (Veo e) w)) = intervals w /\
  transfers (snd (browse messages b X (Veo e) w)) = transfers w.
Proof.
  unfold browse. destruct (handle (service b) e (job w)) as [x job'].
  destruct (awaited e); cbn [snd]; [rewrite frame_suspend|]; repeat split; reflexivity.
Qed.

Lemma browse_net_keeps X (e : fetchE X) w :
  frame (ui (snd (browse messages b X (Net e) w))) = frame (ui w) /\
  intervals (snd (browse messages b X (Net e) w)) = intervals w /\
  job (snd (browse messages b X (Net e) w)) = job w.
Proof.
  unfold browse. destruct (answer (network b) X e (transfers w)) as [x log].
  destruct (awaitedNet e); cbn [snd]; [rewrite frame_suspend|]; repeat split; reflexivity.
Qed.

(** A run of the job client under the browser: its result and what the
    service has seen are those of the run against the service; the page
    is as it was, but for the progress message. *)
Lemma exec_veo {R} n (t : itree veoE R) w :
  fst (exec (browse messages b) n (translate (@Veo) t) w) = fst (run n (service b) t (job w)) /\
  job (snd (exec (browse messages b) n (translate (@Veo) t) w)) = snd (run n (service b) t (job w)) /\
  frame (ui (snd (exec (browse messages b) n (translate (@Veo) t) w))) = frame (ui w) /\
  intervals (snd (exec (browse messages b) n (translate (@Veo) t) w)) = intervals w /\
  transfers (snd (exec (browse messages b) n (translate (@Veo) t) w)) = transfers w.
Proof.
  rewrite exec_translate, run_exec.
  destruct (exec_simulation (serve (service b)) (fun X e => browse messages b X (Veo e)) job
              (fun X e w => browse_veo X e w) n t w) as [Hr Hj].
  split; [exact Hr|]. split; [exact Hj|].
  apply (exec_preserves (fun X e => browse messages b X (Veo e))
           (fun w' => frame (ui w') = frame (ui w) /\ intervals w' = intervals w /\
                      transfers w' = transfers w)).
  - intros X e w0 (Hf & Hi & Ht).
    destruct (browse_veo_keeps X e w0) as (Hf' & Hi' & Ht').
    rewrite Hf', Hi', Ht'. repeat split; assumption.
  - repeat split; reflexivity.
Qed.

Lemma exec_net {R} n (t : itree fetchE R) w :
  fst (exec (browse messages b) n (translate (@Net) t) w) =
    fst (exec (answer (network b)) n t (transfers w)) /\
  transfers (snd (exec (browse messages b) n (translate (@Net) t) w)) =
    snd (exec (answer (network b)) n t (transfers w)) /\
  frame (ui (snd (exec (browse messages b) n (translate (@Net) t) w))) = frame (ui w) /\
  intervals (snd (exec (browse messages b) n (translate (@Net) t) w)) = intervals w /\
  job (snd (exec (browse messages b) n (translate (@Net) t) w)) = job w.
Proof.
  rewrite exec_translate.
  destruct (exec_simulation (answer (network b)) (fun X e => browse messages b X (Net e)) transfers
              (fun X e w => browse_net X e w) n t w) as [Hr Hj].
  split; [exact Hr|]. split; [exact Hj|].
  apply (exec_preserves (fun X e => browse messages b X (Net e))
           (fun w' => frame (ui w') = frame (ui w) /\ intervals w' = intervals w /\
                      job w' = job w)).
  - intros X e w0 (Hf & Hi & Ht).
    destruct (browse_net_keeps X e w0) as (Hf' & Hi' & Ht').
    rewrite Hf', Hi', Ht'. repeat split; assumption.
  - repeat split; reflexivity.
Qed.

(** [catch] and [finally]: what they leave, whatever the [try] block
    has left. *)
Lemma exec_generateEnd left w :
  exists w',
    exec (browse messages b) 5 (generateEnd left) w = (Some tt, w') /\
    isLoading (ui w') = false /\
    progressMessage (ui w') = Some [] /\
    error (ui w') = match snd left with
                    | inl err => Some (shownMessage err)
                    | inr _ => error (ui w)
                    end /\
    videoUrl (ui w') = videoUrl (ui w) /\
    routeData (ui w') = routeData (ui w) /\
    fileName (ui w') = fileName (ui w) /\
    theme (ui w') = theme (ui w) /\
    intervals w' = match fst left with
                   | Some id =>
                       if (id =? 0)%N then intervals w
                       else filter (fun i => negb (i =? id)%N) (intervals w)
                   | None => intervals w
                   end /\
    job w' = job w /\ transfers w' = transfers w.
Proof.
  unfold generateEnd. destruct left as [[id|] [err|[]]]; cbn [fst snd];
    rewrite ?exec_ret_bind, ?exec_trigger_bind; cbn [browse fst snd];
    rewrite ?exec_ret_bind, ?exec_trigger_bind; cbn [browse fst snd];
    try destruct (id =? 0)%N;
    rewrite ?exec_ret_bind, ?exec_trigger_bind; cbn [browse fst snd];
    rewrite exec_trigger; cbn [browse fst snd];
    (eexists; split; [reflexivity|]; repeat split; reflexivity).
Qed.

Lemma finishes_translate_veo {R} (t : itree veoE R) w r w' :
  finishes (browse messages b) (translate (@Veo) t) w r w' ->
  finishes (serve (service b)) t (job w) r (job w') /\
  frame (ui w') = frame (ui w) /\ intervals w' = intervals w /\
  transfers w' = transfers w.
Proof.
  intros [n H]. destruct (exec_veo n t w) as (Hr & Hj & Hf & Hi & Ht).
  rewrite H in Hr, Hj, Hf, Hi, Ht. cbn [fst snd] in *.
  split; [|repeat split; assumption].
  exists n. rewrite <- run_exec.
  destruct (run n (service b) t (job w)) as [r0 st0]. cbn [fst snd] in *.
  subst. reflexivity.
Qed.

Lemma finishes_translate_net {R} (t : itree fetchE R) w r w' :
  finishes (browse messages b) (translate (@Net) t) w r w' ->
  finishes (answer (network b)) t (transfers w) r (transfers w') /\
  frame (ui w') = frame (ui w) /\ intervals w' = intervals w /\
  job w' = job w.
Proof.
  intros [n H]. destruct (exec_net n t w) as (Hr & Hj & Hf & Hi & Ht).
  rewrite H in Hr, Hj, Hf, Hi, Ht. cbn [fst snd] in *.
  split; [|repeat split; assumption].
  exists n.
  destruct (exec (answer (network b)) n t (transfers w)) as [r0 st0].
  cbn [fst snd] in *. subst. reflexivity.
Qed.

(** What the [try] block leaves when it is left: the interval it has
    set, if it came to set one, is the only one that is set; the video is
    there exactly when the block has not thrown; the rest of the page is
    as it was, but for the progress message. *)
Lemma generateTry_finishes w left w' :
  finishes (browse messages b) (generateTry messages key) w left w' ->
  intervals w = [] ->
  (fst left = None /\ intervals w' = [] \/
   fst left = Some (timerId b) /\ intervals w' = [timerId b]) /\
  routeData (ui w') = routeData (ui w) /\
  fileName (ui w') = fileName (ui w) /\
  isLoading (ui w') = isLoading (ui w) /\
  error (ui w') = error (ui w) /\
  theme (ui w') = theme (ui w) /\
  match snd left with
  | inl _ => videoUrl (ui w') = videoUrl (ui w)
  | inr _ => exists blob, videoUrl (ui w') = Some (objectUrl b blob)
  end.
Proof.
  unfold generateTry. intros H Hi.
  apply finishes_bind_inv in H. destruct H as (a1 & w1 & H1 & H).
  apply finishes_trigger in H1. destruct H1 as [-> ->].
  apply finishes_bind_inv in H. destruct H as (a2 & w2 & H2 & H).
  apply finishes_trigger in H2. destruct H2 as [-> ->].
  cbn [browse fst snd] in H.
  set (w2 := suspend messages b
               (withUi (setProgressMessage (Some snapshotMessage)) w)) in *.
  assert (Hw2 : frame (ui w2) = frame (ui w) /\ intervals w2 = []).
  { subst w2. rewrite frame_suspend. split; [reflexivity | exact Hi]. }
  destruct Hw2 as [Hf2 Hi2]. clearbody w2.
  assert (Hframe : forall w0, frame (ui w0) = frame (ui w) ->
    routeData (ui w0) = routeData (ui w) /\ fileName (ui w0) = fileName (ui w) /\
    isLoading (ui w0) = isLoading (ui w) /\ error (ui w0) = error (ui w) /\
    theme (ui w0) = theme (ui w) /\ videoUrl (ui w0) = videoUrl (ui w)).
  { unfold frame. intros w0 E. injection E as -> -> -> -> -> ->.
    repeat split; reflexivity. }
  destruct (snapshot b) as [err|mapImageBase64].
  - apply finishes_ret in H. destruct H as [-> ->]. cbn [fst snd].
    split; [left; split; [reflexivity | exact Hi2]|].
    destruct (Hframe w2 Hf2) as (? & ? & ? & ? & ? & ?). repeat split; assumption.
  - destruct (truthyStr mapImageBase64); cbn [negb] in H.
    + apply finishes_bind_inv in H. destruct H as (a3 & w3 & H3 & H).
      apply finishes_trigger in H3. destruct H3 as [-> ->].
      apply finishes_bind_inv in H. destruct H as (id & w4 & H4 & H).
      apply finishes_trigger in H4. destruct H4 as [-> ->].
      cbn [browse fst snd] in H.
      match type of H with finishes _ _ ?w0 _ _ => set (w4 := w0) in * end.
      assert (Hw4 : frame (ui w4) = frame (ui w) /\ intervals w4 = [timerId b]).
      { subst w4. cbn [ui intervals withUi]. rewrite Hi2. split; [|reflexivity].
        rewrite <- Hf2. reflexivity. }
      destruct Hw4 as [Hf4 Hi4]. clearbody w4.
      apply finishes_bind_inv in H. destruct H as (r & w5 & H5 & H).
      apply finishes_translate_veo in H5. destruct H5 as (_ & Hf5 & Hi5 & _).
      rewrite Hf4 in Hf5. rewrite Hi4 in Hi5.
      destruct r as [err|videoUri].
      * apply finishes_ret in H. destruct H as [-> ->]. cbn [fst snd].
        split; [right; split; [reflexivity | exact Hi5]|].
        destruct (Hframe w5 Hf5) as (? & ? & ? & ? & ? & ?). repeat split; assumption.
      * apply finishes_bind_inv in H. destruct H as (a6 & w6 & H6 & H).
        apply finishes_trigger in H6. destruct H6 as [-> ->].
        cbn [browse fst snd] in H.
        apply finishes_bind_inv in H. destruct H as (rb & w7 & H7 & H).
        apply finishes_translate_net in H7. destruct H7 as (_ & Hf7 & Hi7 & _).
        cbn [ui intervals withUi] in Hf7, Hi7.
        assert (Hf7' : frame (ui w7) = frame (ui w)) by (rewrite Hf7, <- Hf5; reflexivity).
        rewrite Hi5 in Hi7.
        destruct rb as [err|videoBlob].
        -- apply finishes_ret in H. destruct H as [-> ->]. cbn [fst snd].
           split; [right; split; [reflexivity | exact Hi7]|].
           destruct (Hframe w7 Hf7') as (? & ? & ? & ? & ? & ?).
           repeat split; assumption.
        -- apply finishes_bind_inv in H. destruct H as (url & w8 & H8 & H).
           apply finishes_trigger in H8. destruct H8 as [-> ->].
           apply finishes_bind_inv in H. destruct H as (a9 & w9 & H9 & H).
           apply finishes_trigger in H9. destruct H9 as [-> ->].
           apply finishes_ret in H. destruct H as [-> ->]. cbn [fst snd browse].
           split; [right; split; [reflexivity | exact Hi7]|].
           destruct (Hframe w7 Hf7') as (? & ? & ? & ? & ? & ?).
           cbn [ui withUi setVideoUrl routeData fileName isLoading error theme videoUrl].
           repeat (split; [assumption|]). exists videoBlob. reflexivity.
    + apply finishes_ret in H. destruct H as [-> ->]. cbn [fst snd].
      split; [left; split; [reflexivity | exact Hi2]|].
      destruct (Hframe w2 Hf2) as (? & ? & ? & ? & ? & ?). repeat split; assumption.
Qed.

(** The page when the [try] block is entered. *)
Lemma handleGenerateVideo_enters st r w' :
  mapMounted b = true ->
  finishes (browse messages b) (handleGenerateVideo messages key) (pressed st) r w' ->
  exists left w1,
    finishes (browse messages b) (generateTry messages key)
      (withUi (setError None)
         (withUi (setVideoUrl None) (withUi (setIsLoading true) (pressed st))))
      left w1 /\
    finishes (browse messages b) (generateEnd left) w1 r w'.
Proof.
  intros Hm H. unfold handleGenerateVideo in H.
  apply finishes_bind_inv in H. destruct H as (ready & w0 & H0 & H).
  apply finishes_trigger in H0. destruct H0 as [-> ->].
  cbn [browse fst snd] in H. rewrite Hm in H. cbn [negb] in H.
  apply finishes_bind_inv in H. destruct H as (a1 & w1 & H1 & H).
  apply finishes_trigger in H1. destruct H1 as [-> ->].
  apply finishes_bind_inv in H. destruct H as (a2 & w2 & H2 & H).
  apply finishes_trigger in H2. destruct H2 as [-> ->].
  apply finishes_bind_inv in H. destruct H as (a3 & w3 & H3 & H).
  apply finishes_trigger in H3. destruct H3 as [-> ->].
  apply finishes_bind_inv in H. destruct H as (left & w4 & H4 & H).
  exists left, w4. split; assumption.
Qed.

(** X18: whatever the snapshot, the service and the network do and
    however often the interval fires, when the handler has settled the
    page is not loading, the progress message is empty, no interval is
    left set, the route, the file name and the theme are what they were,
    and the page holds either a video and no error or an error and no
    video. *)
Theorem generation_always_cleans_up st n w' :
  mapMounted b = true ->
  timerId b <> 0%N ->
  exec (browse messages b) n (handleGenerateVideo messages key) (pressed st)
    = (Some tt, w') ->
  isLoading (ui w') = false /\
  progressMessage (ui w') = Some [] /\
  intervals w' = [] /\
  routeData (ui w') = routeData st /\
  fileName (ui w') = fileName st /\
  theme (ui w') = theme st /\
  ((error (ui w') = None /\ exists blob, videoUrl (ui w') = Some (objectUrl b blob)) \/
   (exists message, error (ui w') = Some message /\ videoUrl (ui w') = None)).
Proof.
  intros Hm Hid H.
  destruct (handleGenerateVideo_enters st tt w' Hm (ex_intro _ n H))
    as (left & w1 & Htry & Hend).
  apply generateTry_finishes in Htry; [|reflexivity].
  destruct Htry as (Hint & Hroute & Hname & _ & Herr & Htheme & Hvideo).
  cbn [ui withUi pressed setError setVideoUrl setIsLoading
       routeData fileName error theme videoUrl] in Hroute, Hname, Herr, Htheme, Hvideo.
  destruct (exec_generateEnd left w1)
    as (w2 & Hrun & Hl & Hp & He & Hv & Hr & Hn & Ht & Hi & _).
  destruct (finishes_unique _ _ _ _ _ _ _ Hend (ex_intro _ 5 Hrun)) as [_ ->].
  split; [exact Hl|]. split; [exact Hp|]. split; [|split; [|split; [|split]]].
  - rewrite Hi. destruct Hint as [[-> Hnone]|[-> Hone]]; [exact Hnone|].
    destruct (timerId b =? 0)%N eqn:E; [apply N.eqb_eq in E; contradiction|].
    rewrite Hone. cbn. rewrite N.eqb_refl. reflexivity.
  - rewrite Hr. exact Hroute.
  - rewrite Hn. exact Hname.
  - rewrite Ht. exact Htheme.
  - rewrite He, Hv. destruct (snd left) as [err|u].
    + right. exists (shownMessage err). split; [reflexivity | exact Hvideo].
    + left. split; [exact Herr | exact Hvideo].
Qed.

(** The four steps before the [try] block. *)
Lemma exec_handleGenerateVideo_mounted st k :
  mapMounted b = true ->
  exec (browse messages b) (4 + k) (handleGenerateVideo messages key) (pressed st) =
  exec (browse messages b) k
    (ITree.bind (generateTry messages key) (generateEnd))
    (withUi (setError None)
       (withUi (setVideoUrl None) (withUi (setIsLoading true) (pressed st)))).
Proof.
  intros Hm. unfold handleGenerateVideo. cbn [plus].
  rewrite exec_trigger_bind. cbn [browse fst snd]. rewrite Hm. cbn [negb].
  rewrite !exec_trigger_bind. reflexivity.
Qed.

(** The [try] block, when the job client settles against the service:
    the interval is set, the job client is run, and the download, when
    there is a link. *)
Lemma generateTry_runs w img n r st' :
  snapshot b = inr (Some img) -> img <> [] ->
  intervals w = [] ->
  run n (service b) (generateRouteVideo img) (job w) = (Some r, st') ->
  exists m left w1,
    exec (browse messages b) m (generateTry messages key) w = (Some left, w1) /\
    fst left = Some (timerId b) /\
    intervals w1 = [timerId b] /\
    job w1 = st' /\
    routeData (ui w1) = routeData (ui w) /\
    fileName (ui w1) = fileName (ui w) /\
    error (ui w1) = error (ui w) /\
    theme (ui w1) = theme (ui w) /\
    match r with
    | inl err =>
        snd left = inl err /\ videoUrl (ui w1) = videoUrl (ui w) /\
        transfers w1 = transfers w
    | inr link =>
        match exec (answer (network b)) 4 (fetchVideoBlob key link) (transfers w) with
        | (Some (inr blob), log) =>
            snd left = inr tt /\ videoUrl (ui w1) = Some (objectUrl b blob) /\
            transfers w1 = log
        | (Some (inl err), log) =>
            snd left = inl err /\ videoUrl (ui w1) = videoUrl (ui w) /\
            transfers w1 = log
        | (None, _) => False
        end
    end.
Proof.
  intros Hsnap Himg Hi Hrun.
  assert (Hframe : forall w0 w1, frame (ui w0) = frame (ui w1) ->
    routeData (ui w0) = routeData (ui w1) /\ fileName (ui w0) = fileName (ui w1) /\
    error (ui w0) = error (ui w1) /\
    theme (ui w0) = theme (ui w1) /\ videoUrl (ui w0) = videoUrl (ui w1)).
  { unfold frame. intros w0 w1 E. injection E as -> -> _ -> -> ->.
    repeat split; reflexivity. }
  set (w2 := suspend messages b
               (withUi (setProgressMessage (Some snapshotMessage)) w)).
  set (w4 := {| ui := setProgressMessage (element messages (Some 0%Z)) (ui w2);
                intervals := timerId b :: intervals w2;
                awaits := awaits w2; job := job w2; transfers := transfers w2 |}).
  assert (Hstart : forall k,
    exec (browse messages b) (4 + k) (generateTry messages key) w =
    exec (browse messages b) k
      (ITree.bind (translate (@Veo) (generateRouteVideo img))
         (fun r =>
            match r with
            | inl err => Ret (Some (timerId b), inl err)
            | inr videoUri =>
                ITree.bind (ITree.trigger (SetProgressMessage (Some finalizingMessage)))
                  (fun _ =>
                     ITree.bind (translate (@Net) (fetchVideoBlob key videoUri))
                       (fun r =>
                          match r with
                          | inl err => Ret (Some (timerId b), inl err)
                          | inr videoBlob =>
                              ITree.bind (ITree.trigger (CreateObjectURL videoBlob))
                                (fun url =>
                                   ITree.bind (ITree.trigger (SetVideoUrl (Some url)))
                                     (fun _ => Ret (Some (timerId b), inr tt)))
                          end))
            end)) w4).
  { intros k. unfold generateTry. cbn [plus].
    rewrite exec_trigger_bind, exec_trigger_bind. cbn [browse fst snd].
    rewrite Hsnap. destruct img as [|c img]; [contradiction|].
    cbn [truthyStr negb toStringArg].
    rewrite exec_trigger_bind, exec_trigger_bind. cbn [browse fst snd]. reflexivity. }
  assert (Hw4 : frame (ui w4) = frame (ui w) /\ intervals w4 = [timerId b] /\
                job w4 = job w /\ transfers w4 = transfers w).
  { subst w4 w2. cbn [ui intervals job transfers suspend withUi]. rewrite Hi.
    repeat split; reflexivity. }
  destruct Hw4 as (Hf4 & Hi4 & Hj4 & Ht4). clearbody w4. clear w2.
  destruct (exec_veo n (generateRouteVideo img) w4) as (Hr & Hj & Hf & Hint & Htr).
  rewrite Hj4, Hrun in Hr, Hj. cbn [fst snd] in Hr, Hj.
  destruct (exec (browse messages b) n (translate (@Veo) (generateRouteVideo img)) w4)
    as [r0 w5] eqn:Hveo.
  cbn [fst snd] in *. subst r0.
  rewrite Hf4 in Hf. rewrite Hi4 in Hint. rewrite Ht4 in Htr.
  destruct r as [err|link].
  - exists (4 + (n + 1)), (Some (timerId b), inl err), w5.
    split; [|cbn [fst snd]].
    + rewrite Hstart. apply (exec_bind _ _ _ _ _ _ _ _ _ _ Hveo). reflexivity.
    + destruct (Hframe _ _ Hf) as (? & ? & ? & ? & ?). repeat split; assumption.
  - set (w6 := withUi (setProgressMessage (Some finalizingMessage)) w5).
    destruct (exec_net 4 (fetchVideoBlob key link) w6) as (Hr7 & Ht7 & Hf7 & Hi7 & Hj7).
    cbn [transfers withUi w6] in Hr7, Ht7. rewrite Htr in Hr7, Ht7.
    cbn [ui intervals job withUi w6] in Hf7, Hi7, Hj7.
    assert (Hf7' : frame (ui (snd (exec (browse messages b) 4
                     (translate (@Net) (fetchVideoBlob key link)) w6))) = frame (ui w))
      by (rewrite Hf7, <- Hf; reflexivity).
    rewrite Hint in Hi7. rewrite Hj in Hj7.
    pose proof (exec_fetchVideoBlob (network b) key link (transfers w)) as Htable.
    destruct (exec (browse messages b) 4 (translate (@Net) (fetchVideoBlob key link)) w6)
      as [rb w7] eqn:Hnet.
    cbn [fst snd] in *.
    destruct (exec (answer (network b)) 4 (fetchVideoBlob key link) (transfers w))
      as [[[err|blob]|] log] eqn:Hfetch; cbn [fst snd] in *; subst rb.
    + exists (4 + (n + (1 + (4 + 1)))), (Some (timerId b), inl err), w7.
      split; [|cbn [fst snd]].
      * rewrite Hstart. apply (exec_bind _ _ _ _ _ _ _ _ _ _ Hveo).
        cbn [plus]. rewrite exec_trigger_bind. cbn [browse fst snd].
        apply (exec_bind _ _ _ _ _ _ _ _ _ _ Hnet). reflexivity.
      * destruct (Hframe _ _ Hf7') as (? & ? & ? & ? & ?). repeat split; assumption.
    + exists (4 + (n + (1 + (4 + 3)))), (Some (timerId b), inr tt),
        (withUi (setVideoUrl (Some (objectUrl b blob))) w7).
      split; [|cbn [fst snd]].
      * rewrite Hstart. apply (exec_bind _ _ _ _ _ _ _ _ _ _ Hveo).
        cbn [plus]. rewrite exec_trigger_bind. cbn [browse fst snd].
        apply (exec_bind _ _ _ _ _ _ _ _ _ _ Hnet).
        rewrite exec_trigger_bind, exec_trigger_bind. reflexivity.
      * destruct (Hframe _ _ Hf7') as (? & ? & ? & ? & ?).
        cbn [ui intervals job transfers withUi setVideoUrl
             routeData fileName error theme videoUrl].
        repeat split; assumption.
    + exfalso. destruct (respond (network b) (link ++ lit "&key=" ++ key)) as [c|resp];
        [discriminate|].
      destruct (ok resp); [destruct (blobOf (network b) resp)|]; discriminate.
Qed.

Lemma state_by_fields (s t : AppState) :
  routeData s = routeData t -> fileName s = fileName t ->
  isLoading s = isLoading t -> progressMessage s = progressMessage t ->
  videoUrl s = videoUrl t -> error s = error t -> theme s = theme t ->
  s = t.
Proof. destruct s, t. cbn. intros. subst. reflexivity. Qed.

(** X19: when the job client, run against the service with the snapshot
    of the map, settles, the handler settles too, and the page shows what
    the two functions of the service module report: the message of the
    rejection of the job client, and then nothing is downloaded; or, when
    there is a link, the message of the rejection of the download; or the
    URL made for the downloaded body, and no error. In every case the
    page has stopped loading, the progress message is empty and the
    interval is cleared. *)
Theorem generation_shows_what_the_service_module_reports st img n r st' :
  mapMounted b = true ->
  snapshot b = inr (Some img) -> img <> [] ->
  timerId b <> 0%N ->
  run n (service b) (generateRouteVideo img) initial = (Some r, st') ->
  exists m w',
    (forall k, m <= k ->
       exec (browse messages b) k (handleGenerateVideo messages key) (pressed st)
         = (Some tt, w')) /\
    job w' = st' /\
    isLoading (ui w') = false /\
    progressMessage (ui w') = Some [] /\
    intervals w' = [] /\
    match r with
    | inl err =>
        error (ui w') = Some (shownMessage err) /\ videoUrl (ui w') = None /\
        transfers w' = []
    | inr link =>
        match exec (answer (network b)) 4 (fetchVideoBlob key link) [] with
        | (Some (inr blob), log) =>
            error (ui w') = None /\ videoUrl (ui w') = Some (objectUrl b blob) /\
            transfers w' = log
        | (Some (inl err), log) =>
            error (ui w') = Some (shownMessage err) /\ videoUrl (ui w') = None /\
            transfers w' = log
        | (None, _) => False
        end
    end.
Proof.
  intros Hm Hsnap Himg Hid Hrun.
  set (w0 := withUi (setError None)
               (withUi (setVideoUrl None) (withUi (setIsLoading true) (pressed st)))).
  destruct (generateTry_runs w0 img n r st' Hsnap Himg eq_refl Hrun)
    as (m & left & w1 & Htry & Hfst & Hint & Hjob & _ & _ & Herr & _ & Hout).
  destruct (exec_generateEnd left w1)
    as (w2 & Hend & Hl & Hp & He & Hv & _ & _ & _ & Hi & Hj & Ht).
  exists (4 + (m + 5)), w2. split; [|split; [|split; [|split; [|split]]]].
  - intros k Hk. apply (exec_finished _ (4 + (m + 5))); [|exact Hk].
    rewrite (exec_handleGenerateVideo_mounted st _ Hm).
    apply (exec_bind _ _ _ _ _ _ _ _ _ _ Htry). exact Hend.
  - rewrite Hj. exact Hjob.
  - exact Hl.
  - exact Hp.
  - rewrite Hi, Hfst, Hint.
    destruct (timerId b =? 0)%N eqn:E; [apply N.eqb_eq in E; contradiction|].
    cbn. rewrite N.eqb_refl. reflexivity.
  - cbn [transfers w0 withUi pressed] in Hout. rewrite He, Hv, Ht.
    destruct r as [err|link].
    + destruct Hout as (-> & Hvid & Htr). repeat split; assumption.
    + destruct (exec (answer (network b)) 4 (fetchVideoBlob key link) [])
        as [[[err|blob]|] log]; [| |contradiction].
      * destruct Hout as (-> & Hvid & Htr). repeat split; assumption.
      * destruct Hout as (-> & Hvid & Htr). repeat split; assumption.
Qed.

(** The handler when the snapshot gives nothing to submit. *)
Lemma exec_handleGenerateVideo_no_snapshot st message :
  mapMounted b = true ->
  match snapshot b with
  | inl err => Some (shownMessage err)
  | inr v => if truthyStr v then None else Some noImageMessage
  end = Some message ->
  exists w',
    (forall k, 11 <= k ->
       exec (browse messages b) k (handleGenerateVideo messages key) (pressed st) =
       (Some tt, w')) /\
    ui w' = {| routeData := routeData st; fileName := fileName st;
               isLoading := false; progressMessage := Some [];
               videoUrl := None; error := Some message; theme := theme st |} /\
    intervals w' = [] /\ job w' = initial /\ transfers w' = [].
Proof.
  intros Hm Hs.
  set (w2 := suspend messages b
               (withUi (setProgressMessage (Some snapshotMessage))
                  (withUi (setError None)
                     (withUi (setVideoUrl None)
                        (withUi (setIsLoading true) (pressed st)))))).
  assert (Hleft : exists err,
    shownMessage err = message /\
    forall k,
      exec (browse messages b) (4 + (2 + k)) (handleGenerateVideo messages key)
        (pressed st) =
      exec (browse messages b) k (generateEnd (None, inl err)) w2).
  { destruct (snapshot b) as [err|v] eqn:Hsnap.
    - exists err. injection Hs as <-. split; [reflexivity|]. intros k.
      rewrite (exec_handleGenerateVideo_mounted st _ Hm).
      unfold generateTry. cbn [plus].
      rewrite exec_bind_bind, exec_trigger_bind.
      rewrite exec_bind_bind, exec_trigger_bind. cbn [browse fst snd].
      rewrite Hsnap, exec_ret_bind. reflexivity.
    - exists (ErrorObject noImageMessage).
      destruct (truthyStr v) eqn:Hv; [discriminate|]. injection Hs as <-.
      split; [reflexivity|]. intros k.
      rewrite (exec_handleGenerateVideo_mounted st _ Hm).
      unfold generateTry. cbn [plus].
      rewrite exec_bind_bind, exec_trigger_bind.
      rewrite exec_bind_bind, exec_trigger_bind. cbn [browse fst snd].
      rewrite Hsnap, Hv. cbn [negb]. rewrite exec_ret_bind. reflexivity. }
  destruct Hleft as (err & Herr & Hsteps).
  destruct (exec_generateEnd (None, inl err) w2)
    as (w' & Hrun & Hl & Hp & He & Hv & Hr & Hn & Ht & Hi & Hj & Htr).
  exists w'. split; [|split; [|split; [|split]]].
  - intros k Hk. apply (exec_finished _ (4 + (2 + 5))); [|exact Hk].
    rewrite Hsteps. exact Hrun.
  - cbn [snd] in He. rewrite Herr in He.
    apply state_by_fields; cbn [routeData fileName isLoading progressMessage
                                videoUrl error theme]; assumption.
  - exact Hi.
  - exact Hj.
  - exact Htr.
Qed.

(** X20: when the map is not mounted the handler only sets the error and
    touches nothing else, not even the flags it resets otherwise; when
    the snapshot fails, with an [Error], with anything else, or by giving
    no image, the handler shows the message of the [Error], the
    unknown-error message, or the message of its own, and nothing is
    submitted to the service, nothing is requested from the network and
    no interval is set. *)
Theorem generation_without_a_snapshot_asks_nothing st :
  (mapMounted b = false ->
   forall k, 3 <= k ->
     exec (browse messages b) k (handleGenerateVideo messages key) (pressed st) =
     (Some tt, pressed (setError (Some notReadyMessage) st))) /\
  (mapMounted b = true ->
   forall message,
     match snapshot b with
     | inl err => Some (shownMessage err)
     | inr v => if truthyStr v then None else Some noImageMessage
     end = Some message ->
     exists w',
       (forall k, 11 <= k ->
          exec (browse messages b) k (handleGenerateVideo messages key) (pressed st) =
          (Some tt, w')) /\
       ui w' = {| routeData := routeData st; fileName := fileName st;
                  isLoading := false; progressMessage := Some [];
                  videoUrl := None; error := Some message; theme := theme st |} /\
       intervals w' = [] /\ job w' = initial /\ transfers w' = []).
Proof.
  split.
  - intros Hm k Hk. apply (exec_finished _ 3); [|exact Hk].
    unfold handleGenerateVideo. rewrite exec_trigger_bind. cbn [browse fst snd].
    rewrite Hm. cbn [negb]. rewrite exec_trigger. reflexivity.
  - intros Hm message Hs. exact (exec_handleGenerateVideo_no_snapshot st message Hm Hs).
Qed.

(** X24: the snapshot the map hands over is what stands between the
    first and the second comma of the data URL of the canvas. For a data
    URL with one comma it is the whole payload; when the payload is
    empty, as for a canvas without area, or when the URL has no comma,
    the handler shows "Could not generate map image." and submits
    nothing. *)
Theorem empty_canvas_gives_no_snapshot header payload :
  Documents.lacks comma header = true -> Documents.lacks comma payload = true ->
  RouteMap.base64Data (header ++ comma :: payload) = Some payload /\
  RouteMap.base64Data header = None /\
  (mapMounted b = true ->
   (snapshot b = inr (RouteMap.base64Data (header ++ [comma])) \/
    snapshot b = inr (RouteMap.base64Data header)) ->
   forall st, exists w',
     (forall k, 11 <= k ->
        exec (browse messages b) k (handleGenerateVideo messages key) (pressed st) =
        (Some tt, w')) /\
     error (ui w') = Some noImageMessage /\ videoUrl (ui w') = None /\
     isLoading (ui w') = false /\
     job w' = initial /\ transfers w' = [] /\ intervals w' = []).
Proof.
  intros Hh Hp.
  assert (Hone : forall body, Documents.lacks comma body = true ->
                 RouteMap.base64Data (header ++ comma :: body) = Some body).
  { intros body Hb. unfold RouteMap.base64Data.
    rewrite (splitChar_piece _ _ _ Hh), (splitChar_last _ _ Hb). reflexivity. }
  assert (Hnone : RouteMap.base64Data header = None).
  { unfold RouteMap.base64Data. rewrite (splitChar_last _ _ Hh). reflexivity. }
  split; [exact (Hone payload Hp)|]. split; [exact Hnone|].
  intros Hm Hs st.
  assert (Hfalsy : match snapshot b with
                   | inl err => Some (shownMessage err)
                   | inr v => if truthyStr v then None else Some noImageMessage
                   end = Some noImageMessage).
  { destruct Hs as [-> | ->].
    - rewrite (Hone [] eq_refl). reflexivity.
    - rewrite Hnone. reflexivity. }
  destruct (exec_handleGenerateVideo_no_snapshot st noImageMessage Hm Hfalsy)
    as (w' & Hrun & Hui & Hi & Hj & Ht).
  exists w'. split; [exact Hrun|]. rewrite Hui. cbn.
  repeat split; assumption.
Qed.

(** The [try] block up to the call of the job client. *)
Lemma exec_generateTry_started w img k :
  snapshot b = inr (Some img) -> img <> [] ->
  exec (browse messages b) (4 + k) (generateTry messages key) w =
  exec (browse messages b) k
    (ITree.bind (translate (@Veo) (generateRouteVideo img)) (finishTry key (timerId b)))
    {| ui := setProgressMessage (element messages (Some 0%Z))
               (ui (suspend messages b
                      (withUi (setProgressMessage (Some snapshotMessage)) w)));
       intervals := timerId b :: intervals w;
       awaits := S (awaits w);
       job := job w;
       transfers := transfers w |}.
Proof.
  intros Hsnap Himg. unfold generateTry. cbn [plus].
  rewrite exec_trigger_bind, exec_trigger_bind. cbn [browse fst snd].
  rewrite Hsnap. destruct img as [|c img]; [contradiction|].
  cbn [truthyStr negb toStringArg].
  rewrite exec_trigger_bind, exec_trigger_bind. cbn [browse fst snd]. reflexivity.
Qed.

(** For a job that is never done the job client has no result. *)
Lemma run_stuck img operation :
  generateVideos (service b) (request img) = inr operation ->
  isDone operation = false ->
  neverDone (service b) ->
  forall n st, fst (run n (service b) (generateRouteVideo img) st) = None.
Proof.
  intros Hs Hd Hnever [|n] st; [reflexivity|].
  rewrite (run_submit_accepted (service b) _ _ _ _ Hs).
  apply poll_pending_no_result; assumption.
Qed.

(** X21: for a job that never reports completion the handler never
    settles: from its eighth step on the page is loading, the interval is
    set, no error and no video are shown, and the service sees ever more
    waits. *)
Theorem generation_keeps_loading_for_a_stuck_job st img operation :
  mapMounted b = true ->
  snapshot b = inr (Some img) -> img <> [] ->
  generateVideos (service b) (request img) = inr operation ->
  isDone operation = false ->
  neverDone (service b) ->
  (forall n,
     fst (exec (browse messages b) n (handleGenerateVideo messages key) (pressed st))
       = None) /\
  (forall n, 8 <= n ->
     let w := snd (exec (browse messages b) n (handleGenerateVideo messages key)
                     (pressed st)) in
     isLoading (ui w) = true /\ intervals w = [timerId b] /\
     error (ui w) = None /\ videoUrl (ui w) = None) /\
  (forall k, exists n,
     k < waits (job (snd (exec (browse messages b) n
                            (handleGenerateVideo messages key) (pressed st))))).
Proof.
  intros Hm Hsnap Himg Hs Hd Hnever.
  set (w0 := withUi (setError None)
               (withUi (setVideoUrl None) (withUi (setIsLoading true) (pressed st)))).
  set (w4 := {| ui := setProgressMessage (element messages (Some 0%Z))
                        (ui (suspend messages b
                               (withUi (setProgressMessage (Some snapshotMessage)) w0)));
                intervals := timerId b :: intervals w0;
                awaits := S (awaits w0);
                job := job w0;
                transfers := transfers w0 |}).
  assert (Hlate : forall k,
    exec (browse messages b) (4 + (4 + k)) (handleGenerateVideo messages key) (pressed st)
    = (None, snd (exec (browse messages b) k
                    (translate (@Veo) (generateRouteVideo img)) w4))).
  { intros k.
    destruct (exec_veo k (generateRouteVideo img) w4) as (Hr & _).
    rewrite (run_stuck img operation Hs Hd Hnever) in Hr.
    rewrite (exec_handleGenerateVideo_mounted st _ Hm).
    fold w0.
    assert (Htry : exec (browse messages b) (4 + k) (generateTry messages key) w0 =
                   (None, snd (exec (browse messages b) k
                                 (translate (@Veo) (generateRouteVideo img)) w4))).
    { rewrite (exec_generateTry_started w0 img k Hsnap Himg). fold w4.
      apply exec_bind_unfinished. exact Hr. }
    rewrite exec_bind_unfinished; rewrite Htry; reflexivity. }
  split; [|split].
  - intros n.
    destruct (exec (browse messages b) n (handleGenerateVideo messages key) (pressed st))
      as [[[]|] w] eqn:E; [|reflexivity].
    pose proof (exec_finished _ _ _ _ _ _ E (4 + (4 + n)) ltac:(lia)) as E'.
    rewrite Hlate in E'. discriminate.
  - intros n Hn. replace n with (4 + (4 + (n - 8))) by lia. rewrite Hlate.
    cbn [snd]. cbv zeta.
    destruct (exec_veo (n - 8) (generateRouteVideo img) w4) as (_ & _ & Hf & Hi & _).
    rewrite Hi. split; [|split; [reflexivity|]].
    + unfold frame in Hf. injection Hf as _ _ -> _ _ _. reflexivity.
    + unfold frame in Hf. injection Hf as _ _ _ -> -> _. split; reflexivity.
  - intros k.
    destruct (poll_pending_turns (service b) afterLoop Hnever (S k) operation
                (record (Submitted (request img)) initial) Hd)
      as (st' & Hrun & Hw & _).
    exists (4 + (4 + S (3 * S k))). rewrite Hlate. cbn [snd].
    destruct (exec_veo (S (3 * S k)) (generateRouteVideo img) w4) as (_ & Hj & _).
    rewrite Hj. cbn [job w4 w0 withUi pressed].
    rewrite (run_submit_accepted (service b) _ _ _ _ Hs), Hrun, Hw. lia.
Qed.

End GenerationFacts.

(* ===================================================================== *)
(** ** Track points that parseGpx does not see *)
(* ===================================================================== *)

Section LonFirst.
Import JS RegExp App Documents Variants.

(** After white space, [lon=] is not [lat=]. *)
Lemma no_lat_after_white : forall w w1 s' tail,
  allWhite w = true -> allWhite w1 = true ->
  w ++ s' = w1 ++ lit "lon=" ++ tail ->
  stripPrefix (lit "lat=" ++ [dquote]) s' = None.
Proof.
  induction w as [|a w IH]; intros w1 s' tail Hw Hw1 E.
  - cbn [app] in E. subst s'. destruct w1 as [|b w1].
    + reflexivity.
    + cbn in Hw1. apply andb_true_iff in Hw1. destruct Hw1 as [Hb _].
      change (lit "lat=" ++ [dquote]) with (108%N :: lit "at=" ++ [dquote]).
      cbn [app stripPrefix].
      destruct (char_eqb 108%N b) eqn:Eb; [|reflexivity].
      apply char_eqb_eq in Eb. subst b. discriminate.
  - cbn in Hw. apply andb_true_iff in Hw. destruct Hw as [Ha Hw].
    destruct w1 as [|b w1].
    + cbn in E. injection E as -> _. discriminate.
    + cbn in Hw1. apply andb_true_iff in Hw1. destruct Hw1 as [_ Hw1].
      cbn [app] in E. injection E as _ E. exact (IH w1 s' tail Hw Hw1 E).
Qed.

(** The pattern does not match at a marker whose [lon] comes first. *)
Lemma matchAt_lonFirst m i t :
  allWhite (afterName m) = true ->
  matchAt trkptPattern i (lonFirstText m ++ t) = None.
Proof.
  intros Hw. unfold matchAt.
  destruct (matcher trkptPattern {| rest := lonFirstText m ++ t; captures := [] |} Some)
    as [z|] eqn:E; [exfalso|reflexivity].
  replace (lonFirstText m ++ t) with
    (lit "<trkpt" ++ (afterName m ++ lit "lon=" ++
       ([dquote] ++ lonText m ++ [dquote] ++ betweenAttributes m ++
        lit "lat=" ++ [dquote] ++ latText m ++ [dquote] ++ t))) in E
    by (unfold lonFirstText; repeat rewrite <- app_assoc; reflexivity).
  unfold trkptPattern in E. rewrite matcher_lit_seq in E.
  cbn [matcher rest captures] in E.
  apply plusLoop_Some in E. destruct E as (w & s' & Hs & _ & Hall & Hc).
  symmetry in Hs.
  rewrite (no_lat_after_white w (afterName m) s' _ Hall Hw Hs) in Hc.
  discriminate.
Qed.

Lemma includes_after_lacks p : forall a g,
  lacks lessThan a = true ->
  includes (a ++ g) (lessThan :: p) = includes g (lessThan :: p).
Proof.
  induction a as [|c a IH]; intros g H; [reflexivity|].
  cbn [lacks forallb] in H. apply andb_true_iff in H. destruct H as [Hc Ha].
  apply negb_true_iff in Hc.
  cbn [app includes]. rewrite (IH g Ha).
  unfold startsWith. cbn [stripPrefix].
  unfold char_eqb in *. rewrite N.eqb_sym, Hc. reflexivity.
Qed.

Lemma lacks_app c a b : lacks c a = true -> lacks c b = true -> lacks c (a ++ b) = true.
Proof. unfold lacks. intros Ha Hb. rewrite forallb_app, Ha, Hb. reflexivity. Qed.

Lemma isNumeric_lacks_lessThan t : isNumeric t = true -> lacks lessThan t = true.
Proof.
  intros H. destruct (isNumeric_literal _ H) as [v Hv].
  destruct (literalValue_spec _ _ Hv) as [_ [Hp _]].
  exact (numChars_lack lessThan _ eq_refl Hp).
Qed.

(** A marker with [lon] first is [<] and a text without [<]. *)
Lemma lonFirstText_body m :
  wellFormed m = true ->
  exists body, lonFirstText m = lessThan :: body /\ lacks lessThan body = true.
Proof.
  unfold wellFormed. intros H.
  apply andb_true_iff in H. destruct H as [H Hlon].
  apply andb_true_iff in H. destruct H as [H Hlat].
  apply andb_true_iff in H. destruct H as [Hw1 Hw2].
  unfold isSeparator in Hw1, Hw2.
  apply andb_true_iff in Hw1, Hw2. destruct Hw1 as [_ Hw1]. destruct Hw2 as [_ Hw2].
  eexists. split; [unfold lonFirstText; reflexivity|].
  repeat apply lacks_app; try reflexivity;
    auto using allWhite_lacks_lessThan, isNumeric_lacks_lessThan.
Qed.

Lemma lonFirstStretch_app a : forall g ms,
  lonFirstStretch (a ++ g) ms = a ++ lonFirstStretch g ms.
Proof.
  intros g [|[m g'] ms]; cbn [lonFirstStretch]; [reflexivity|].
  rewrite <- app_assoc. reflexivity.
Qed.

(** The search passes over a stretch. *)
Lemma execFrom_stretch ms : forall g i t,
  noMarker g = true ->
  forallb (fun mg => wellFormed (fst mg) && noMarker (snd mg)) ms = true ->
  t = [] \/ (exists t', t = lessThan :: t') ->
  execFrom trkptPattern i (lonFirstStretch g ms ++ t) =
  execFrom trkptPattern (i + length (lonFirstStretch g ms)) t.
Proof.
  induction ms as [|[m g'] ms IH]; intros g i t Hg Hms Ht; cbn [lonFirstStretch].
  - apply (execFrom_skips (lit "trkpt"));
      [exact trkpt_no_lessThan | apply noMarker_spec; exact Hg | exact Ht].
  - cbn [forallb fst snd] in Hms. apply andb_true_iff in Hms. destruct Hms as [Hm Hms].
    apply andb_true_iff in Hm. destruct Hm as [Hm Hg'].
    destruct (lonFirstText_body m Hm) as (body & Hbody & Hlacks).
    assert (Hwhite : allWhite (afterName m) = true).
    { unfold wellFormed in Hm.
      apply andb_true_iff in Hm. destruct Hm as [Hm _].
      apply andb_true_iff in Hm. destruct Hm as [Hm _].
      apply andb_true_iff in Hm. destruct Hm as [Hw1 _].
      unfold isSeparator in Hw1. apply andb_true_iff in Hw1. tauto. }
    rewrite <- !app_assoc.
    assert (E : execFrom trkptPattern i
                  (g ++ lonFirstText m ++ lonFirstStretch g' ms ++ t) =
                execFrom trkptPattern (i + length g)
                  (lonFirstText m ++ lonFirstStretch g' ms ++ t)).
    { apply (execFrom_skips (lit "trkpt"));
        [exact trkpt_no_lessThan | apply noMarker_spec; exact Hg|].
      right. rewrite Hbody. eexists. reflexivity. }
    rewrite E. clear E.
    pose proof (matchAt_lonFirst m (i + length g) (lonFirstStretch g' ms ++ t) Hwhite)
      as Hfail.
    rewrite Hbody in Hfail |- *. cbn [app] in Hfail |- *. cbn [execFrom].
    rewrite Hfail.
    rewrite app_assoc, <- lonFirstStretch_app.
    rewrite (IH (body ++ g') (S (i + length g)) t); [| |exact Hms|exact Ht].
    + f_equal. rewrite lonFirstStretch_app, !length_app. cbn [length].
      rewrite length_app. lia.
    + unfold noMarker. change (lit "<trkpt") with (lessThan :: lit "trkpt").
      rewrite (includes_after_lacks _ _ _ Hlacks). exact Hg'.
Qed.

Lemma execFrom_only_stretch s i :
  isStretch s = true -> execFrom trkptPattern i (stretchText s) = None.
Proof.
  unfold isStretch, stretchText. intros H.
  apply andb_true_iff in H. destruct H as [Hg Hms].
  pose proof (execFrom_stretch (snd s) (fst s) i [] Hg Hms (or_introl eq_refl)) as E.
  rewrite app_nil_r in E. rewrite E. cbn [execFrom].
  unfold trkptPattern. rewrite matchAt_needs_prefix; reflexivity.
Qed.

Lemma execFrom_marker_after_stretch s m i t :
  isStretch s = true -> matchesPattern m = true ->
  execFrom trkptPattern i (stretchText s ++ markerText m ++ t) =
  Some {| index := i + length (stretchText s);
          endIndex := i + length (stretchText s) + length (markerText m);
          groups := [latText m; lonText m] |}.
Proof.
  unfold isStretch, stretchText. intros H Hm.
  apply andb_true_iff in H. destruct H as [Hg Hms].
  rewrite (execFrom_stretch (snd s) (fst s) i _ Hg Hms);
    [|right; destruct (markerText_starts m) as [t' ->]; eexists; reflexivity].
  apply execFrom_here. apply matchAt_marker. exact Hm.
Qed.

(** Every marker with [lat] first is found, in order, and nothing
    else. *)
Lemma matchAllFrom_mixedGpxText ms : forall s i,
  isStretch s = true ->
  forallb (fun entry => matchesPattern (fst entry) && isStretch (snd entry)) ms = true ->
  map groups (matchAllFrom trkptPattern i (mixedGpxText s ms)) =
  map (fun entry => [latText (fst entry); lonText (fst entry)]) ms.
Proof.
  induction ms as [|[m s'] ms IH]; intros s i Hs Hms; rewrite matchAllFrom_eq.
  - cbn [mixedGpxText]. rewrite (execFrom_only_stretch s i Hs). reflexivity.
  - cbn [mixedGpxText forallb fst snd] in *.
    apply andb_true_iff in Hms. destruct Hms as [Hm Hms].
    apply andb_true_iff in Hm. destruct Hm as [Hm Hs'].
    rewrite (execFrom_marker_after_stretch s m i _ Hs Hm).
    pose proof (markerText_length m) as Hlen.
    assert (Enext : nextIndex {| index := i + length (stretchText s);
                                 endIndex := i + length (stretchText s)
                                             + length (markerText m);
                                 groups := [latText m; lonText m] |} - i
                    = length (stretchText s ++ markerText m)).
    { unfold nextIndex. cbn [index endIndex]. rewrite length_app.
      destruct (Nat.eqb_spec (i + length (stretchText s) + length (markerText m))
                             (i + length (stretchText s))); lia. }
    rewrite Enext.
    replace (length (stretchText s ++ markerText m)
             <=? length (stretchText s ++ markerText m ++ mixedGpxText s' ms))
      with true
      by (symmetry; apply Nat.leb_le; rewrite !length_app; lia).
    cbn [map groups]. f_equal.
    rewrite app_assoc, skipn_exact by reflexivity.
    apply IH; assumption.
Qed.

(** X22: a track point whose [lon] attribute stands before [lat] is not
    read. In a text with well-formed markers of both orders, [parseGpx]
    returns one coordinate for each marker with [lat] first, in order,
    and nothing for the markers with [lon] first; a text in which every
    marker has [lon] first is refused as having no track points. *)
Theorem parseGpx_skips_markers_with_lon_first s ms :
  isStretch s = true ->
  forallb (fun entry => wellFormed (fst entry) && isStretch (snd entry)) ms = true ->
  exists coords,
    gpxCoords (mixedGpxText s ms) = coords /\
    map Some coords = map (fun entry => coordinateOf (fst entry)) ms /\
    parseGpx (mixedGpxText s ms) = orThrow gpxErrorMessage coords /\
    (ms = [] -> parseGpx (stretchText s) = Throw gpxErrorMessage).
Proof.
  intros Hs Hms.
  assert (Hshaped : forallb (fun entry => matchesPattern (fst entry) && isStretch (snd entry)) ms
                    = true).
  { rewrite forallb_forall in *. intros x Hin. specialize (Hms x Hin).
    apply andb_true_iff in Hms. destruct Hms as [Hw Hst].
    pose proof (wellFormed_shaped (fst x, []) ) as Hsh. cbn [fst snd] in Hsh.
    rewrite Hw in Hsh. specialize (Hsh eq_refl). unfold shaped in Hsh.
    cbn [fst snd] in Hsh. apply andb_true_iff in Hsh. destruct Hsh as [Hmp _].
    rewrite Hmp, Hst. reflexivity. }
  pose proof (matchAllFrom_mixedGpxText ms s 0 Hs Hshaped) as Hgroups.
  assert (Hcoords : gpxCoords (mixedGpxText s ms) =
                    map (fun entry => readMarker (fst entry, @nil char)) ms).
  { rewrite gpxCoords_map. unfold matchAll.
    revert Hgroups. generalize (matchAllFrom trkptPattern 0 (mixedGpxText s ms)).
    clear. induction ms as [|x ms IH]; intros [|mt matches] H; cbn in *;
      try discriminate; [reflexivity|].
    injection H as Hg Hrest. f_equal; [|apply IH; exact Hrest].
    apply trackPointOf_groups. exact Hg. }
  exists (map (fun entry => readMarker (fst entry, @nil char)) ms).
  split; [exact Hcoords|]. split; [|split].
  - rewrite map_map. apply map_ext_in. intros x Hin. symmetry.
    rewrite forallb_forall in Hms. specialize (Hms x Hin).
    apply andb_true_iff in Hms. destruct Hms as [Hw _].
    apply (wellFormed_readMarker (fst x, [])). cbn [fst snd]. rewrite Hw. reflexivity.
  - rewrite parseGpx_orThrow, Hcoords. reflexivity.
  - intros ->. rewrite parseGpx_orThrow, gpxCoords_map. unfold matchAll.
    rewrite matchAllFrom_eq, (execFrom_only_stretch s 0 Hs). reflexivity.
Qed.

End LonFirst.

(* ===================================================================== *)
(** ** Numbers followed by other text *)
(* ===================================================================== *)

Section NumberThenText.
Import JS RegExp App Documents Variants.

Variable x : char.
Hypothesis Hx : numChar x = false.

Lemma numChar_differs c : numChar c = true -> (x =? c)%N = false.
Proof.
  intros Hc. apply N.eqb_neq. intros ->. congruence.
Qed.

Lemma readSign_cut s j :
  readSign (s ++ x :: j) = (fst (readSign s), snd (readSign s) ++ x :: j).
Proof.
  destruct s as [|c s]; cbn [app readSign].
  - rewrite (numChar_differs 45%N eq_refl), (numChar_differs 43%N eq_refl). reflexivity.
  - destruct (c =? 45)%N; [reflexivity|]. destruct (c =? 43)%N; reflexivity.
Qed.

Lemma stripPrefix_cut p : forall s j,
  forallb numChar p = true ->
  stripPrefix p (s ++ x :: j) =
  match stripPrefix p s with
  | Some r => Some (r ++ x :: j)
  | None => None
  end.
Proof.
  induction p as [|c p IH]; intros s j Hp; [reflexivity|].
  cbn [forallb] in Hp. apply andb_true_iff in Hp. destruct Hp as [Hc Hp].
  destruct s as [|d s]; cbn [app stripPrefix].
  - unfold char_eqb. rewrite N.eqb_sym, (numChar_differs c Hc). reflexivity.
  - destruct (char_eqb c d); [apply IH; exact Hp | reflexivity].
Qed.

Lemma span_cut s j :
  span isDigit (s ++ x :: j) =
  (fst (span isDigit s), snd (span isDigit s) ++ x :: j).
Proof.
  assert (Hd : isDigit x = false).
  { destruct (isDigit x) eqn:E; [|reflexivity].
    unfold numChar in Hx. rewrite E in Hx. discriminate. }
  induction s as [|c s IH]; cbn [app span].
  - rewrite Hd. reflexivity.
  - destruct (isDigit c); [|reflexivity].
    rewrite IH. destruct (span isDigit s) as [a r]. reflexivity.
Qed.

Lemma readExponent_cut s j :
  readExponent (s ++ x :: j) =
  (fst (readExponent s), snd (readExponent s) ++ x :: j).
Proof.
  destruct s as [|c s1]; cbn [app readExponent].
  - rewrite (numChar_differs 101%N eq_refl), (numChar_differs 69%N eq_refl). reflexivity.
  - destruct ((c =? 101) || (c =? 69))%N; [|reflexivity].
    rewrite readSign_cut. destruct (readSign s1) as [neg s2]. cbn [fst snd].
    rewrite span_cut. destruct (span isDigit s2) as [ds s3]. cbn [fst snd].
    destruct ds; reflexivity.
Qed.

(** What stands before a character that no literal contains is read as
    if the text ended there. *)
Lemma strDecimalPrefix_cut s j :
  strDecimalPrefix (s ++ x :: j) =
  match strDecimalPrefix s with
  | Some (v, r) => Some (v, r ++ x :: j)
  | None => None
  end.
Proof.
  unfold strDecimalPrefix. rewrite readSign_cut.
  destruct (readSign s) as [neg s1]. cbn [fst snd].
  rewrite (stripPrefix_cut (lit "Infinity") s1 j eq_refl).
  destruct (stripPrefix (lit "Infinity") s1) as [r|]; [reflexivity|].
  rewrite span_cut. destruct (span isDigit s1) as [ip s2]. cbn [fst snd].
  destruct s2 as [|c t]; cbn [app].
  - rewrite (numChar_differs 46%N eq_refl).
    rewrite app_nil_r. destruct ip as [|d ds]; [reflexivity|].
    cbn [app]. pose proof (readExponent_cut [] j) as He. cbn [app] in He.
    rewrite He. reflexivity.
  - destruct (c =? 46)%N.
    + rewrite span_cut. destruct (span isDigit t) as [fp s3]. cbn [fst snd].
      destruct ip as [|i0 ip]; [destruct fp as [|f0 fp]|].
      * reflexivity.
      * cbn [app]. rewrite readExponent_cut.
        destruct (readExponent s3) as [e s4]. reflexivity.
      * cbn [app]. rewrite readExponent_cut.
        destruct (readExponent s3) as [e s4]. reflexivity.
    + rewrite app_nil_r. destruct ip as [|d ds]; [reflexivity|].
      change ((c :: t) ++ x :: j) with (c :: t ++ x :: j).
      change (c :: t ++ x :: j) with ((c :: t) ++ x :: j).
      rewrite readExponent_cut. destruct (readExponent (c :: t)) as [e s4]. reflexivity.
Qed.

End NumberThenText.

Section LenientAttributes.
Import JS RegExp App Documents Variants Numerals.

(** [parseFloat] reads the literal a text starts with. *)
Lemma parseFloat_literal_prefix w t rest v :
  allWhite w = true -> literalValue t = Some v -> cutsLiteral rest = true ->
  parseFloat (w ++ t ++ rest) = v.
Proof.
  intros Hw Ht Hcut.
  destruct (literalValue_spec _ _ Ht) as (Hne & Hnum & _ & Hpre).
  unfold parseFloat, trimStart. rewrite (dropWhile_app_all _ _ _ Hw).
  destruct t as [|c t]; [congruence|].
  pose proof (numChar_not_white c (forallb_head _ _ _ Hnum)) as Hc.
  change ((c :: t) ++ rest) with (c :: t ++ rest).
  rewrite (dropWhile_stop _ _ _ Hc).
  change (c :: t ++ rest) with ((c :: t) ++ rest).
  destruct rest as [|x j].
  - rewrite app_nil_r, Hpre. reflexivity.
  - cbn [cutsLiteral] in Hcut. apply negb_true_iff in Hcut.
    rewrite (strDecimalPrefix_cut x Hcut), Hpre. reflexivity.
Qed.

(** [parseFloat] reads the numeral a text starts with as the number it
    denotes. *)
Lemma parseFloat_startsWithNumeral a n : startsWithNumeral a n -> parseFloat a = numeralValue n.
Proof.
  intros (w & rest & -> & Hw & Hn & Hcut).
  apply parseFloat_literal_prefix; [exact Hw| |exact Hcut].
  apply numeral_literalValue. exact Hn.
Qed.

Lemma numChar_not_radix c : numChar c = true -> isRadixLetter c = false.
Proof.
  intros H. apply numChar_cases in H. destruct H as [H|H].
  - unfold isRadixLetter, char_eqb. cbn.
    repeat match goal with
           | |- context [(c =? ?k)%N] => destruct (N.eqb_spec c k); [lia|]
           end.
    reflexivity.
  - cbn in H. repeat (destruct H as [<-|H]; [reflexivity|]). contradiction.
Qed.

Lemma nonDecimalLiteral_needs_radix z r ds :
  isRadixLetter r = false -> nonDecimalLiteral (z :: r :: ds) = NaN.
Proof.
  unfold isRadixLetter, char_eqb. cbn [existsb lit list_ascii_of_string map]. cbn.
  intros H. repeat (apply orb_false_iff in H; destruct H as [? H]).
  destruct ds; [reflexivity|]. destruct (z =? 48)%N; [|reflexivity].
  repeat match goal with
         | E : (r =? _)%N = false |- _ => rewrite E; clear E
         end.
  reflexivity.
Qed.

(** [Number] does not: a literal followed by other text is not a
    number. *)
Lemma Number_literal_then_text t v c rest :
  literalValue t = Some v ->
  numChar c = false -> isWhiteSpace c = false -> isRadixLetter c = false ->
  noneWhite rest = true ->
  Number (t ++ c :: rest) = NaN.
Proof.
  intros Ht Hc Hw Hr Hrest.
  destruct (literalValue_spec _ _ Ht) as (Hne & Hnum & _ & Hpre).
  unfold Number. rewrite noneWhite_trim.
  - pose proof (strDecimalPrefix_cut c Hc t rest) as Hcut. rewrite Hpre in Hcut.
    destruct t as [|z t]; [congruence|].
    cbn [app] in Hcut |- *. rewrite Hcut.
    destruct t as [|r t]; cbn [app].
    + apply nonDecimalLiteral_needs_radix. exact Hr.
    + apply nonDecimalLiteral_needs_radix. apply numChar_not_radix.
      cbn [forallb] in Hnum. apply andb_true_iff in Hnum. destruct Hnum as [_ Hnum].
      apply andb_true_iff in Hnum. tauto.
  - destruct t; discriminate.
  - unfold noneWhite. rewrite forallb_app. cbn [forallb]. rewrite Hw.
    fold (noneWhite t). rewrite (numChars_noneWhite _ Hnum). exact Hrest.
Qed.

Lemma numeralText_numChars n : isNumeral n = true -> forallb numChar (numeralText n) = true.
Proof.
  intros H. destruct (literalValue_spec _ _ (numeral_literalValue n H)) as (_ & Hnum & _).
  exact Hnum.
Qed.

(** A token whose longitude is a numeral followed by other text is text
    that [parseKml] drops. *)
Lemma numeral_then_text_dropped n m c rest :
  isNumeral n = true -> isNumeral m = true ->
  numChar c = false -> isWhiteSpace c = false -> isRadixLetter c = false ->
  noneWhite rest = true -> lacks comma (c :: rest) = true ->
  lacks lessThan (c :: rest) = true ->
  isDroppedText ((numeralText n ++ c :: rest) ++ comma :: numeralText m) = true.
Proof.
  intros Hn Hm Hc Hw Hr Hrest Hcomma Hless.
  pose proof (numeralText_numChars n Hn) as Nn.
  pose proof (numeralText_numChars m Hm) as Nm.
  pose proof (Number_literal_then_text _ _ c rest (numeral_literalValue n Hn) Hc Hw Hr Hrest)
    as HN.
  unfold isDroppedText. repeat (apply andb_true_iff; split).
  - destruct (numeralText n); reflexivity.
  - unfold noneWhite. rewrite !forallb_app. cbn [forallb]. rewrite Hw.
    fold (noneWhite (numeralText n)). fold (noneWhite rest). fold (noneWhite (numeralText m)).
    rewrite (numChars_noneWhite _ Nn), (numChars_noneWhite _ Nm), Hrest. reflexivity.
  - unfold lacks in *. rewrite !forallb_app. cbn [forallb] in *.
    fold (lacks lessThan (numeralText n)). fold (lacks lessThan (numeralText m)).
    rewrite (numChars_lack lessThan _ eq_refl Nn), (numChars_lack lessThan _ eq_refl Nm).
    rewrite Hless. reflexivity.
  - apply negb_true_iff.
    assert (Hl : lacks comma (numeralText n ++ c :: rest) = true).
    { unfold lacks in *. rewrite forallb_app, Hcomma.
      fold (lacks comma (numeralText n)).
      rewrite (numChars_lack comma _ eq_refl Nn). reflexivity. }
    unfold component. rewrite (splitChar_piece _ _ _ Hl). cbn [map nth_error].
    rewrite HN. reflexivity.
Qed.

Lemma validTokensOf_app a b : validTokensOf (a ++ b) = validTokensOf a ++ validTokensOf b.
Proof. unfold validTokensOf. apply flat_map_app. Qed.

(** X23: a GPX attribute is read up to the end of the numeral it starts
    with: white space before the numeral and any text after it that
    starts with a character no number contains are ignored, so
    [lat="45.0N"] gives 45. A KML token is read strictly: a longitude
    made of a numeral followed by such text is no number for [Number],
    [pushPair] adds nothing for the token, and [parseKml] returns the
    coordinates of the other tokens of the block only, and throws when
    the token is alone. The two formats disagree on the same text. *)
Theorem gpx_reads_a_number_followed_by_text_and_kml_does_not :
  (forall g ms values,
     ms <> [] ->
     noMarker g = true ->
     forallb shaped ms = true ->
     Forall2 (fun mg v => startsWithNumeral (latText (fst mg)) (fst v) /\
                          startsWithNumeral (lonText (fst mg)) (snd v)) ms values ->
     parseGpx (gpxText g ms) =
     Return (map (fun v => {| lat := numeralValue (fst v);
                              lon := numeralValue (snd v) |}) values)) /\
  (forall n m c rest,
     isNumeral n = true -> isNumeral m = true ->
     numChar c = false -> isWhiteSpace c = false -> isRadixLetter c = false ->
     noneWhite rest = true -> lacks comma (c :: rest) = true ->
     lacks lessThan (c :: rest) = true ->
     parseFloat (numeralText n ++ c :: rest) = numeralValue n /\
     Number (numeralText n ++ c :: rest) = NaN /\
     (forall coords,
        pushPair coords ((numeralText n ++ c :: rest) ++ comma :: numeralText m) = coords) /\
     (forall pre w0 before w after post,
        noBlock pre = true -> allWhite w0 = true ->
        forallb (fun iw => isItem (fst iw)) (before ++ after) = true ->
        spaced (before ++
                (OtherText ((numeralText n ++ c :: rest) ++ comma :: numeralText m), w)
                :: after) = true ->
        parseKml (pre ++ blockText (itemsText w0 (before ++
                (OtherText ((numeralText n ++ c :: rest) ++ comma :: numeralText m), w)
                :: after)) ++ post) =
        orThrow kmlErrorMessage (map tokenPoint (validTokensOf (before ++ after)))) /\
     parseKml (blockText ((numeralText n ++ c :: rest) ++ comma :: numeralText m)) =
       Throw kmlErrorMessage).
Proof.
  split.
  - intros g ms values Hne Hg Hms Hvalues.
    rewrite parseGpx_orThrow, (gpxCoords_gpxText g ms Hg Hms).
    assert (E : map readMarker ms =
                map (fun v => {| lat := numeralValue (fst v);
                                 lon := numeralValue (snd v) |}) values).
    { clear Hg Hms Hne. induction Hvalues as [|mg v ms values [Hla Hlo] _ IH];
        [reflexivity|].
      cbn [map]. rewrite IH. f_equal. unfold readMarker.
      rewrite (parseFloat_startsWithNumeral _ _ Hla), (parseFloat_startsWithNumeral _ _ Hlo).
      reflexivity. }
    rewrite <- E. apply orThrow_nonempty. destruct ms; [congruence|discriminate].
  - intros n m c rest Hn Hm Hc Hw Hr Hrest Hcomma Hless.
    pose proof (numeral_then_text_dropped n m c rest Hn Hm Hc Hw Hr Hrest Hcomma Hless)
      as Hdrop.
    pose proof (Number_literal_then_text _ _ c rest (numeral_literalValue n Hn) Hc Hw Hr Hrest)
      as HN.
    set (token := (numeralText n ++ c :: rest) ++ comma :: numeralText m) in *.
    assert (Hcon : contribution token = []).
    { apply (contribution_item (OtherText token)). exact Hdrop. }
    split; [|split; [exact HN|split; [|split]]].
    + rewrite <- (app_nil_l (numeralText n ++ c :: rest)).
      apply parseFloat_literal_prefix;
        [reflexivity | apply numeral_literalValue; exact Hn | cbn; rewrite Hc; reflexivity].
    + intros coords. rewrite pushPair_contribution, Hcon. apply app_nil_r.
    + intros pre w0 before w after post Hpre Hw0 Hitems Hsp.
      rewrite parseKml_orThrow, kmlCoords_items; try assumption.
      * rewrite validTokensOf_app. cbn [validTokensOf flat_map fst app].
        fold (validTokensOf after). rewrite <- validTokensOf_app. reflexivity.
      * destruct before; discriminate.
      * rewrite forallb_app in *. cbn [forallb fst isItem].
        apply andb_true_iff in Hitems. destruct Hitems as [Hb Ha].
        rewrite Hb, Ha, Hdrop. reflexivity.
    + pose proof (kmlCoords_items [] [] [(OtherText token, [])] []) as H.
      unfold itemsText in H. cbn [map fst snd itemText wordsText app validTokensOf flat_map] in H.
      rewrite !app_nil_r in H.
      rewrite parseKml_orThrow, H; [reflexivity|discriminate|reflexivity|reflexivity| |reflexivity].
      cbn [forallb fst isItem]. rewrite Hdrop. reflexivity.
Qed.

End LenientAttributes.

(* ===================================================================== *)
(** ** The properties at sample inputs *)
(* ===================================================================== *)

Section MoreCases.
Import JS Builtins App GeminiService Execution Download Polling RouteMap Page.
Import Documents Variants Numerals Samples TrackSamples MoreSamples.

(** X1 at a service that is done at the second status query. *)
Lemma polling_follows_the_answers_example :
  generateVideos doneAtSecondQuery (request mapImage) = inr pending /\
  answersWith doneAtSecondQuery 0 pending [pending; finished] /\
  exists n st',
    (forall m, n <= m ->
       run m doneAtSecondQuery (generateRouteVideo mapImage) initial =
       (Some match extractLink (last [pending; finished] pending) with
             | inr link => inr link
             | inl _ => inl (ErrorObject genericMessage)
             end, st')) /\
    waits st' = length [pending; finished] /\
    requeries st' = length [pending; finished] /\
    trace st' =
      jobTrace mapImage (queried pending [pending; finished])
        match extractLink (last [pending; finished] pending) with
        | inr _ => []
        | inl _ => [Logged logLabel (ErrorObject noLinkMessage)]
        end.
Proof.
  split; [reflexivity|]. split; [cbn; repeat split; reflexivity|].
  apply (polling_follows_the_answers doneAtSecondQuery mapImage pending
           [pending; finished]); [reflexivity|].
  cbn. repeat split; reflexivity.
Defined.

(** X2 at a service that rejects the first status query. *)
Lemma rejected_status_query_ends_the_job_example :
  generateVideos failsAtFirstQuery (request mapImage) = inr pending /\
  answersUntilRejected failsAtFirstQuery 0 pending []
    (ErrorObject (lit "fetch failed")) /\
  exists n st',
    (forall m, n <= m ->
       run m failsAtFirstQuery (generateRouteVideo mapImage) initial =
       (Some (inl (ErrorObject
                     (if isInvalidKeyError (ErrorObject (lit "fetch failed"))
                      then invalidKeyMessage else genericMessage))),
        st')) /\
    waits st' = S (length (@nil Operation)) /\
    requeries st' = S (length (@nil Operation)) /\
    trace st' = jobTrace mapImage [pending]
                  [Logged logLabel (ErrorObject (lit "fetch failed"))].
Proof.
  split; [reflexivity|]. split; [split; reflexivity|].
  apply (rejected_status_query_ends_the_job failsAtFirstQuery mapImage pending []
           (ErrorObject (lit "fetch failed"))); [reflexivity|].
  split; reflexivity.
Defined.

(** X3 at a submission rejected for its credential. *)
Lemma rejections_carry_one_of_two_messages_example :
  run 3 refusesKey (generateRouteVideo mapImage) initial =
    (Some (inl (ErrorObject invalidKeyMessage)),
     snd (run 3 refusesKey (generateRouteVideo mapImage) initial)) /\
  (ErrorObject invalidKeyMessage = ErrorObject invalidKeyMessage \/
   ErrorObject invalidKeyMessage = ErrorObject genericMessage) /\
  exists cause,
    ErrorObject invalidKeyMessage =
      ErrorObject (if isInvalidKeyError cause
                   then invalidKeyMessage else genericMessage) /\
    last (trace (snd (run 3 refusesKey (generateRouteVideo mapImage) initial)))
         (Submitted (request mapImage)) = Logged logLabel cause /\
    (generateVideos refusesKey (request mapImage) = inl cause \/
     cause = ErrorObject noLinkMessage \/
     exists q operation, getVideosOperation refusesKey q operation = inl cause).
Proof.
  split; [reflexivity|].
  apply (rejections_carry_one_of_two_messages refusesKey mapImage 3
           (ErrorObject invalidKeyMessage)
           (snd (run 3 refusesKey (generateRouteVideo mapImage) initial))).
  reflexivity.
Defined.

(** X4 at a service that is done at once. *)
Lemma resolves_only_with_the_link_of_a_done_operation_example :
  run 2 doneAtOnce (generateRouteVideo mapImage) initial =
    (Some (inr (lit "https://video.example/route-1?alt=media")),
     snd (run 2 doneAtOnce (generateRouteVideo mapImage) initial)) /\
  lit "https://video.example/route-1?alt=media" <> [] /\
  exists operation operations,
    generateVideos doneAtOnce (request mapImage) = inr operation /\
    answersWith doneAtOnce 0 operation operations /\
    isDone (last operations operation) = true /\
    downloadLinkOf (last operations operation) =
      Some (lit "https://video.example/route-1?alt=media") /\
    trace (snd (run 2 doneAtOnce (generateRouteVideo mapImage) initial)) =
      jobTrace mapImage (queried operation operations) [] /\
    waits (snd (run 2 doneAtOnce (generateRouteVideo mapImage) initial)) =
      length operations /\
    requeries (snd (run 2 doneAtOnce (generateRouteVideo mapImage) initial)) =
      length operations.
Proof.
  split; [reflexivity|].
  apply (resolves_only_with_the_link_of_a_done_operation doneAtOnce mapImage 2
           (lit "https://video.example/route-1?alt=media")
           (snd (run 2 doneAtOnce (generateRouteVideo mapImage) initial))).
  reflexivity.
Defined.

(** X5 at a service that is done at the second status query. *)
Lemma settled_run_has_the_shape_of_a_job_example :
  run 8 doneAtSecondQuery (generateRouteVideo mapImage) initial =
    (Some (inr (lit "https://video.example/route-1?alt=media")),
     snd (run 8 doneAtSecondQuery (generateRouteVideo mapImage) initial)) /\
  exists operations log,
    trace (snd (run 8 doneAtSecondQuery (generateRouteVideo mapImage) initial)) =
      jobTrace mapImage operations log /\
    waits (snd (run 8 doneAtSecondQuery (generateRouteVideo mapImage) initial)) =
      length operations /\
    requeries (snd (run 8 doneAtSecondQuery (generateRouteVideo mapImage) initial)) =
      length operations /\
    queries (snd (run 8 doneAtSecondQuery (generateRouteVideo mapImage) initial)) =
      length operations /\
    log = [].
Proof.
  split; [reflexivity|].
  apply (settled_run_has_the_shape_of_a_job doneAtSecondQuery mapImage 8
           (inr (lit "https://video.example/route-1?alt=media"))
           (snd (run 8 doneAtSecondQuery (generateRouteVideo mapImage) initial))).
  reflexivity.
Defined.

(** X6 at a network that answers with 403. *)
Lemma download_failures_share_one_message_example :
  exec (answer forbidden) 4
       (fetchVideoBlob apiKey (lit "https://video.example/route-1?alt=media")) [] =
    (Some (inl (ErrorObject downloadMessage)),
     [Requested (lit "https://video.example/route-1?alt=media&key=AIzaSyExample");
      ErrorLogged (lit "Error fetching video blob:")
        (ErrorObject (lit "Failed to download video file. Status: 403"))]) /\
  ErrorObject downloadMessage = ErrorObject downloadMessage /\
  (forall response, ErrorObject downloadMessage <> ErrorObject (statusMessage response)) /\
  exists cause,
    last [Requested (lit "https://video.example/route-1?alt=media&key=AIzaSyExample");
          ErrorLogged (lit "Error fetching video blob:")
            (ErrorObject (lit "Failed to download video file. Status: 403"))]
         (Requested []) = ErrorLogged (lit "Error fetching video blob:") cause /\
    (respond forbidden
       (lit "https://video.example/route-1?alt=media" ++ lit "&key=" ++ apiKey)
       = inl cause \/
     (exists response,
        respond forbidden
          (lit "https://video.example/route-1?alt=media" ++ lit "&key=" ++ apiKey)
          = inr response /\
        ok response = false /\
        cause = ErrorObject (statusMessage response) /\
        [Requested (lit "https://video.example/route-1?alt=media&key=AIzaSyExample");
         ErrorLogged (lit "Error fetching video blob:")
           (ErrorObject (lit "Failed to download video file. Status: 403"))] =
        [] ++ [Requested
                 (lit "https://video.example/route-1?alt=media" ++ lit "&key=" ++ apiKey);
               ErrorLogged (lit "Error fetching video blob:") cause]) \/
     (exists response,
        respond forbidden
          (lit "https://video.example/route-1?alt=media" ++ lit "&key=" ++ apiKey)
          = inr response /\
        ok response = true /\
        blobOf forbidden response = inl cause)).
Proof.
  split; [reflexivity|].
  apply (download_failures_share_one_message forbidden apiKey
           (lit "https://video.example/route-1?alt=media") 4 []
           (ErrorObject downloadMessage)
           [Requested (lit "https://video.example/route-1?alt=media&key=AIzaSyExample");
            ErrorLogged (lit "Error fetching video blob:")
              (ErrorObject (lit "Failed to download video file. Status: 403"))]).
  reflexivity.
Defined.

Lemma loadingMessages_distinct : NoDup loadingMessages.
Proof.
  unfold loadingMessages.
  repeat (apply NoDup_cons; [cbn; intuition discriminate|]).
  apply NoDup_nil.
Defined.

(** X10 at three messages, after four firings. *)
Lemma progress_cycles_through_the_messages_example :
  NoDup loadingMessages /\ loadingMessages <> [] /\
  Nat.iter 4 (onProgress loadingMessages) (element loadingMessages (Some 0%Z)) =
  nth_error loadingMessages (4 mod length loadingMessages).
Proof.
  split; [exact loadingMessages_distinct|]. split; [discriminate|].
  apply (progress_cycles_through_the_messages loadingMessages 4);
    [exact loadingMessages_distinct | discriminate].
Defined.

(** X12 at a file name with two full stops. *)
Lemma download_name_stops_at_the_first_full_stop_example :
  lacks fullStop (lit "alps") = true /\
  downloadName (lit "alps" ++ fullStop :: lit "day1.gpx") =
    lit "route_video_" ++ lit "alps" ++ lit ".mp4" /\
  downloadName (lit "alps") = lit "route_video_" ++ lit "alps" ++ lit ".mp4" /\
  forall rest', downloadName (lit "alps" ++ fullStop :: rest') =
                downloadName (lit "alps" ++ fullStop :: lit "day1.gpx").
Proof.
  split; [reflexivity|].
  apply (download_name_stops_at_the_first_full_stop (lit "alps") (lit "day1.gpx")).
  reflexivity.
Defined.

Lemma map_asciiLower_lowers : lowersAscii (map asciiLower).
Proof. intros s _. reflexivity. Defined.

(** X14 at a name whose extension is written in capitals. *)
Lemma extension_alone_selects_the_parser_example :
  lowersAscii (map asciiLower) /\
  forallb isAscii (lit "Morning Ride" ++ lit ".GPX") = true /\
  (map asciiLower (lit ".GPX") = lit ".gpx" ->
     readTrack (map asciiLower) {| name := lit "Morning Ride" ++ lit ".GPX" |}
       (lit "<kml/>") = parseGpx (lit "<kml/>")) /\
  (map asciiLower (lit ".GPX") = lit ".kml" ->
     readTrack (map asciiLower) {| name := lit "Morning Ride" ++ lit ".GPX" |}
       (lit "<kml/>") = parseKml (lit "<kml/>")) /\
  (endsWith (map asciiLower (lit "Morning Ride" ++ lit ".GPX")) (lit ".gpx") = false ->
   endsWith (map asciiLower (lit "Morning Ride" ++ lit ".GPX")) (lit ".kml") = false ->
     readTrack (map asciiLower) {| name := lit "Morning Ride" ++ lit ".GPX" |}
       (lit "<kml/>") = Throw unsupportedMessage).
Proof.
  split; [exact map_asciiLower_lowers|]. split; [reflexivity|].
  apply (extension_alone_selects_the_parser (map asciiLower)
           (lit "Morning Ride") (lit ".GPX") (lit "<kml/>"));
    [exact map_asciiLower_lowers | reflexivity].
Defined.

(** X16 at the KML example with other text among its tokens. *)
Lemma kml_track_is_drawn_as_written_example :
  validTokensOf kmlMixedExample <> [] /\
  noBlock (lit "<kml>") = true /\
  allWhite [] = true /\
  forallb (fun iw => isItem (fst iw)) kmlMixedExample = true /\
  spaced kmlMixedExample = true /\
  exists coords d,
    parseKml (lit "<kml>" ++ blockText (itemsText [] kmlMixedExample) ++ lit "</kml>")
      = Return coords /\
    draw (Some coords) (lit "dark") true = Some d /\
    coordinates (fitted d) = map tokenPosition (validTokensOf kmlMixedExample) /\
    nth_error (map tokenPosition (validTokensOf kmlMixedExample)) 0 =
      Some (startCircle d) /\
    nth_error (map tokenPosition (validTokensOf kmlMixedExample))
      (length (validTokensOf kmlMixedExample) - 1) = Some (endCircle d).
Proof.
  split; [discriminate|]. split; [reflexivity|]. split; [reflexivity|].
  split; [vm_compute; reflexivity|]. split; [reflexivity|].
  apply (kml_track_is_drawn_as_written (lit "<kml>") [] kmlMixedExample (lit "</kml>")
           (lit "dark"));
    [discriminate | reflexivity | reflexivity | vm_compute; reflexivity | reflexivity].
Defined.

(** X17 at the GPX example of the specification. *)
Lemma gpx_track_is_drawn_longitude_first_example :
  gpxExample <> [] /\
  noMarker (lit "<gpx>") = true /\
  forallb (fun pg => isNumericMarker (fst pg) && noMarker (snd pg)) gpxExample = true /\
  exists coords d,
    parseGpx (numericGpxText (lit "<gpx>") gpxExample) = Return coords /\
    draw (Some coords) (lit "light") true = Some d /\
    coordinates (fitted d) = map (fun pg => markerPosition (fst pg)) gpxExample /\
    nth_error (map (fun pg => markerPosition (fst pg)) gpxExample) 0 =
      Some (startCircle d) /\
    nth_error (map (fun pg => markerPosition (fst pg)) gpxExample)
      (length gpxExample - 1) = Some (endCircle d).
Proof.
  split; [discriminate|]. split; [reflexivity|]. split; [vm_compute; reflexivity|].
  apply (gpx_track_is_drawn_longitude_first (lit "<gpx>") gpxExample (lit "light"));
    [discriminate | reflexivity | vm_compute; reflexivity].
Defined.

(** X18 in a browser in which everything works. *)
Lemma generation_always_cleans_up_example :
  mapMounted working = true /\
  timerId working <> 0%N /\
  exec (browse loadingMessages working) 40
       (handleGenerateVideo loadingMessages apiKey) (pressed start) =
    (Some tt,
     snd (exec (browse loadingMessages working) 40
            (handleGenerateVideo loadingMessages apiKey) (pressed start))) /\
  let w' := snd (exec (browse loadingMessages working) 40
                   (handleGenerateVideo loadingMessages apiKey) (pressed start)) in
  isLoading (ui w') = false /\
  progressMessage (ui w') = Some [] /\
  intervals w' = [] /\
  routeData (ui w') = routeData start /\
  fileName (ui w') = fileName start /\
  theme (ui w') = theme start /\
  ((error (ui w') = None /\
    exists blob, videoUrl (ui w') = Some (objectUrl working blob)) \/
   (exists message, error (ui w') = Some message /\ videoUrl (ui w') = None)).
Proof.
  split; [reflexivity|]. split; [discriminate|]. split; [vm_compute; reflexivity|].
  apply (generation_always_cleans_up loadingMessages apiKey working start 40
           (snd (exec (browse loadingMessages working) 40
                   (handleGenerateVideo loadingMessages apiKey) (pressed start))));
    [reflexivity | discriminate | vm_compute; reflexivity].
Defined.

(** X19 in a browser in which everything works. *)
Lemma generation_shows_what_the_service_module_reports_example :
  mapMounted working = true /\
  snapshot working = inr (Some mapImage) /\ mapImage <> [] /\
  timerId working <> 0%N /\
  run 8 (service working) (generateRouteVideo mapImage) initial =
    (Some (inr (lit "https://video.example/route-1?alt=media")),
     snd (run 8 (service working) (generateRouteVideo mapImage) initial)) /\
  exists m w',
    (forall k, m <= k ->
       exec (browse loadingMessages working) k
            (handleGenerateVideo loadingMessages apiKey) (pressed start)
         = (Some tt, w')) /\
    job w' = snd (run 8 (service working) (generateRouteVideo mapImage) initial) /\
    isLoading (ui w') = false /\
    progressMessage (ui w') = Some [] /\
    intervals w' = [] /\
    match exec (answer (network working)) 4
            (fetchVideoBlob apiKey (lit "https://video.example/route-1?alt=media")) []
    with
    | (Some (inr blob), log) =>
        error (ui w') = None /\ videoUrl (ui w') = Some (objectUrl working blob) /\
        transfers w' = log
    | (Some (inl err), log) =>
        error (ui w') = Some (shownMessage err) /\ videoUrl (ui w') = None /\
        transfers w' = log
    | (None, _) => False
    end.
Proof.
  split; [reflexivity|]. split; [reflexivity|]. split; [discriminate|].
  split; [discriminate|]. split; [reflexivity|].
  apply (generation_shows_what_the_service_module_reports loadingMessages apiKey
           working start mapImage 8
           (inr (lit "https://video.example/route-1?alt=media"))
           (snd (run 8 (service working) (generateRouteVideo mapImage) initial)));
    [reflexivity | reflexivity | discriminate | discriminate | reflexivity].
Defined.

(** X21 in a browser whose video job is never done. *)
Lemma generation_keeps_loading_for_a_stuck_job_example :
  mapMounted waiting = true /\
  snapshot waiting = inr (Some mapImage) /\ mapImage <> [] /\
  generateVideos (service waiting) (request mapImage) = inr pending /\
  isDone pending = false /\
  neverDone (service waiting) /\
  (forall n,
     fst (exec (browse loadingMessages waiting) n
            (handleGenerateVideo loadingMessages apiKey) (pressed start)) = None) /\
  (forall n, 8 <= n ->
     let w := snd (exec (browse loadingMessages waiting) n
                     (handleGenerateVideo loadingMessages apiKey) (pressed start)) in
     isLoading (ui w) = true /\ intervals w = [timerId waiting] /\
     error (ui w) = None /\ videoUrl (ui w) = None) /\
  (forall k, exists n,
     k < waits (job (snd (exec (browse loadingMessages waiting) n
                            (handleGenerateVideo loadingMessages apiKey)
                            (pressed start))))).
Proof.
  split; [reflexivity|]. split; [reflexivity|]. split; [discriminate|].
  split; [reflexivity|]. split; [reflexivity|]. split; [exact stuck_neverDone|].
  apply (generation_keeps_loading_for_a_stuck_job loadingMessages apiKey waiting
           start mapImage pending);
    [reflexivity | reflexivity | discriminate | reflexivity | reflexivity
    | exact stuck_neverDone].
Defined.

(** X22 at a text whose first marker has [lon] first. *)
Lemma parseGpx_skips_markers_with_lon_first_example :
  isStretch lonFirstStart = true /\
  forallb (fun entry => wellFormed (fst entry) && isStretch (snd entry)) latFirstRest
    = true /\
  exists coords,
    gpxCoords (mixedGpxText lonFirstStart latFirstRest) = coords /\
    map Some coords = map (fun entry => coordinateOf (fst entry)) latFirstRest /\
    parseGpx (mixedGpxText lonFirstStart latFirstRest) =
      orThrow gpxErrorMessage coords /\
    (latFirstRest = [] -> parseGpx (stretchText lonFirstStart) = Throw gpxErrorMessage).
Proof.
  split; [reflexivity|]. split; [reflexivity|].
  apply (parseGpx_skips_markers_with_lon_first lonFirstStart latFirstRest); reflexivity.
Defined.

(** X23 at [lat="45.0N"] and at the token [7.5W,45.0]. *)
Lemma gpx_reads_a_number_followed_by_text_and_kml_does_not_example :
  parseGpx (gpxText [] [(northWest, lit "/>")]) =
    Return [ {| lat := Finite false 45; lon := Finite false (15 # 2) |} ] /\
  parseFloat (lit "7.5W") = Finite false (15 # 2) /\
  Number (lit "7.5W") = NaN /\
  (forall coords, pushPair coords (lit "7.5W,45.0") = coords) /\
  parseKml (lit "<coordinates>7.5W,45.0</coordinates>") = Throw kmlErrorMessage.
Proof.
  pose proof (proj1 gpx_reads_a_number_followed_by_text_and_kml_does_not
                [] [(northWest, lit "/>")]
                [(plain (Decimal.D4 (Decimal.D5 Decimal.Nil)) (Decimal.D0 Decimal.Nil),
                  plain (Decimal.D7 Decimal.Nil) (Decimal.D5 Decimal.Nil))]) as Hgpx.
  pose proof (proj2 gpx_reads_a_number_followed_by_text_and_kml_does_not
                (plain (Decimal.D7 Decimal.Nil) (Decimal.D5 Decimal.Nil))
                (plain (Decimal.D4 (Decimal.D5 Decimal.Nil)) (Decimal.D0 Decimal.Nil))
                87%N []) as Hkml.
  split.
  - apply Hgpx; [discriminate | reflexivity | reflexivity |].
    constructor; [|constructor]. split.
    + exists [], (lit "N"). repeat split; reflexivity.
    + exists (lit " "), (lit " W"). repeat split; reflexivity.
  - destruct Hkml as (Hf & HN & Hp & _ & Ht); try reflexivity.
    split; [exact Hf|]. split; [exact HN|]. split; [exact Hp|exact Ht].
Defined.

(** X24 at the data URL of a canvas without area. *)
Lemma empty_canvas_gives_no_snapshot_example :
  lacks comma (lit "data:") = true /\ lacks comma [] = true /\
  RouteMap.base64Data (lit "data:" ++ comma :: []) = Some [] /\
  RouteMap.base64Data (lit "data:") = None /\
  (mapMounted blank = true ->
   (snapshot blank = inr (RouteMap.base64Data (lit "data:" ++ [comma])) \/
    snapshot blank = inr (RouteMap.base64Data (lit "data:"))) ->
   forall st, exists w',
     (forall k, 11 <= k ->
        exec (browse loadingMessages blank) k
             (handleGenerateVideo loadingMessages apiKey) (pressed st) =
        (Some tt, w')) /\
     error (ui w') = Some noImageMessage /\ videoUrl (ui w') = None /\
     isLoading (ui w') = false /\
     job w' = initial /\ transfers w' = [] /\ intervals w' = []).
Proof.
  split; [reflexivity|]. split; [reflexivity|].
  apply (empty_canvas_gives_no_snapshot loadingMessages apiKey blank (lit "data:") []);
    reflexivity.
Defined.

End MoreCases.
